(** * opuslang2: the semantic compilation stage of [compile.py]

    A shallow embedding of [src/opuslang2/compile.py]: the rule model
    ([Bid], [BidHistory], [Condition], [BidExpression], [Branch]), the
    logical-suit resolver, the expression constructors of
    [CompileTransformer], the condition sequencer
    [Branch.all_conditions_sorted] and the tree assembler [build_branch].

    Python exceptions are values of [outcome]; the global random generator
    used by the sequencer is an oracle [rnd : nat -> Z] together with the
    number of draws made so far; the recursion of [build_branch] is bounded
    by fuel, and a budget beyond the longest prefix is always enough.

    [BidHistory], [Branch] and [build_branch] describe histories whose
    [sequence] is a list, as the field is declared.  [HistoryObject],
    [BranchObject] and [build_branch_objects] also record whether the
    [sequence] is a list or the tuple that [CompileTransformer.continuation]
    stores, on which [+] raises and which no list equals. *)

From Stdlib Require Import ZArith String List Lia Permutation Sorted.
From stdpp Require Import base option list gmap strings countable.
Import ListNotations.
Open Scope string_scope.
Open Scope list_scope.
Open Scope Z_scope.

(** ** Outcomes of a Python call *)

Inductive PyError : Type :=
| ValueError
| TypeError
| AttributeError
| NotImplementedError
| KeyError.

(** [Ok a]: the call returned [a]; [Raise e]: it raised [e]; [OutOfFuel]:
    the model ran out of recursion budget before the call finished (never a
    Python result). *)
Inductive outcome (A : Type) : Type :=
| Ok (a : A)
| Raise (e : PyError)
| OutOfFuel.
Arguments Ok {A} a.
Arguments Raise {A} e.
Arguments OutOfFuel {A}.

#[global] Instance outcome_ret : MRet outcome := fun _ a => Ok a.
#[global] Instance outcome_bind : MBind outcome := fun _ _ f m =>
  match m with
  | Ok a => f a
  | Raise e => Raise e
  | OutOfFuel => OutOfFuel
  end.
#[global] Instance outcome_fmap : FMap outcome := fun _ _ f m =>
  match m with
  | Ok a => Ok (f a)
  | Raise e => Raise e
  | OutOfFuel => OutOfFuel
  end.

(** ** The intermediate representation [opus.lang.ir] *)

(** [meta] fields hold [None] or a parse-tree position object, which Python
    compares by identity: a [Meta] is the identity of such an object. *)
Definition Meta : Type := nat.

Definition meta_eqb (a b : option Meta) : bool :=
  match a, b with
  | None, None => true
  | Some x, Some y => Nat.eqb x y
  | _, _ => false
  end.

(** Modelled from the spec: the module [opus.lang.ir] is imported by
    [compile.py] but is not part of its sources.  A suit is "a denomination
    identifier (one of four suits, no-trump, or a special total points
    marker), compared by identity of denomination", with "a fixed canonical
    order"; the order chosen here is the bridge ranking, the marker [@]
    last. *)
Inductive Denomination : Type :=
| Clubs | Diamonds | Hearts | Spades | NoTrump | WholeHand.

#[global] Instance Denomination_eq_dec : EqDecision Denomination.
Proof. solve_decision. Defined.

Definition suit_rank (d : Denomination) : Z :=
  match d with
  | Clubs => 0 | Diamonds => 1 | Hearts => 2
  | Spades => 3 | NoTrump => 4 | WholeHand => 5
  end.

(** [ir.Suit(meta, name)] *)
Record Suit : Type := mkSuit { suit_meta : option Meta; suit_name : Denomination }.

Definition suit_eqb (a b : Suit) : bool :=
  Z.eqb (suit_rank (suit_name a)) (suit_rank (suit_name b)).
Definition suit_ltb (a b : Suit) : bool :=
  Z.ltb (suit_rank (suit_name a)) (suit_rank (suit_name b)).

(** Python values that occur inside expressions: literals, suits,
    [LogicSuit(type, lhs, rhs, meta)] (a dataclass of [compile.py]),
    [ir.Atom(kind, meta, child)] and [ir.BinaryExpr(meta, lhs, op, rhs)]. *)
Inductive Expr : Type :=
| ENum (n : Z)
| EStr (s : string)
| ESuit (s : Suit)
| ELogicSuit (type : string) (lhs rhs : Expr) (meta : option Meta)
| EAtom (kind : string) (meta : option Meta) (child : Expr)
| EBinary (b : BinaryExpr)
with BinaryExpr : Type :=
| mkBinaryExpr (meta : option Meta) (lhs : Expr) (op : string) (rhs : Expr).

Scheme Expr_mut_ind := Induction for Expr Sort Prop
  with BinaryExpr_mut_ind := Induction for BinaryExpr Sort Prop.

Definition be_meta (b : BinaryExpr) : option Meta :=
  match b with mkBinaryExpr m _ _ _ => m end.
Definition be_lhs (b : BinaryExpr) : Expr :=
  match b with mkBinaryExpr _ l _ _ => l end.
Definition be_op (b : BinaryExpr) : string :=
  match b with mkBinaryExpr _ _ o _ => o end.
Definition be_rhs (b : BinaryExpr) : Expr :=
  match b with mkBinaryExpr _ _ _ r => r end.

(** Modelled from the spec: the [__eq__] of [ir.Atom] and [ir.BinaryExpr]
    is not in the sources; expressions are "pure data" with "structural
    equality".  [LogicSuit] is declared in [compile.py] with [compare=False]
    on [meta]; suits compare by denomination. *)
Fixpoint expr_eqb (a b : Expr) {struct a} : bool :=
  match a, b with
  | ENum x, ENum y => Z.eqb x y
  | EStr x, EStr y => String.eqb x y
  | ESuit x, ESuit y => suit_eqb x y
  | ELogicSuit t l r _, ELogicSuit t' l' r' _ =>
      String.eqb t t' && expr_eqb l l' && expr_eqb r r'
  | EAtom k m c, EAtom k' m' c' =>
      String.eqb k k' && meta_eqb m m' && expr_eqb c c'
  | EBinary x, EBinary y => binary_eqb x y
  | _, _ => false
  end
with binary_eqb (a b : BinaryExpr) {struct a} : bool :=
  match a, b with
  | mkBinaryExpr m l o r, mkBinaryExpr m' l' o' r' =>
      meta_eqb m m' && expr_eqb l l' && String.eqb o o' && expr_eqb r r'
  end.

(** Does a LogicSuit node occur anywhere in the tree? *)
Fixpoint has_logic_suit (e : Expr) : bool :=
  match e with
  | ENum _ | EStr _ | ESuit _ => false
  | ELogicSuit _ _ _ _ => true
  | EAtom _ _ c => has_logic_suit c
  | EBinary b => binary_has_logic_suit b
  end
with binary_has_logic_suit (b : BinaryExpr) : bool :=
  match b with
  | mkBinaryExpr _ l _ r => has_logic_suit l || has_logic_suit r
  end.

(** ** Bids and bid histories *)

(** [@dataclass(frozen=True, order=True) class Bid]; [meta] is declared
    with [compare=False]: equality, order and hash see [(level, color)]. *)
Record Bid : Type := mkBid { level : Z; color : Suit; bid_meta : option Meta }.

Definition bid_eqb (a b : Bid) : bool :=
  Z.eqb (level a) (level b) && suit_eqb (color a) (color b).

(** Tuple comparison [(level, color) < (level, color)]. *)
Definition bid_ltb (a b : Bid) : bool :=
  if negb (Z.eqb (level a) (level b)) then Z.ltb (level a) (level b)
  else if negb (suit_eqb (color a) (color b)) then suit_ltb (color a) (color b)
  else false.

(** [_is_prefix(p, l)]: the loop runs over [zip(p, l)], which stops at the
    end of the shorter list. *)
Fixpoint _is_prefix (p l : list Bid) : bool :=
  match p, l with
  | prefix_el :: p', list_el :: l' =>
      if negb (bid_eqb prefix_el list_el) then false else _is_prefix p' l'
  | _, _ => true
  end.

(** [@dataclass class BidHistory]: [meta] takes part in comparisons.
    [sequence] is a list, as the field is declared ([List[Bid]]) and as
    [opening] and [+] build it; the histories whose [sequence] is the tuple
    that [continuation] stores are the [HistoryObject]s further down. *)
Record BidHistory : Type :=
  mkBidHistory { sequence : list Bid; history_meta : option Meta }.

Fixpoint bids_eqb (a b : list Bid) : bool :=
  match a, b with
  | [], [] => true
  | x :: a', y :: b' => bid_eqb x y && bids_eqb a' b'
  | _, _ => false
  end.

(** The generated [__eq__]: [(sequence, meta) == (sequence, meta)]. *)
Definition BidHistory_eqb (a b : BidHistory) : bool :=
  bids_eqb (sequence a) (sequence b) && meta_eqb (history_meta a) (history_meta b).

(** The values [__add__] may be handed as its right operand. *)
Inductive PyValue : Type :=
| VNone
| VInt (n : Z)
| VStr (s : string)
| VBid (b : Bid)
| VBidHistory (h : BidHistory)
| VBids (l : list Bid)
| VExpr (e : Expr).

Definition isinstance_Bid (v : PyValue) : bool :=
  match v with VBid _ => true | _ => false end.

(** [BidHistory.__contains__(self, item)], that is [item in self], for an
    item that is a history or a bare list of bids.  (A [str] item is first
    parsed by [BidHistory.from_str]; parsing is outside this model.) *)
Inductive ContainsItem : Type :=
| ItemHistory (h : BidHistory)
| ItemBids (l : list Bid).

Definition BidHistory_contains (self : BidHistory) (item : ContainsItem) : bool :=
  let item :=
    match item with
    | ItemHistory h => sequence h
    | ItemBids l => l
    end in
  _is_prefix item (sequence self).

(** [A.IsPrefixOf(B)] of the specification is [A in B]. *)
Definition is_prefix_of (A B : BidHistory) : bool :=
  BidHistory_contains B (ItemHistory A).

(** [BidHistory.__add__(self, other)] on values, for a history whose
    [sequence] is a list ([HistoryObject_add] covers the tuple). *)
Definition BidHistory_add (self : BidHistory) (other : PyValue) : outcome BidHistory :=
  match other with
  | VBid b =>
      let new_sequence := sequence self ++ [b] in
      Ok (mkBidHistory new_sequence (history_meta self))
  | _ => Raise ValueError
  end.

(** [self + bid] for an operand that is a [Bid] by its type and a history
    whose [sequence] is a list. *)
Definition history_append (self : BidHistory) (b : Bid) : BidHistory :=
  mkBidHistory (sequence self ++ [b]) (history_meta self).

(** *** [__add__] on the object store

    [sequence] is a reference to a Python list (a tuple has no [copy]; see
    [HistoryObject_add]).  [self.sequence.copy()] allocates a new list
    object, [append] mutates that object in place and the new history refers
    to it. *)
Module Store.

Definition loc : Type := nat.

Record BidHistoryObj : Type :=
  mkBidHistoryObj { sequence_ref : loc; obj_meta : option Meta }.

Definition list_copy (h : gmap loc (list Bid)) (l : loc)
  : loc * gmap loc (list Bid) :=
  let l' := fresh (dom h) in
  (l', <[l' := h !!! l]> h).

Definition list_append (h : gmap loc (list Bid)) (l : loc) (x : Bid)
  : gmap loc (list Bid) :=
  <[l := h !!! l ++ [x]]> h.

(** [BidHistory.__add__(self, other)] on objects. *)
Definition history_add (h : gmap loc (list Bid)) (self : BidHistoryObj)
    (other : PyValue) : outcome (BidHistoryObj * gmap loc (list Bid)) :=
  match other with
  | VBid b =>
      let '(new_sequence, h1) := list_copy h (sequence_ref self) in
      let h2 := list_append h1 new_sequence b in
      Ok (mkBidHistoryObj new_sequence (obj_meta self), h2)
  | _ => Raise ValueError
  end.

(** The value a history object stands for in a given store. *)
Definition value_of (h : gmap loc (list Bid)) (o : BidHistoryObj) : BidHistory :=
  mkBidHistory (h !!! sequence_ref o) (obj_meta o).

End Store.

(** ** Conditions, bid expressions and branches *)

Record Condition : Type :=
  mkCondition { expr : Expr; priority : option Z; cond_meta : option Meta }.

Definition priority_eqb (a b : option Z) : bool :=
  match a, b with
  | None, None => true
  | Some x, Some y => Z.eqb x y
  | _, _ => false
  end.

(** The generated [__eq__] of [Condition]; it has no ordering. *)
Definition condition_eqb (a b : Condition) : bool :=
  expr_eqb (expr a) (expr b) && priority_eqb (priority a) (priority b)
  && meta_eqb (cond_meta a) (cond_meta b).

Record BidExpression : Type :=
  mkBidExpression { prefix : Bid; conditions : list Condition; bidexpr_meta : option Meta }.

Record Branch : Type :=
  mkBranch { branch_prefix : BidHistory;
             continuations : list BidExpression;
             branch_meta : option Meta }.

(** *** [list.sort(reverse=True)] on the tuples of [all_conditions_sorted] *)

(** The tuple [(num_val, bid_expr.prefix, uniquifier, cond)]. *)
Record SortKey : Type :=
  mkSortKey { num_val : Z; key_bid : Bid; uniquifier : Z; key_cond : Condition }.

(** Tuple [<]: the first position where the tuples differ (by [==])
    decides, by [<] of the two items there; two conditions that differ
    cannot be ordered and Python raises [TypeError]. *)
Definition key_lt (a b : SortKey) : outcome bool :=
  if negb (Z.eqb (num_val a) (num_val b)) then Ok (Z.ltb (num_val a) (num_val b))
  else if negb (bid_eqb (key_bid a) (key_bid b)) then Ok (bid_ltb (key_bid a) (key_bid b))
  else if negb (Z.eqb (uniquifier a) (uniquifier b)) then Ok (Z.ltb (uniquifier a) (uniquifier b))
  else if condition_eqb (key_cond a) (key_cond b) then Ok false
  else Raise TypeError.

Section Sort.
Context {A : Type} (lt : A -> A -> outcome bool).

(** Insert [x] behind every element that is not greater than it. *)
Fixpoint insert_sorted (x : A) (l : list A) : outcome (list A) :=
  match l with
  | [] => Ok [x]
  | y :: l' =>
      b ← lt x y;
      if b : bool then Ok (x :: y :: l')
      else r ← insert_sorted x l'; Ok (y :: r)
  end.

(** A stable ascending sort that only uses [<].  Whenever the comparisons
    return and order the items, every stable sort yields this list; a
    comparison that raises makes [list.sort] raise. *)
Definition sort_ascending (l : list A) : outcome (list A) :=
  fold_left (fun acc x => sorted ← acc; insert_sorted x sorted) l (Ok []).

(** [l.sort(reverse=True)]: CPython reverses the list, sorts it ascending
    and stably, and reverses it again, so that equal items keep their
    order. *)
Definition sort_reverse (l : list A) : outcome (list A) :=
  sorted ← sort_ascending (rev l); Ok (rev sorted).
End Sort.

(** [random.randrange(n)]: the [k]-th draw of the generator. *)
Definition randrange (rnd : nat -> Z) (k : nat) (n : Z) : Z := rnd k mod n.

(** [Branch.all_conditions_sorted(self)].  [k] counts the draws made from
    the random generator before the call; the result carries the count
    after it. *)
Definition all_conditions_sorted (rnd : nat -> Z) (k : nat) (self : Branch)
  : outcome (list (Condition * Bid) * nat) :=
  let '(to_sort, k') :=
    fold_left (fun st bid_expr =>
      fold_left (fun '(to_sort, k) cond =>
        let num_val :=
          match priority cond with
          | Some p => - p
          | None => -999999
          end in
        let uniquifier := randrange rnd k 999999999999 in
        (to_sort ++ [mkSortKey num_val (prefix bid_expr) uniquifier cond], S k))
        (conditions bid_expr) st)
      (continuations self) ([], k) in
  to_sort ← sort_reverse key_lt to_sort;
  Ok (map (fun t => (key_cond t, key_bid t)) to_sort, k').

(** ** The logical-suit resolver *)

Definition isinstance_LogicSuit (v : Expr) : bool :=
  match v with ELogicSuit _ _ _ _ => true | _ => false end.

(** [getattr(v, "child", None)]: only [ir.Atom] carries a [child]. *)
Definition getattr_child (v : Expr) : option Expr :=
  match v with
  | EAtom _ _ c => Some c
  | _ => None
  end.

(** Attribute reads [v.lhs], [v.rhs] and [v.type] on the value bound to
    [logic_suit] ([None] when there was no [child]).  [lhs] and [rhs] exist
    on a [LogicSuit] and on a [BinaryExpr], [type] on a [LogicSuit] only
    (the operator of [ir.BinaryExpr(meta, lhs, op, rhs)] is its [op]). *)
Definition attr_lhs (v : option Expr) : outcome Expr :=
  match v with
  | Some (ELogicSuit _ l _ _) => Ok l
  | Some (EBinary b) => Ok (be_lhs b)
  | _ => Raise AttributeError
  end.
Definition attr_rhs (v : option Expr) : outcome Expr :=
  match v with
  | Some (ELogicSuit _ _ r _) => Ok r
  | Some (EBinary b) => Ok (be_rhs b)
  | _ => Raise AttributeError
  end.
Definition attr_type (v : option Expr) : outcome string :=
  match v with
  | Some (ELogicSuit t _ _ _) => Ok t
  | _ => Raise AttributeError
  end.

(** [variant = deepcopy(expr); variant.lhs = v].  [deepcopy] also copies
    the meta objects of the nodes it copies; the copy is written with the
    meta it was copied from, so the meta of a variant and of its right
    operand are to be read up to the identity of the object. *)
Definition with_lhs (e : BinaryExpr) (v : Expr) : BinaryExpr :=
  mkBinaryExpr (be_meta e) v (be_op e) (be_rhs e).

(** [LogicSuit.resolve_logical_suits(expr)].  The first two statements
    store the resolved operands back into [expr]; [expr] below is the
    updated node. *)
Fixpoint resolve_logical_suits (expr : BinaryExpr) : outcome BinaryExpr :=
  match expr with
  | mkBinaryExpr meta lhs op rhs =>
      lhs ← match lhs with
            | EBinary b => r ← resolve_logical_suits b; Ok (EBinary r)
            | _ => Ok lhs
            end;
      rhs ← match rhs with
            | EBinary b => r ← resolve_logical_suits b; Ok (EBinary r)
            | _ => Ok rhs
            end;
      let expr := mkBinaryExpr meta lhs op rhs in
      if isinstance_LogicSuit rhs && isinstance_LogicSuit lhs
      then Raise NotImplementedError
      else
        let logic_suit := getattr_child lhs in
        match logic_suit with
        | Some (ELogicSuit type ls_lhs ls_rhs _) =>
            let variant1 := with_lhs expr ls_lhs in
            let variant2 := with_lhs expr ls_rhs in
            Ok (mkBinaryExpr meta (EBinary variant1) type (EBinary variant2))
        | _ =>
            match getattr_child rhs with
            | Some (ELogicSuit _ _ _ _) =>
                l1 ← attr_lhs logic_suit;
                let variant1 := with_lhs expr l1 in
                l2 ← attr_rhs logic_suit;
                let variant2 := with_lhs expr l2 in
                type ← attr_type logic_suit;
                Ok (mkBinaryExpr meta (EBinary variant1) type (EBinary variant2))
            | _ => Ok expr
            end
        end
  end.

(** ** [CompileTransformer]: expression and condition constructors

    Every callback receives the [meta] of the parse-tree node it is called
    for as its keyword argument. *)

Definition whole_hand_points (meta : option Meta) : Expr :=
  EAtom "SUIT_POINTS" meta (ESuit (mkSuit meta WholeHand)).

Definition point_range (range_gen : Expr -> BinaryExpr) (color : option Expr)
    (meta : option Meta) : outcome BinaryExpr :=
  match color with
  | Some _ => Raise NotImplementedError
  | None => Ok (range_gen (whole_hand_points meta))
  end.

Definition range (lower upper : Expr) (meta : option Meta) : Expr -> BinaryExpr :=
  fun val =>
    let upper_expr := mkBinaryExpr meta val "<=" upper in
    let lower_expr := mkBinaryExpr meta (whole_hand_points meta) ">=" lower in
    let result := mkBinaryExpr meta (EBinary lower_expr) "and" (EBinary upper_expr) in
    result.

Definition or_fewer (upper : Expr) (meta : option Meta) : Expr -> BinaryExpr :=
  fun val =>
    let upper_expr := mkBinaryExpr meta val "<=" upper in
    upper_expr.

Definition or_more (lower : Expr) (meta : option Meta) : Expr -> BinaryExpr :=
  fun val =>
    let lower_expr := mkBinaryExpr meta val ">=" lower in
    lower_expr.

Definition exact (lower : Expr) (meta : option Meta) : Expr -> BinaryExpr :=
  fun val =>
    let lower_expr := mkBinaryExpr meta val "==" lower in
    lower_expr.

Definition binary (lhs : Expr) (op : string) (rhs : Expr) (meta : option Meta)
  : outcome BinaryExpr :=
  resolve_logical_suits (mkBinaryExpr meta lhs op rhs).

Definition unary (_op : string) (operand : Expr) (meta : option Meta) : Expr :=
  EAtom "NEG" meta operand.

Definition cmp (lhs : Expr) (op : string) (rhs : Expr) (meta : option Meta)
  : outcome BinaryExpr :=
  resolve_logical_suits (mkBinaryExpr meta lhs op rhs).

Definition count_expr (range_gen : Expr -> BinaryExpr) (suit : Expr)
    (meta : option Meta) : outcome BinaryExpr :=
  resolve_logical_suits (range_gen (EAtom "SUIT_CARDS" meta suit)).

Definition and_suit (lhs rhs : Expr) (meta : option Meta) : Expr :=
  ELogicSuit "and" lhs rhs meta.

Definition or_suit (lhs rhs : Expr) (meta : option Meta) : Expr :=
  ELogicSuit "or" lhs rhs meta.

(** [reduce(lambda acc, x: ir.BinaryExpr(meta, acc, "and", x), tail, head)] *)
Definition reduce_and (meta : option Meta) (tail : list Expr) (head : Expr) : Expr :=
  fold_left (fun acc x => EBinary (mkBinaryExpr meta acc "and" x)) tail head.

(** [prioritized]: the positional arguments are the conditions followed by
    the priority; unpacking the conditions into a head and a tail raises
    [ValueError] when there is none. *)
Definition prioritized (conditions : list Expr) (priority : Z) (meta : option Meta)
  : outcome Condition :=
  match conditions with
  | [] => Raise ValueError
  | head :: tail => Ok (mkCondition (reduce_and meta tail head) (Some priority) meta)
  end.

Definition unprioritized (args : list Expr) (meta : option Meta) : outcome Condition :=
  match args with
  | [] => Raise ValueError
  | head :: tail => Ok (mkCondition (reduce_and meta tail head) None meta)
  end.

(** ** The tree assembler *)

(** [ir.BidStatement(meta, level, color)] and
    [ir.Branch(meta, test, bids, children, end)]. *)
Record BidStatement : Type :=
  mkBidStatement { stmt_meta : option Meta; stmt_level : Z; stmt_color : Suit }.

#[warnings="-register-all"] Inductive IrBranch : Type :=
| mkIrBranch (meta : option Meta) (test : Expr) (bids : list BidStatement)
             (children : list IrBranch) (end_marker : option Expr).

Definition ir_test (n : IrBranch) : Expr :=
  match n with mkIrBranch _ t _ _ _ => t end.
Definition ir_bids (n : IrBranch) : list BidStatement :=
  match n with mkIrBranch _ _ b _ _ => b end.
Definition ir_children (n : IrBranch) : list IrBranch :=
  match n with mkIrBranch _ _ _ c _ => c end.

(** [_find(iterable, predicate, default)]; [default = None] stands for the
    [placeholder] object (no default supplied). *)
Fixpoint _find {A D : Type} (iterable : list A) (predicate : A -> bool)
    (default : option D) : outcome (A + D) :=
  match iterable with
  | el :: iterable' =>
      if predicate el then Ok (inl el) else _find iterable' predicate default
  | [] =>
      match default with
      | Some d => Ok (inr d)
      | None => Raise ValueError
      end
  end.

#[global] Instance Denomination_countable : Countable Denomination.
Proof.
  refine (inj_countable' (fun d => Z.to_nat (suit_rank d))
            (fun n => match n with
                      | 0 => Clubs | 1 => Diamonds | 2 => Hearts
                      | 3 => Spades | 4 => NoTrump | _ => WholeHand
                      end%nat) _).
  intros []; reflexivity.
Defined.

(** A [Bid] used as a dictionary key: its hash and equality see the level
    and the denomination of the colour. *)
Definition bid_key (b : Bid) : Z * Denomination := (level b, suit_name (color b)).

(** [d[bid]] *)
Definition dict_get {V : Type} (d : gmap (Z * Denomination) V) (b : Bid) : outcome V :=
  match d !! bid_key b with
  | Some v => Ok v
  | None => Raise KeyError
  end.

Definition new_branch (condition : Condition) (bid : Bid) (children : list IrBranch)
  : IrBranch :=
  mkIrBranch (cond_meta condition) (expr condition)
             [mkBidStatement (bid_meta bid) (level bid) (color bid)]
             children None.

(** [build_branch(branch, rest)].  [fuel] bounds the depth of the recursion
    and [k] threads the state of the random generator. *)
Fixpoint build_branch (fuel : nat) (rnd : nat -> Z) (k : nat)
    (branch : Branch) (rest : list Branch) {struct fuel}
  : outcome (list IrBranch * nat) :=
  match fuel with
  | O => OutOfFuel
  | S fuel =>
      '(continuation_dict, k) ←
        fold_left (fun st continuation_bid =>
          '(continuation_dict, k) ← st;
          continuation_branch ←
            _find rest
              (fun b => BidHistory_eqb (branch_prefix b)
                          (history_append (branch_prefix branch) (prefix continuation_bid)))
              (Some VNone);
          match continuation_branch with
          | inl continuation_branch =>
              '(compiled, k) ← build_branch fuel rnd k continuation_branch rest;
              Ok (<[bid_key (prefix continuation_bid) := compiled]> continuation_dict, k)
          | inr _ =>
              Ok (<[bid_key (prefix continuation_bid) := []]> continuation_dict, k)
          end)
          (continuations branch) (Ok (∅, k));
      '(sorted, k) ← all_conditions_sorted rnd k branch;
      result ←
        fold_left (fun acc '(condition, bid) =>
          result ← acc;
          children ← dict_get continuation_dict bid;
          Ok (result ++ [new_branch condition bid children]))
          sorted (Ok []);
      Ok (result, k)
  end.

(** ** Definitions used to state the properties *)

(** The conjunction the specification describes: the last condition is
    "and"-ed onto the conjunction of the ones before it. *)
Fixpoint conjoin_left_to_right (meta : option Meta) (first : Expr)
    (rev_others : list Expr) : Expr :=
  match rev_others with
  | [] => first
  | last :: before =>
      EBinary (mkBinaryExpr meta (conjoin_left_to_right meta first before) "and" last)
  end.

(** The specified result of distributing a count over a logical suit: one
    cards-count comparison per suit, joined by the suit combinator. *)
Definition distributed_count (range_gen : Expr -> BinaryExpr) (type : string)
    (l r : Expr) (meta_expr meta_count : option Meta) : BinaryExpr :=
  mkBinaryExpr meta_expr
    (EBinary (range_gen (EAtom "SUIT_CARDS" meta_count l)))
    type
    (EBinary (range_gen (EAtom "SUIT_CARDS" meta_count r))).

Definition cond_num_val (cond : Condition) : Z :=
  match priority cond with
  | Some p => - p
  | None => -999999
  end.

(** The [(condition, bid)] pairs of a branch in declaration order. *)
Definition condition_bid_pairs (conts : list BidExpression) : list (Condition * Bid) :=
  flat_map (fun bid_expr => map (fun cond => (cond, prefix bid_expr)) (conditions bid_expr))
           conts.

(** The tuples [to_sort] holds when the two loops are done: the [i]-th pair
    gets the [i]-th draw made during the call. *)
Definition sort_keys (rnd : nat -> Z) (k : nat) (pairs : list (Condition * Bid))
  : list SortKey :=
  imap (fun i '(cond, bid) =>
          mkSortKey (cond_num_val cond) bid (randrange rnd (k + i) 999999999999) cond)
       pairs.

(** The order the sort keys are compared by, without the condition: the
    tuples [(num_val, level, colour rank, uniquifier)] read left to right. *)
Definition key_le (a b : SortKey) : Prop :=
  let la := level (key_bid a) in
  let lb := level (key_bid b) in
  let ra := suit_rank (suit_name (color (key_bid a))) in
  let rb := suit_rank (suit_name (color (key_bid b))) in
  num_val a < num_val b
  \/ (num_val a = num_val b
      /\ (la < lb
          \/ (la = lb
              /\ (ra < rb \/ (ra = rb /\ uniquifier a <= uniquifier b))))).

(** [x] may be emitted before [y]: its [num_val] is greater, or the same
    with a bid that is not smaller. *)
Definition emitted_before (x y : Condition * Bid) : Prop :=
  cond_num_val (fst x) > cond_num_val (fst y)
  \/ (cond_num_val (fst x) = cond_num_val (fst y) /\ bid_ltb (snd x) (snd y) = false).

(** The order of the specification: priority ascending with "no priority"
    behind every number, then the bid descending. *)
Definition priority_before (p q : option Z) : Prop :=
  match p, q with
  | Some x, Some y => x < y
  | Some _, None => True
  | None, _ => False
  end.

Definition specified_before (x y : Condition * Bid) : Prop :=
  priority_before (priority (fst x)) (priority (fst y))
  \/ (priority (fst x) = priority (fst y) /\ bid_ltb (snd x) (snd y) = false).

(** The search of [build_branch] for the rule group that continues
    [branch] after [continuation_bid]. *)
Definition continues (branch : Branch) (continuation_bid : BidExpression) (b : Branch)
  : bool :=
  BidHistory_eqb (branch_prefix b)
                 (history_append (branch_prefix branch) (prefix continuation_bid)).

Definition find_continuation (branch : Branch) (rest : list Branch)
    (continuation_bid : BidExpression) : outcome (Branch + PyValue) :=
  _find rest (continues branch continuation_bid) (Some VNone).

(** The first loop of [build_branch], with the recursive call as [recur]. *)
Definition continuation_loop
    (recur : nat -> Branch -> outcome (list IrBranch * nat))
    (branch : Branch) (rest : list Branch) (conts : list BidExpression)
    (init : outcome (gmap (Z * Denomination) (list IrBranch) * nat))
  : outcome (gmap (Z * Denomination) (list IrBranch) * nat) :=
  fold_left (fun st continuation_bid =>
    '(continuation_dict, k) ← st;
    continuation_branch ← find_continuation branch rest continuation_bid;
    match continuation_branch with
    | inl continuation_branch =>
        '(compiled, k) ← recur k continuation_branch;
        Ok (<[bid_key (prefix continuation_bid) := compiled]> continuation_dict, k)
    | inr _ =>
        Ok (<[bid_key (prefix continuation_bid) := []]> continuation_dict, k)
    end) conts init.

(** The second loop of [build_branch]. *)
Definition emit_loop (continuation_dict : gmap (Z * Denomination) (list IrBranch))
    (sorted : list (Condition * Bid)) (init : outcome (list IrBranch))
  : outcome (list IrBranch) :=
  fold_left (fun acc '(condition, bid) =>
    result ← acc;
    children ← dict_get continuation_dict bid;
    Ok (result ++ [new_branch condition bid children])) sorted init.

(** No two [(condition, bid)] pairs of the branch share both [num_val] and
    bid: the sort never gets to the random number. *)
Definition no_ties (self : Branch) : Prop :=
  List.NoDup (map (fun p => (cond_num_val (fst p), bid_key (snd p)))
                  (condition_bid_pairs (continuations self))).

(** The length of the longest prefix among the rule groups. *)
Definition max_prefix_length (rest : list Branch) : nat :=
  fold_right (fun b n => Nat.max (length (sequence (branch_prefix b))) n) 0%nat rest.

(** [points in [lo, hi]]: a bare point range, [point_range(range(lo, hi))]. *)
Definition points_in (lo hi : Z) : Expr :=
  EBinary (range (ENum lo) (ENum hi) None (whole_hand_points None)).

Definition bid_1H (meta : option Meta) : Bid := mkBid 1 (mkSuit None Hearts) meta.
Definition bid_1S : Bid := mkBid 1 (mkSuit None Spades) None.

Definition cond_A : Condition := mkCondition (points_in 12 14) (Some 1) None.
Definition cond_B : Condition := mkCondition (points_in 15 17) (Some 1) None.

(** Group A: prefix [[]], continuation [1H]; group B: prefix [[1H]],
    continuation [1S].  [m] and [m'] are the [meta] of the two prefixes,
    [mb] and [mb'] the [meta] of the two occurrences of the bid [1H]. *)
Definition group_A (m mb : option Meta) : Branch :=
  mkBranch (mkBidHistory [] m) [mkBidExpression (bid_1H mb) [cond_A] None] None.
Definition group_B (m' mb' : option Meta) : Branch :=
  mkBranch (mkBidHistory [bid_1H mb'] m') [mkBidExpression bid_1S [cond_B] None] None.

(** ** Histories and branches as the transformer builds them

    [CompileTransformer.opening] stores a list in [sequence];
    [CompileTransformer.continuation] stores the tuple of its positional
    arguments and [None] as [meta]. *)

Inductive Container : Type := ListContainer | TupleContainer.

Definition container_eqb (a b : Container) : bool :=
  match a, b with
  | ListContainer, ListContainer | TupleContainer, TupleContainer => true
  | _, _ => false
  end.

(** A [BidHistory] object: the container of [sequence], its bids and the
    [meta]. *)
Record HistoryObject : Type :=
  mkHistoryObject { container : Container; history : BidHistory }.

(** The generated [__eq__], [(sequence, meta) == (sequence, meta)]: a list
    and a tuple are never equal. *)
Definition HistoryObject_eqb (a b : HistoryObject) : bool :=
  container_eqb (container a) (container b) && BidHistory_eqb (history a) (history b).

(** [BidHistory.__add__(self, other)]: [self.sequence.copy()] raises
    [AttributeError] on a tuple. *)
Definition HistoryObject_add (self : HistoryObject) (other : PyValue)
  : outcome HistoryObject :=
  match other with
  | VBid b =>
      match container self with
      | ListContainer =>
          let new_sequence := sequence (history self) ++ [b] in
          Ok (mkHistoryObject ListContainer
                (mkBidHistory new_sequence (history_meta (history self))))
      | TupleContainer => Raise AttributeError
      end
  | _ => Raise ValueError
  end.

(** [opening(meta=meta)]: [BidHistory([], meta)] *)
Definition opening (meta : option Meta) : HistoryObject :=
  mkHistoryObject ListContainer (mkBidHistory [] meta).

(** [continuation] with its positional arguments [children] and [meta]:
    [BidHistory(children, meta=None)], where [children] is the tuple of the
    positional arguments. *)
Definition continuation (children : list Bid) (meta : option Meta) : HistoryObject :=
  mkHistoryObject TupleContainer (mkBidHistory children None).

(** [Branch(history, bid_expressions, meta)] for such a history. *)
Record BranchObject : Type :=
  mkBranchObject { object_prefix : HistoryObject;
                   object_continuations : list BidExpression;
                   object_meta : option Meta }.

(** The branch with the bids of the prefix as a list: all that
    [all_conditions_sorted] reads is [continuations]. *)
Definition branch_of (o : BranchObject) : Branch :=
  mkBranch (history (object_prefix o)) (object_continuations o) (object_meta o).

(** [_find(iterable, predicate, default)] for a predicate that may raise. *)
Fixpoint _find_raising {A D : Type} (iterable : list A) (predicate : A -> outcome bool)
    (default : option D) : outcome (A + D) :=
  match iterable with
  | el :: iterable' =>
      b ← predicate el;
      if b : bool then Ok (inl el) else _find_raising iterable' predicate default
  | [] =>
      match default with
      | Some d => Ok (inr d)
      | None => Raise ValueError
      end
  end.

(** [build_branch(branch, rest)] on these objects: the predicate of the
    search computes [branch.prefix + continuation_bid.prefix] each time it
    is called. *)
Fixpoint build_branch_objects (fuel : nat) (rnd : nat -> Z) (k : nat)
    (branch : BranchObject) (rest : list BranchObject) {struct fuel}
  : outcome (list IrBranch * nat) :=
  match fuel with
  | O => OutOfFuel
  | S fuel =>
      '(continuation_dict, k) ←
        fold_left (fun st continuation_bid =>
          '(continuation_dict, k) ← st;
          continuation_branch ←
            _find_raising rest
              (fun b =>
                 candidate ← HistoryObject_add (object_prefix branch)
                               (VBid (prefix continuation_bid));
                 Ok (HistoryObject_eqb (object_prefix b) candidate))
              (Some VNone);
          match continuation_branch with
          | inl continuation_branch =>
              '(compiled, k) ← build_branch_objects fuel rnd k continuation_branch rest;
              Ok (<[bid_key (prefix continuation_bid) := compiled]> continuation_dict, k)
          | inr _ =>
              Ok (<[bid_key (prefix continuation_bid) := []]> continuation_dict, k)
          end)
          (object_continuations branch) (Ok (∅, k));
      '(sorted, k) ← all_conditions_sorted rnd k (branch_of branch);
      result ←
        fold_left (fun acc '(condition, bid) =>
          result ← acc;
          children ← dict_get continuation_dict bid;
          Ok (result ++ [new_branch condition bid children]))
          sorted (Ok []);
      Ok (result, k)
  end.

(** The search of [build_branch_objects] for one continuation. *)
Definition find_object (branch : BranchObject) (rest : list BranchObject)
    (continuation_bid : BidExpression) : outcome (BranchObject + PyValue) :=
  _find_raising rest
    (fun b =>
       candidate ← HistoryObject_add (object_prefix branch)
                     (VBid (prefix continuation_bid));
       Ok (HistoryObject_eqb (object_prefix b) candidate))
    (Some VNone).

(** The first loop of [build_branch_objects], with the search as [find]
    and the recursive call as [recur]. *)
Definition children_loop {G : Type}
    (find : BidExpression -> outcome (G + PyValue))
    (recur : nat -> G -> outcome (list IrBranch * nat))
    (conts : list BidExpression)
    (init : outcome (gmap (Z * Denomination) (list IrBranch) * nat))
  : outcome (gmap (Z * Denomination) (list IrBranch) * nat) :=
  fold_left (fun st continuation_bid =>
    '(continuation_dict, k) ← st;
    continuation_branch ← find continuation_bid;
    match continuation_branch with
    | inl continuation_branch =>
        '(compiled, k) ← recur k continuation_branch;
        Ok (<[bid_key (prefix continuation_bid) := compiled]> continuation_dict, k)
    | inr _ =>
        Ok (<[bid_key (prefix continuation_bid) := []]> continuation_dict, k)
    end) conts init.

(** Does the prefix of the rule group hold its bids in a list? *)
Definition is_list_prefixed (o : BranchObject) : bool :=
  container_eqb (container (object_prefix o)) ListContainer.

(** The rule groups whose prefix holds a list, as branches. *)
Definition list_groups (rest : list BranchObject) : list Branch :=
  map branch_of (List.filter is_list_prefixed rest).

(** The two groups as the transformer builds them: the prefix of A by
    [opening], the prefix of B by [continuation]. *)
Definition object_A (m mb : option Meta) : BranchObject :=
  mkBranchObject (opening m) [mkBidExpression (bid_1H mb) [cond_A] None] None.
Definition object_B (m' mb' : option Meta) : BranchObject :=
  mkBranchObject (continuation [bid_1H mb'] m') [mkBidExpression bid_1S [cond_B] None] None.

(** Group B with the prefix [BidHistory([1H], m')], a list. *)
Definition object_B_list (m' mb' : option Meta) : BranchObject :=
  mkBranchObject (mkHistoryObject ListContainer (mkBidHistory [bid_1H mb'] m'))
                 [mkBidExpression bid_1S [cond_B] None] None.

(** An expression without its meta objects. *)
Fixpoint forget_meta (e : Expr) : Expr :=
  match e with
  | ENum n => ENum n
  | EStr s => EStr s
  | ESuit s => ESuit (mkSuit None (suit_name s))
  | ELogicSuit t l r _ => ELogicSuit t (forget_meta l) (forget_meta r) None
  | EAtom k _ c => EAtom k None (forget_meta c)
  | EBinary b => EBinary (binary_forget_meta b)
  end
with binary_forget_meta (b : BinaryExpr) : BinaryExpr :=
  match b with
  | mkBinaryExpr _ l o r => mkBinaryExpr None (forget_meta l) o (forget_meta r)
  end.

(** [result] is a returned expression that is [expected] up to the identity
    of the meta objects. *)
Definition same_up_to_meta (result : outcome BinaryExpr) (expected : BinaryExpr) : Prop :=
  exists e, result = Ok e /\ binary_forget_meta e = binary_forget_meta expected.

(** * Properties *)

(** ** Equality and order of bids *)

Lemma meta_eqb_eq (a b : option Meta) : meta_eqb a b = true <-> a = b.
Proof.
  destruct a as [x|], b as [y|]; simpl; try (split; congruence).
  rewrite Nat.eqb_eq. split; congruence.
Qed.

Lemma meta_eqb_refl (a : option Meta) : meta_eqb a a = true.
Proof. by apply meta_eqb_eq. Qed.

Lemma meta_eqb_neq (a b : option Meta) : a <> b -> meta_eqb a b = false.
Proof.
  intros Hne. destruct (meta_eqb a b) eqn:E; [|done].
  by apply meta_eqb_eq in E.
Qed.

Lemma suit_rank_inj (a b : Denomination) : suit_rank a = suit_rank b -> a = b.
Proof. by destruct a, b. Qed.

Lemma bid_eqb_key (a b : Bid) : bid_eqb a b = true <-> bid_key a = bid_key b.
Proof.
  unfold bid_eqb, bid_key, suit_eqb.
  rewrite andb_true_iff, !Z.eqb_eq. split.
  - intros [Hl Hc]. apply suit_rank_inj in Hc. congruence.
  - intros [= Hl Hc]. by rewrite Hl, Hc.
Qed.

Lemma bid_eqb_refl (a : Bid) : bid_eqb a a = true.
Proof. by apply bid_eqb_key. Qed.

(** The comparison of a bid against [b] only looks at the key of [b]. *)
Lemma bid_eqb_key_r (a b b' : Bid) :
  bid_key b = bid_key b' -> bid_eqb a b = bid_eqb a b'.
Proof.
  unfold bid_eqb, bid_key, suit_eqb. intros [= Hl Hc]. by rewrite Hl, Hc.
Qed.

Lemma bids_eqb_refl (l : list Bid) : bids_eqb l l = true.
Proof. induction l as [|x l IH]; simpl; [done|]. by rewrite bid_eqb_refl. Qed.

Lemma bids_eqb_length (a b : list Bid) :
  bids_eqb a b = true -> length a = length b.
Proof.
  revert b. induction a as [|x a IH]; intros [|y b]; simpl; try done.
  rewrite andb_true_iff. intros [_ H]. f_equal. by apply IH.
Qed.

Lemma bids_eqb_snoc_key (a l : list Bid) (b b' : Bid) :
  bid_key b = bid_key b' -> bids_eqb a (l ++ [b]) = bids_eqb a (l ++ [b']).
Proof.
  intros Hk. revert a. induction l as [|y l IH]; intros [|x a]; simpl; try done.
  - by rewrite (bid_eqb_key_r x b b' Hk).
  - by rewrite IH.
Qed.

(** ** Prefixes *)

Lemma _is_prefix_app (p l : list Bid) : _is_prefix p (p ++ l) = true.
Proof. induction p as [|x p IH]; simpl; [done|]. by rewrite bid_eqb_refl. Qed.

Lemma _is_prefix_app_longer (p l : list Bid) : _is_prefix (p ++ l) p = true.
Proof.
  induction p as [|x p IH]; simpl; [by destruct l|]. by rewrite bid_eqb_refl.
Qed.

Lemma BidHistory_add_Bid (self : BidHistory) (b : Bid) :
  BidHistory_add self (VBid b) = Ok (history_append self b).
Proof. reflexivity. Qed.

(** Every history is a prefix of its extension by a bid. *)
Lemma is_prefix_of_add (A : BidHistory) (b : Bid) :
  is_prefix_of A (history_append A b) = true.
Proof. apply _is_prefix_app. Qed.

(** C5 (code defect): [A in A + b] holds for every history [A] and bid [b],
    but a longer history is still reported as a prefix of a shorter one
    whenever they agree on the shorter one's length: [zip] cuts the
    comparison at the shorter list and [_is_prefix] then returns [True].
    For every [B] and [b], the longer [B + b] is "a prefix" of [B]. *)
Theorem is_prefix_of_longer (B : BidHistory) (b : Bid) :
  is_prefix_of B (history_append B b) = true
  /\ (length (sequence (history_append B b)) > length (sequence B))%nat
  /\ is_prefix_of (history_append B b) B = true.
Proof.
  split; [apply is_prefix_of_add|]. split.
  - simpl. rewrite length_app. simpl. lia.
  - apply _is_prefix_app_longer.
Qed.

(** The smallest instance: [[1H]] is reported as a prefix of the empty
    history. *)
Example longer_history_is_prefix_example :
  is_prefix_of (mkBidHistory [mkBid 1 (mkSuit None Hearts) None] None)
               (mkBidHistory [] None) = true.
Proof. reflexivity. Qed.

(** ** Expression constructors *)

(** C6: the range constructor compares the lower bound with the whole-hand
    point total and only the upper bound with the subject it is given. *)
Theorem range_asymmetric (lower upper subject : Expr) (meta : option Meta) :
  range lower upper meta subject =
    mkBinaryExpr meta
      (EBinary (mkBinaryExpr meta
                  (EAtom "SUIT_POINTS" meta (ESuit (mkSuit meta WholeHand)))
                  ">=" lower))
      "and"
      (EBinary (mkBinaryExpr meta subject "<=" upper))
  /\ (forall subject', be_lhs (range lower upper meta subject')
                       = be_lhs (range lower upper meta subject))
  /\ be_rhs (range lower upper meta subject)
     = EBinary (or_fewer upper meta subject).
Proof. by repeat split. Qed.

Lemma reduce_and_conjoin (meta : option Meta) (tail : list Expr) (head : Expr) :
  reduce_and meta tail head = conjoin_left_to_right meta head (rev tail).
Proof.
  unfold reduce_and. induction tail as [|x tail IH] using rev_ind; [done|].
  rewrite fold_left_app, rev_app_distr. simpl. by rewrite IH.
Qed.

(** C8: [prioritized] and [unprioritized] return one condition holding the
    left-to-right conjunction of the given expressions, a single expression
    unchanged, with the given priority and with no priority. *)
Theorem prioritized_conjoins (head : Expr) (tail : list Expr) (p : Z)
    (meta : option Meta) :
  prioritized (head :: tail) p meta
    = Ok (mkCondition (conjoin_left_to_right meta head (rev tail)) (Some p) meta)
  /\ unprioritized (head :: tail) meta
    = Ok (mkCondition (conjoin_left_to_right meta head (rev tail)) None meta)
  /\ prioritized [head] p meta = Ok (mkCondition head (Some p) meta)
  /\ unprioritized [head] meta = Ok (mkCondition head None meta)
  /\ (forall x, reduce_and meta (tail ++ [x]) head
                = EBinary (mkBinaryExpr meta (reduce_and meta tail head) "and" x)).
Proof.
  unfold prioritized, unprioritized.
  split; [by rewrite reduce_and_conjoin|].
  split; [by rewrite reduce_and_conjoin|].
  split; [done|]. split; [done|].
  intros x. unfold reduce_and. by rewrite fold_left_app.
Qed.

(** ** The logical-suit resolver *)

(** The resolver is a structural recursion: it returns or raises. *)
Lemma resolve_logical_suits_total (b : BinaryExpr) :
  resolve_logical_suits b <> OutOfFuel.
Proof.
  induction b using BinaryExpr_mut_ind
    with (P := fun e => forall b', e = EBinary b' -> resolve_logical_suits b' <> OutOfFuel);
    try discriminate.
  - intros b' [= <-]. assumption.
  - simpl.
    assert (Hl : forall (k : Expr -> outcome BinaryExpr),
               (forall v, k v <> OutOfFuel) ->
               (match lhs with
                | EBinary b0 => r ← resolve_logical_suits b0; Ok (EBinary r)
                | _ => Ok lhs
                end ≫= k) <> OutOfFuel).
    { intros k Hk. destruct lhs; simpl; try apply Hk.
      specialize (IHb _ eq_refl).
      destruct (resolve_logical_suits b); simpl; [apply Hk|done|done]. }
    apply Hl. intros lhs'.
    assert (Hr : forall (k : Expr -> outcome BinaryExpr),
               (forall v, k v <> OutOfFuel) ->
               (match rhs with
                | EBinary b0 => r ← resolve_logical_suits b0; Ok (EBinary r)
                | _ => Ok rhs
                end ≫= k) <> OutOfFuel).
    { intros k Hk. destruct rhs; simpl; try apply Hk.
      specialize (IHb0 _ eq_refl).
      destruct (resolve_logical_suits b); simpl; [apply Hk|done|done]. }
    apply Hr. intros rhs'.
    destruct (isinstance_LogicSuit rhs' && isinstance_LogicSuit lhs'); [done|].
    destruct (getattr_child lhs') as [[]|]; try done;
      destruct (getattr_child rhs') as [[]|]; try done;
      simpl; done.
Qed.

(** What the resolver builds when the left operand wraps a logical suit and
    the right operand is a literal: the whole left operand, not its child,
    is replaced by each suit. *)
Lemma resolve_lhs_logic_suit (meta : option Meta) (kind : string) (m : option Meta)
    (type : string) (l r : Expr) (ms : option Meta) (op : string) (n : Z) :
  resolve_logical_suits
    (mkBinaryExpr meta (EAtom kind m (ELogicSuit type l r ms)) op (ENum n))
  = Ok (mkBinaryExpr meta (EBinary (mkBinaryExpr meta l op (ENum n))) type
                          (EBinary (mkBinaryExpr meta r op (ENum n)))).
Proof. reflexivity. Qed.

(** C2 (code defect): for the count condition "3 or more" over "H or S" the
    code returns [(H >= 3) or (S >= 3)] whose operands are the bare suits:
    the [SUIT_CARDS] atoms of the specified expansion are lost, only the "or"
    combinator and the one-comparison-per-suit shape are as specified. *)
Theorem count_expr_or_suit_drops_cards (mh ms m_suit m_range m_count : option Meta) :
  let H := ESuit (mkSuit mh Hearts) in
  let S := ESuit (mkSuit ms Spades) in
  let compiled :=
    mkBinaryExpr m_range
      (EBinary (mkBinaryExpr m_range H ">=" (ENum 3)))
      "or"
      (EBinary (mkBinaryExpr m_range S ">=" (ENum 3))) in
  let specified :=
    distributed_count (or_more (ENum 3) m_range) "or" H S m_range m_count in
  count_expr (or_more (ENum 3) m_range) (or_suit H S m_suit) m_count = Ok compiled
  /\ be_op compiled = be_op specified
  /\ binary_eqb compiled specified = false
  /\ compiled <> specified.
Proof.
  intros H S compiled specified. split; [reflexivity|]. split; [reflexivity|].
  split.
  - unfold compiled, specified, distributed_count, or_more. simpl.
    by rewrite !andb_false_r.
  - discriminate.
Qed.

(** C3 (code defect): when the logical suit sits in the right-hand operand
    and the left-hand operand does not wrap one, the resolver reads the
    attributes of the value found on the left ([None], a literal, a suit,
    ...) and raises instead of returning a tree. *)
Theorem resolve_rhs_logic_suit_raises (meta : option Meta) (lhs : Expr) (op : string)
    (kind : string) (m : option Meta) (type : string) (l r : Expr) (ms : option Meta) :
  (forall t a b x, getattr_child lhs <> Some (ELogicSuit t a b x)) ->
  (exists e, resolve_logical_suits
               (mkBinaryExpr meta lhs op (EAtom kind m (ELogicSuit type l r ms)))
             = Raise e)
  /\ ((forall b, lhs <> EBinary b) ->
      resolve_logical_suits
        (mkBinaryExpr meta lhs op (EAtom kind m (ELogicSuit type l r ms)))
      = Raise AttributeError).
Proof.
  intros Hlhs. split.
  - destruct lhs as [n|s|s|t a b x|k m' c|b]; simpl; eauto.
    + destruct c as [n|s|s|t a b x|k' m'' c'|b]; simpl; eauto.
      by destruct (Hlhs t a b x).
    + pose proof (resolve_logical_suits_total b) as Hb.
      destruct (resolve_logical_suits b); simpl; eauto. done.
  - intros Hnb.
    destruct lhs as [n|s|s|t a b x|k m' c|b]; simpl; try done.
    + destruct c as [n|s|s|t a b x|k' m'' c'|b]; simpl; try done.
      by destruct (Hlhs t a b x).
    + by destruct (Hnb b).
Qed.

(** The comparison [3 <= SUIT_CARDS(H or S)] makes the resolver raise. *)
Lemma resolve_rhs_logic_suit_example :
  (forall t a b x, getattr_child (ENum 3) <> Some (ELogicSuit t a b x))
  /\ cmp (ENum 3) "<="
         (EAtom "SUIT_CARDS" None
            (or_suit (ESuit (mkSuit None Hearts)) (ESuit (mkSuit None Spades)) None))
         None
     = Raise AttributeError.
Proof.
  assert (H : forall t a b x, getattr_child (ENum 3) <> Some (ELogicSuit t a b x))
    by (intros; discriminate).
  split; [exact H|].
  apply (resolve_rhs_logic_suit_raises None (ENum 3) "<=" "SUIT_CARDS" None "or"
           (ESuit (mkSuit None Hearts)) (ESuit (mkSuit None Spades)) None H).
  intros b; discriminate.
Defined.

(** Trees that are returned may still hold a logical suit: one given
    directly as an operand, one nested in the suit that is distributed, and
    one wrapped by the right operand when the left operand wraps one too. *)
Lemma resolve_returns_logic_suit :
  let H := ESuit (mkSuit None Hearts) in
  let S := ESuit (mkSuit None Spades) in
  let C := ESuit (mkSuit None Clubs) in
  (exists r, resolve_logical_suits (mkBinaryExpr None (or_suit H S None) "==" (ENum 3)) = Ok r
             /\ binary_has_logic_suit r = true)
  /\ (exists r, count_expr (or_more (ENum 3) None) (or_suit (and_suit H S None) C None) None = Ok r
                /\ binary_has_logic_suit r = true)
  /\ (exists r, resolve_logical_suits
                  (mkBinaryExpr None (EAtom "SUIT_CARDS" None (or_suit H S None)) "=="
                                     (EAtom "SUIT_CARDS" None (or_suit C S None))) = Ok r
                /\ binary_has_logic_suit r = true).
Proof. repeat split; eexists; (split; [reflexivity|reflexivity]). Qed.

(** ** Concatenation of a history and a bid *)

(** On values, [__add__] raises exactly for an operand that is not a bid. *)
Lemma BidHistory_add_raises (self : BidHistory) (other : PyValue) :
  isinstance_Bid other = false -> BidHistory_add self other = Raise ValueError.
Proof. by destruct other. Qed.

(** On a history whose [sequence] is a list of the store, [h + x] raises
    ([ValueError]) exactly when [x] is not a [Bid]; for a bid it returns a
    history over a new list object holding the bids of [h] followed by [x],
    with the [meta] of [h], and every list that existed before the call, the
    one of [h] among them, is left as it was. *)
Lemma BidHistory_add_spec (h : gmap Store.loc (list Bid))
    (self : Store.BidHistoryObj) (other : PyValue) :
  Store.sequence_ref self ∈ dom h ->
  ((exists e, Store.history_add h self other = Raise e)
     <-> isinstance_Bid other = false)
  /\ (isinstance_Bid other = false ->
      Store.history_add h self other = Raise ValueError)
  /\ (forall b, other = VBid b ->
      exists new h',
        Store.history_add h self other = Ok (new, h')
        /\ (Store.sequence_ref new ∉ dom h)
        /\ h' !!! Store.sequence_ref new = h !!! Store.sequence_ref self ++ [b]
        /\ length (h' !!! Store.sequence_ref new)
           = S (length (h !!! Store.sequence_ref self))
        /\ Store.obj_meta new = Store.obj_meta self
        /\ (forall l, l ∈ dom h -> h' !! l = h !! l)
        /\ Store.value_of h' self = Store.value_of h self
        /\ BidHistory_add (Store.value_of h self) other
           = Ok (Store.value_of h' new)).
Proof.
  intros Hself. split; [|split].
  - split.
    + intros [e He]. by destruct other.
    + intros Hb. exists ValueError. by destruct other.
  - intros Hb. by destruct other.
  - intros b ->. unfold Store.history_add, Store.list_copy, Store.list_append.
    set (l' := fresh (dom h)).
    assert (Hfresh : l' ∉ dom h) by apply is_fresh.
    assert (Hne : l' <> Store.sequence_ref self) by (intros E; by rewrite E in Hfresh).
    eexists _, _. split; [reflexivity|]. simpl.
    assert (Hnew : (<[l':=(<[l':=h !!! Store.sequence_ref self]> h) !!! l' ++ [b]]>
                      (<[l':=h !!! Store.sequence_ref self]> h) : gmap Store.loc (list Bid))
                   !!! l' = h !!! Store.sequence_ref self ++ [b]).
    { rewrite lookup_total_insert_eq. by rewrite lookup_total_insert_eq. }
    assert (Hold : forall l, l ∈ dom h ->
              (<[l':=(<[l':=h !!! Store.sequence_ref self]> h) !!! l' ++ [b]]>
                 (<[l':=h !!! Store.sequence_ref self]> h) : gmap Store.loc (list Bid))
              !! l = h !! l).
    { intros l Hl. assert (l' <> l) by (intros E; by rewrite E in Hfresh).
      by rewrite !lookup_insert_ne. }
    repeat split.
    + exact Hfresh.
    + exact Hnew.
    + rewrite Hnew, length_app. simpl. lia.
    + exact Hold.
    + unfold Store.value_of. f_equal.
      unfold lookup_total, map_lookup_total. by rewrite Hold.
    + unfold Store.value_of. simpl. by rewrite Hnew.
Qed.

(** [BidHistory([1H]) + 1S] in a store holding the list of the left
    operand at location 0. *)
Lemma BidHistory_add_spec_example :
  let b1H := mkBid 1 (mkSuit None Hearts) None in
  let b1S := mkBid 1 (mkSuit None Spades) None in
  let h : gmap Store.loc (list Bid) := {[ 0%nat := [b1H] ]} in
  let self := Store.mkBidHistoryObj 0%nat None in
  exists new h',
    Store.history_add h self (VBid b1S) = Ok (new, h')
    /\ h' !!! Store.sequence_ref new = [b1H; b1S]
    /\ h' !! 0%nat = Some [b1H].
Proof.
  intros b1H b1S h self.
  assert (Hdom : Store.sequence_ref self ∈ dom h).
  { apply elem_of_dom. exists [b1H]. reflexivity. }
  destruct (BidHistory_add_spec h self (VBid b1S) Hdom) as (_ & _ & Hadd).
  destruct (Hadd b1S eq_refl) as (new & h' & Heq & _ & Hnew & _ & _ & Hold & _).
  exists new, h'. split; [exact Heq|]. split.
  - etrans; [exact Hnew|reflexivity].
  - etrans; [exact (Hold 0%nat Hdom)|reflexivity].
Defined.

(** ** The sort used by the condition sequencer *)

Section SortFacts.
Context {A : Type} (lt : A -> A -> outcome bool).

Lemma insert_sorted_perm (x : A) (l r : list A) :
  insert_sorted lt x l = Ok r -> Permutation (x :: l) r.
Proof.
  revert r. induction l as [|y l IH]; simpl; intros r.
  - intros [= <-]. reflexivity.
  - destruct (lt x y) as [[]| |]; simpl; try discriminate.
    + intros [= <-]. reflexivity.
    + destruct (insert_sorted lt x l) as [r'| |]; simpl; try discriminate.
      intros [= <-]. rewrite perm_swap. constructor. by apply IH.
Qed.

Lemma sort_fold_perm (l acc r : list A) :
  fold_left (fun acc x => sorted ← acc; insert_sorted lt x sorted) l (Ok acc) = Ok r ->
  Permutation (l ++ acc) r.
Proof.
  revert acc. induction l as [|x l IH]; simpl; intros acc.
  - intros [= <-]. reflexivity.
  - destruct (insert_sorted lt x acc) as [acc'| |] eqn:E; simpl.
    + intros H. apply IH in H. rewrite <- H.
      apply insert_sorted_perm in E. rewrite <- E.
      by rewrite Permutation_middle.
    + intros H. exfalso. clear -H. induction l; simpl in H; [discriminate|auto].
    + intros H. exfalso. clear -H. induction l; simpl in H; [discriminate|auto].
Qed.

Lemma sort_ascending_perm (l r : list A) :
  sort_ascending lt l = Ok r -> Permutation l r.
Proof.
  intros H. apply sort_fold_perm in H. by rewrite app_nil_r in H.
Qed.

(** The sorted list holds the items that were given, each as often. *)
Lemma sort_reverse_perm (l r : list A) :
  sort_reverse lt l = Ok r -> Permutation l r.
Proof.
  unfold sort_reverse.
  destruct (sort_ascending lt (rev l)) as [s| |] eqn:E; simpl; try discriminate.
  intros [= <-]. apply sort_ascending_perm in E.
  rewrite <- Permutation_rev. rewrite <- E. apply Permutation_rev.
Qed.

(** The sort raises nothing of its own: it returns whenever the
    comparisons of the given items with each other do. *)
Lemma insert_sorted_returns (x : A) (l : list A) :
  (forall y, In y l -> exists b, lt x y = Ok b) ->
  exists r, insert_sorted lt x l = Ok r.
Proof.
  induction l as [|y l IH]; simpl; intros H; [eauto|].
  destruct (H y (or_introl eq_refl)) as [b ->]. simpl.
  destruct b; [eauto|].
  destruct IH as [r ->]; [auto|]. simpl. eauto.
Qed.

Lemma sort_fold_returns (l acc : list A) :
  (forall x y, In x (l ++ acc) -> In y (l ++ acc) -> exists b, lt x y = Ok b) ->
  exists r,
    fold_left (fun acc x => sorted ← acc; insert_sorted lt x sorted) l (Ok acc) = Ok r.
Proof.
  revert acc. induction l as [|x l IH]; simpl; intros acc H; [eauto|].
  destruct (insert_sorted_returns x acc) as [acc' E].
  { intros y Hy. apply H; [by left|]. right. apply in_or_app. by right. }
  rewrite E. simpl. apply IH. intros a b Ha Hb.
  apply insert_sorted_perm in E.
  apply H.
  - apply in_app_or in Ha as [Ha|Ha]; [right; apply in_or_app; by left|].
    apply (Permutation_in _ (Permutation_sym E)) in Ha as [<-|Ha]; [by left|].
    right. apply in_or_app. by right.
  - apply in_app_or in Hb as [Hb|Hb]; [right; apply in_or_app; by left|].
    apply (Permutation_in _ (Permutation_sym E)) in Hb as [<-|Hb]; [by left|].
    right. apply in_or_app. by right.
Qed.

Lemma sort_reverse_returns (l : list A) :
  (forall x y, In x l -> In y l -> exists b, lt x y = Ok b) ->
  exists r, sort_reverse lt l = Ok r.
Proof.
  intros H. unfold sort_reverse.
  destruct (sort_fold_returns (rev l) []) as [s E].
  { intros x y Hx Hy. rewrite app_nil_r in Hx, Hy.
    apply H; by apply in_rev. }
  unfold sort_ascending. rewrite E. simpl. eauto.
Qed.

(** Sortedness, for a comparison that decides a transitive order [le]. *)
Context (le : A -> A -> Prop).
Context (le_trans : forall x y z, le x y -> le y z -> le x z).
Context (lt_true : forall x y, lt x y = Ok true -> le x y).
Context (lt_false : forall x y, lt x y = Ok false -> le y x).

Lemma insert_sorted_sorted (x : A) (l r : list A) :
  StronglySorted le l -> insert_sorted lt x l = Ok r -> StronglySorted le r.
Proof.
  revert r. induction l as [|y l IH]; simpl; intros r Hs.
  - intros [= <-]. repeat constructor.
  - destruct (lt x y) as [[]| |] eqn:Exy; simpl; try discriminate.
    + intros [= <-]. constructor; [done|].
      apply StronglySorted_inv in Hs as [_ Hy].
      constructor; [by apply lt_true|].
      eapply Forall_impl; [|exact Hy]. intros z Hz.
      eapply le_trans; [by apply lt_true|done].
    + destruct (insert_sorted lt x l) as [r'| |] eqn:E; simpl; try discriminate.
      intros [= <-]. apply StronglySorted_inv in Hs as [Hl Hy].
      constructor; [by apply IH|].
      apply insert_sorted_perm in E.
      eapply Permutation_Forall; [exact E|].
      constructor; [by apply lt_false|done].
Qed.

Lemma sort_fold_sorted (l acc r : list A) :
  StronglySorted le acc ->
  fold_left (fun acc x => sorted ← acc; insert_sorted lt x sorted) l (Ok acc) = Ok r ->
  StronglySorted le r.
Proof.
  revert acc. induction l as [|x l IH]; simpl; intros acc Hs.
  - by intros [= <-].
  - destruct (insert_sorted lt x acc) as [acc'| |] eqn:E; simpl.
    + apply IH. by eapply insert_sorted_sorted.
    + intros H. exfalso. clear -H. induction l; simpl in H; [discriminate|auto].
    + intros H. exfalso. clear -H. induction l; simpl in H; [discriminate|auto].
Qed.

Lemma StronglySorted_snoc (R : A -> A -> Prop) (l : list A) (x : A) :
  StronglySorted R l -> Forall (fun y => R y x) l -> StronglySorted R (l ++ [x]).
Proof.
  induction 1 as [|y l Hs IH Hy]; simpl; intros Hx.
  - repeat constructor.
  - apply Forall_cons_iff in Hx as [Hyx Hx].
    constructor; [by apply IH|].
    apply Forall_app. split; [done|]. by repeat constructor.
Qed.

Lemma StronglySorted_rev (l : list A) :
  StronglySorted le l -> StronglySorted (fun x y => le y x) (rev l).
Proof.
  induction 1 as [|x l Hs IH Hx]; simpl; [constructor|].
  apply StronglySorted_snoc; [done|].
  eapply Permutation_Forall; [apply Permutation_rev|done].
Qed.

(** After [sort(reverse=True)] no item is followed by a greater one. *)
Lemma sort_reverse_sorted (l r : list A) :
  sort_reverse lt l = Ok r -> StronglySorted (fun x y => le y x) r.
Proof.
  unfold sort_reverse, sort_ascending.
  destruct (fold_left _ (rev l) (Ok [])) as [s| |] eqn:E; simpl; try discriminate.
  intros [= <-]. apply StronglySorted_rev.
  eapply sort_fold_sorted; [|exact E]. constructor.
Qed.
End SortFacts.

(** ** The condition sequencer *)

Lemma sort_keys_app (rnd : nat -> Z) (k : nat) (p q : list (Condition * Bid)) :
  sort_keys rnd k (p ++ q) = sort_keys rnd k p ++ sort_keys rnd (k + length p) q.
Proof.
  unfold sort_keys. rewrite imap_app. f_equal.
  apply imap_ext. intros i [c b] _. simpl. by rewrite Nat.add_assoc.
Qed.

Lemma sort_keys_pairs (rnd : nat -> Z) (k : nat) (pairs : list (Condition * Bid)) :
  map (fun t => (key_cond t, key_bid t)) (sort_keys rnd k pairs) = pairs.
Proof.
  revert k. induction pairs as [|[c b] pairs IH]; intros k; [done|].
  change ((c, b) :: pairs) with ([(c, b)] ++ pairs).
  rewrite sort_keys_app, map_app, IH. reflexivity.
Qed.

Lemma to_sort_inner (rnd : nat -> Z) (bid : Bid) (conds : list Condition)
    (to_sort : list SortKey) (k : nat) :
  fold_left (fun '(to_sort, k) cond =>
      let num_val :=
        match priority cond with
        | Some p => - p
        | None => -999999
        end in
      let uniquifier := randrange rnd k 999999999999 in
      (to_sort ++ [mkSortKey num_val bid uniquifier cond], S k))
    conds (to_sort, k)
  = (to_sort ++ sort_keys rnd k (map (fun cond => (cond, bid)) conds),
     (k + length conds)%nat).
Proof.
  revert to_sort k. induction conds as [|c conds IH]; intros to_sort k; simpl.
  - by rewrite app_nil_r, Nat.add_0_r.
  - rewrite IH.
    change ((c, bid) :: map (fun cond => (cond, bid)) conds)
      with ([(c, bid)] ++ map (fun cond => (cond, bid)) conds).
    rewrite sort_keys_app, <- app_assoc. simpl.
    f_equal; [|lia]. do 2 f_equal.
    + unfold sort_keys. simpl. by rewrite Nat.add_0_r.
    + f_equal. lia.
Qed.

Lemma to_sort_outer (rnd : nat -> Z) (conts : list BidExpression)
    (to_sort : list SortKey) (k : nat) :
  fold_left (fun st bid_expr =>
      fold_left (fun '(to_sort, k) cond =>
        let num_val :=
          match priority cond with
          | Some p => - p
          | None => -999999
          end in
        let uniquifier := randrange rnd k 999999999999 in
        (to_sort ++ [mkSortKey num_val (prefix bid_expr) uniquifier cond], S k))
        (conditions bid_expr) st)
    conts (to_sort, k)
  = (to_sort ++ sort_keys rnd k (condition_bid_pairs conts),
     (k + length (condition_bid_pairs conts))%nat).
Proof.
  revert to_sort k. induction conts as [|be conts IH]; intros to_sort k; simpl.
  - by rewrite app_nil_r, Nat.add_0_r.
  - rewrite to_sort_inner, IH, sort_keys_app, <- app_assoc, length_app, length_map.
    by rewrite Nat.add_assoc.
Qed.

(** [all_conditions_sorted] sorts the tuples of the pairs and drops the
    sort keys again. *)
Lemma all_conditions_sorted_eq (rnd : nat -> Z) (k : nat) (self : Branch) :
  all_conditions_sorted rnd k self =
    (to_sort ← sort_reverse key_lt
                 (sort_keys rnd k (condition_bid_pairs (continuations self)));
     Ok (map (fun t => (key_cond t, key_bid t)) to_sort,
         (k + length (condition_bid_pairs (continuations self)))%nat)).
Proof. unfold all_conditions_sorted. by rewrite to_sort_outer. Qed.

(** The sequencer emits every pair of the branch, each once. *)
Lemma all_conditions_sorted_perm (rnd : nat -> Z) (k k' : nat) (self : Branch)
    (out : list (Condition * Bid)) :
  all_conditions_sorted rnd k self = Ok (out, k') ->
  Permutation (condition_bid_pairs (continuations self)) out
  /\ k' = (k + length (condition_bid_pairs (continuations self)))%nat.
Proof.
  rewrite all_conditions_sorted_eq.
  destruct (sort_reverse key_lt _) as [s| |] eqn:E; simpl; try discriminate.
  intros [= <- <-]. split; [|done].
  apply sort_reverse_perm in E.
  rewrite <- (sort_keys_pairs rnd k (condition_bid_pairs (continuations self))) at 1.
  by apply Permutation_map.
Qed.

Lemma key_le_trans (x y z : SortKey) : key_le x y -> key_le y z -> key_le x z.
Proof. unfold key_le. simpl. lia. Qed.

Ltac key_lt_cases :=
  unfold key_lt, key_le, bid_eqb, bid_ltb, suit_eqb, suit_ltb; simpl;
  repeat match goal with
         | |- context [Z.eqb ?a ?b] => destruct (Z.eqb_spec a b); simpl
         | |- context [Z.ltb ?a ?b] => destruct (Z.ltb_spec a b); simpl
         | |- context [condition_eqb ?a ?b] => destruct (condition_eqb a b); simpl
         end.

Lemma key_lt_true (x y : SortKey) : key_lt x y = Ok true -> key_le x y.
Proof. key_lt_cases; intros [=]; lia. Qed.

Lemma key_lt_false (x y : SortKey) : key_lt x y = Ok false -> key_le y x.
Proof. key_lt_cases; intros [=]; lia. Qed.

Lemma StronglySorted_map {A B : Type} (f : A -> B) (R : B -> B -> Prop) (l : list A) :
  StronglySorted (fun x y => R (f x) (f y)) l -> StronglySorted R (map f l).
Proof.
  induction 1 as [|x l Hs IH Hx]; simpl; constructor; [done|].
  apply Forall_map. exact Hx.
Qed.

Lemma StronglySorted_impl_In {A : Type} (R R' : A -> A -> Prop) (l : list A) :
  (forall x y, In x l -> In y l -> R x y -> R' x y) ->
  StronglySorted R l -> StronglySorted R' l.
Proof.
  intros H Hs. induction Hs as [|x l Hs IH Hx]; constructor.
  - apply IH. intros a b Ha Hb. apply H; by right.
  - rewrite Forall_forall in *. intros y Hy. apply H; [by left|by right|by apply Hx].
Qed.

(** Whatever the draws, the emitted pairs are in descending order of
    [(num_val, bid)]. *)
Lemma all_conditions_sorted_sorted (rnd : nat -> Z) (k k' : nat) (self : Branch)
    (out : list (Condition * Bid)) :
  all_conditions_sorted rnd k self = Ok (out, k') ->
  StronglySorted emitted_before out.
Proof.
  rewrite all_conditions_sorted_eq.
  destruct (sort_reverse key_lt _) as [s| |] eqn:E; simpl; try discriminate.
  intros [= <- <-].
  pose proof (sort_reverse_perm _ _ _ E) as Hperm.
  apply (sort_reverse_sorted key_lt key_le key_le_trans key_lt_true key_lt_false) in E.
  apply StronglySorted_map.
  eapply StronglySorted_impl_In; [|exact E].
  intros x y Hx Hy.
  assert (Hnv : forall t, In t s -> num_val t = cond_num_val (key_cond t)).
  { intros t Ht. apply (Permutation_in _ (Permutation_sym Hperm)) in Ht.
    apply list_elem_of_In, elem_of_lookup_imap in Ht as (i & [c b] & -> & _). done. }
  unfold key_le, emitted_before, bid_ltb, suit_eqb, suit_ltb. simpl.
  rewrite <- (Hnv x Hx), <- (Hnv y Hy).
  repeat match goal with
         | |- context [Z.eqb ?a ?b] => destruct (Z.eqb_spec a b); simpl
         | |- context [Z.ltb ?a ?b] => destruct (Z.ltb_spec a b); simpl
         end; lia.
Qed.

(** As long as every priority of the branch is below the number that stands
    for "no priority", the emitted order is the specified one. *)
Lemma all_conditions_sorted_specified (rnd : nat -> Z) (k k' : nat) (self : Branch)
    (out : list (Condition * Bid)) :
  (forall cond bid p, In (cond, bid) (condition_bid_pairs (continuations self)) ->
                      priority cond = Some p -> p < 999999) ->
  all_conditions_sorted rnd k self = Ok (out, k') ->
  Permutation (condition_bid_pairs (continuations self)) out
  /\ StronglySorted specified_before out.
Proof.
  intros Hbound Hout.
  pose proof (all_conditions_sorted_perm _ _ _ _ _ Hout) as [Hperm _].
  split; [done|].
  apply all_conditions_sorted_sorted in Hout.
  eapply StronglySorted_impl_In; [|exact Hout].
  intros [c1 b1] [c2 b2] H1 H2.
  apply (Permutation_in _ (Permutation_sym Hperm)) in H1, H2.
  pose proof (Hbound c1 b1) as B1. pose proof (Hbound c2 b2) as B2.
  unfold emitted_before, specified_before, cond_num_val, priority_before. simpl.
  destruct (priority c1) as [p|], (priority c2) as [q|];
    specialize (B1 _ H1 eq_refl) || clear B1;
    specialize (B2 _ H2 eq_refl) || clear B2;
    intros [H|[H Hb]]; try lia; auto.
  right. split; [f_equal; lia|done].
Qed.

Lemma suit_eqb_refl (s : Suit) : suit_eqb s s = true.
Proof. unfold suit_eqb. apply Z.eqb_refl. Qed.

Lemma expr_eqb_refl (e : Expr) : expr_eqb e e = true.
Proof.
  induction e using Expr_mut_ind
    with (P0 := fun b => binary_eqb b b = true); simpl;
    rewrite ?Z.eqb_refl, ?String.eqb_refl, ?suit_eqb_refl, ?meta_eqb_refl,
            ?IHe, ?IHe1, ?IHe2, ?IHe0; done.
Qed.

Lemma condition_eqb_refl (c : Condition) : condition_eqb c c = true.
Proof.
  unfold condition_eqb. rewrite expr_eqb_refl, meta_eqb_refl.
  by destruct (priority c); simpl; rewrite ?Z.eqb_refl.
Qed.

Lemma key_lt_refl (x : SortKey) : key_lt x x = Ok false.
Proof.
  unfold key_lt. by rewrite !Z.eqb_refl, bid_eqb_refl, condition_eqb_refl.
Qed.

Lemma key_lt_distinct (x y : SortKey) :
  uniquifier x <> uniquifier y -> exists b, key_lt x y = Ok b.
Proof.
  intros Hne. unfold key_lt.
  destruct (negb (num_val x =? num_val y)); [eauto|].
  destruct (negb (bid_eqb (key_bid x) (key_bid y))); [eauto|].
  destruct (Z.eqb_spec (uniquifier x) (uniquifier y)); [done|]. simpl. eauto.
Qed.

(** The sequencer returns whenever the draws it makes differ from each
    other: the conditions themselves are then never compared. *)
Lemma all_conditions_sorted_returns (rnd : nat -> Z) (k : nat) (self : Branch) :
  let n := length (condition_bid_pairs (continuations self)) in
  (forall i j, (i < n)%nat -> (j < n)%nat ->
               randrange rnd (k + i) 999999999999 = randrange rnd (k + j) 999999999999 ->
               i = j) ->
  exists out, all_conditions_sorted rnd k self = Ok (out, (k + n)%nat).
Proof.
  intros n Hinj. rewrite all_conditions_sorted_eq.
  destruct (sort_reverse_returns key_lt
              (sort_keys rnd k (condition_bid_pairs (continuations self)))) as [s ->].
  - intros x y Hx Hy.
    apply list_elem_of_In, elem_of_lookup_imap in Hx as (i & [c b] & -> & Hi).
    apply list_elem_of_In, elem_of_lookup_imap in Hy as (j & [c' b'] & -> & Hj).
    destruct (Z.eq_dec (randrange rnd (k + i) 999999999999)
                       (randrange rnd (k + j) 999999999999)) as [E|E].
    + apply Hinj in E; [|by eapply lookup_lt_Some..]. subst j.
      rewrite Hi in Hj. injection Hj as <- <-.
      exists false. apply key_lt_refl.
    + by apply key_lt_distinct.
  - simpl. eauto.
Qed.

(** The example of the specification: priorities [2, none, 1, 1] on the
    bids [1H, 1S, 2C, 2D] come out as [2D, 2C, 1H, 1S], whatever is drawn. *)
Example all_conditions_sorted_example (rnd : nat -> Z) (k : nat) (e0 e1 e2 e3 : Expr) :
  let bid l d := mkBid l (mkSuit None d) None in
  let c0 := mkCondition e0 (Some 2) None in
  let c1 := mkCondition e1 None None in
  let c2 := mkCondition e2 (Some 1) None in
  let c3 := mkCondition e3 (Some 1) None in
  all_conditions_sorted rnd k
    (mkBranch (mkBidHistory [] None)
       [mkBidExpression (bid 1 Hearts) [c0] None;
        mkBidExpression (bid 1 Spades) [c1] None;
        mkBidExpression (bid 2 Clubs) [c2] None;
        mkBidExpression (bid 2 Diamonds) [c3] None] None)
  = Ok ([(c3, bid 2 Diamonds); (c2, bid 2 Clubs); (c0, bid 1 Hearts); (c1, bid 1 Spades)],
        S (S (S (S k)))).
Proof. reflexivity. Qed.

(** C4 (code defect): "no priority" is sorted as the number 999999, so a
    condition whose priority exceeds it is emitted behind a condition that
    has none, for any expressions, bids and draws. *)
Theorem all_conditions_sorted_large_priority (rnd : nat -> Z) (k : nat) (p : Z)
    (e1 e2 : Expr) (b1 b2 : Bid) (h : BidHistory) (m1 m2 mb1 mb2 mbr : option Meta) :
  p > 999999 ->
  let with_priority := mkCondition e1 (Some p) m1 in
  let without_priority := mkCondition e2 None m2 in
  all_conditions_sorted rnd k
    (mkBranch h [mkBidExpression b1 [with_priority] mb1;
                 mkBidExpression b2 [without_priority] mb2] mbr)
  = Ok ([(without_priority, b2); (with_priority, b1)], S (S k)).
Proof.
  intros Hp with_priority without_priority.
  unfold all_conditions_sorted, sort_reverse, sort_ascending. simpl.
  unfold key_lt. simpl.
  destruct (Z.eqb_spec (- p) (-999999)) as [E|_]; [lia|]. simpl.
  destruct (Z.ltb_spec (- p) (-999999)) as [_|E]; [|lia]. reflexivity.
Qed.

(** Priority 1000000 on [1H] and no priority on [1S]: [1S] comes first. *)
Lemma all_conditions_sorted_large_priority_example :
  let b1H := mkBid 1 (mkSuit None Hearts) None in
  let b1S := mkBid 1 (mkSuit None Spades) None in
  1000000 > 999999
  /\ all_conditions_sorted (fun _ => 0) 0
       (mkBranch (mkBidHistory [] None)
          [mkBidExpression b1H [mkCondition (ENum 0) (Some 1000000) None] None;
           mkBidExpression b1S [mkCondition (ENum 1) None None] None] None)
     = Ok ([(mkCondition (ENum 1) None None, b1S);
            (mkCondition (ENum 0) (Some 1000000) None, b1H)], 2%nat).
Proof.
  intros b1H b1S.
  assert (H : 1000000 > 999999) by lia.
  split; [exact H|].
  exact (all_conditions_sorted_large_priority (fun _ => 0) 0 1000000 (ENum 0) (ENum 1)
           b1H b1S (mkBidHistory [] None) None None None None None H).
Defined.

(** ** The tree assembler *)

Lemma build_branch_S (fuel : nat) (rnd : nat -> Z) (k : nat) (branch : Branch)
    (rest : list Branch) :
  build_branch (S fuel) rnd k branch rest =
    ('(continuation_dict, k) ←
        continuation_loop (fun k b => build_branch fuel rnd k b rest) branch rest
                          (continuations branch) (Ok (∅, k));
     '(sorted, k) ← all_conditions_sorted rnd k branch;
     result ← emit_loop continuation_dict sorted (Ok []);
     Ok (result, k)).
Proof. reflexivity. Qed.

Lemma _find_miss {A D : Type} (iterable : list A) (predicate : A -> bool)
    (default : option D) :
  (forall el, In el iterable -> predicate el = false) ->
  _find iterable predicate default
  = match default with Some d => Ok (inr d) | None => Raise ValueError end.
Proof.
  induction iterable as [|el l IH]; simpl; intros H; [done|].
  rewrite (H el (or_introl eq_refl)). apply IH. intros x Hx. apply H. by right.
Qed.

Lemma _find_found {A D : Type} (iterable : list A) (predicate : A -> bool)
    (default : option D) (r : A + D) :
  _find iterable predicate default = Ok r ->
  match r with
  | inl el => In el iterable /\ predicate el = true
  | inr d => default = Some d /\ forall el, In el iterable -> predicate el = false
  end.
Proof.
  induction iterable as [|el l IH]; simpl.
  - destruct default; intros [= <-]. split; [done|]. intros _ [].
  - destruct (predicate el) eqn:E.
    + intros [= <-]. auto.
    + intros H. specialize (IH H). destruct r as [x|d].
      * destruct IH. auto.
      * destruct IH as [? IH]. split; [done|]. intros x [<-|Hx]; auto.
Qed.

(** With a default, [_find] never raises. *)
Lemma _find_default_returns {A D : Type} (iterable : list A) (predicate : A -> bool)
    (d : D) :
  exists r, _find iterable predicate (Some d) = Ok r.
Proof.
  induction iterable as [|el l IH]; simpl; [eauto|].
  destruct (predicate el); eauto.
Qed.

(** Two continuations for the same bid look up the same rule group. *)
Lemma continues_key (branch : Branch) (c c' : BidExpression) (b : Branch) :
  bid_key (prefix c) = bid_key (prefix c') ->
  continues branch c b = continues branch c' b.
Proof.
  intros Hk. unfold continues, BidHistory_eqb, history_append. simpl.
  by rewrite (bids_eqb_snoc_key _ _ _ _ Hk).
Qed.

Section Loops.
Context (recur : nat -> Branch -> outcome (list IrBranch * nat)).
Context (branch : Branch) (rest : list Branch).

Lemma continuation_loop_failed (conts : list BidExpression)
    (init : outcome (gmap (Z * Denomination) (list IrBranch) * nat)) :
  (forall r, init <> Ok r) ->
  forall r, continuation_loop recur branch rest conts init <> Ok r.
Proof.
  revert init. induction conts as [|c conts IH]; simpl; intros init H; [done|].
  apply IH. intros r. destruct init as [[d k]| |]; simpl; try done.
  by destruct (H (d, k)).
Qed.

(** When no continuation finds a rule group, no recursive call is made:
    the loop returns and maps the bid of every continuation to the empty
    list. *)
Lemma continuation_loop_all_miss (conts : list BidExpression)
    (d : gmap (Z * Denomination) (list IrBranch)) (k : nat) :
  (forall c b, In c conts -> In b rest -> continues branch c b = false) ->
  continuation_loop recur branch rest conts (Ok (d, k))
  = Ok (fold_left (fun d c => <[bid_key (prefix c) := []]> d) conts d, k).
Proof.
  revert d. induction conts as [|c conts IH]; simpl; intros d H; [done|].
  unfold find_continuation.
  rewrite _find_miss by (intros b Hb; apply H; auto). simpl.
  apply IH. intros c' b Hc' Hb. apply H; auto.
Qed.

(** A continuation that finds no rule group leaves the empty list under
    its bid when the loop is done. *)
Lemma continuation_loop_miss (conts : list BidExpression) (c : BidExpression)
    (d d' : gmap (Z * Denomination) (list IrBranch)) (k k' : nat) :
  (forall b, In b rest -> continues branch c b = false) ->
  d !! bid_key (prefix c) = Some [] \/ In c conts ->
  continuation_loop recur branch rest conts (Ok (d, k)) = Ok (d', k') ->
  d' !! bid_key (prefix c) = Some [].
Proof.
  intros Hmiss. revert d k.
  induction conts as [|c0 conts IH]; simpl; intros d k Hin.
  - intros [= <- <-]. by destruct Hin.
  - destruct (decide (bid_key (prefix c0) = bid_key (prefix c))) as [Hk|Hk].
    + unfold find_continuation.
      rewrite _find_miss
        by (intros b Hb; rewrite (continues_key branch c0 c b Hk); auto).
      simpl. apply IH. left. rewrite Hk. apply lookup_insert_eq.
    + assert (Hin' : forall v, <[bid_key (prefix c0) := v]> d !! bid_key (prefix c)
                                 = Some [] \/ In c conts).
      { intros v. destruct Hin as [Hd|[->|Hc]]; [|done|by right].
        left. by rewrite lookup_insert_ne. }
      destruct (find_continuation branch rest c0) as [[b|v]| |] eqn:E; simpl.
      * destruct (recur k b) as [[compiled k1]| |] eqn:Er; simpl.
        -- apply IH, Hin'.
        -- intros H. by apply continuation_loop_failed in H.
        -- intros H. by apply continuation_loop_failed in H.
      * apply IH, Hin'.
      * intros H. by apply continuation_loop_failed in H.
      * intros H. by apply continuation_loop_failed in H.
Qed.
End Loops.

Lemma emit_loop_failed (d : gmap (Z * Denomination) (list IrBranch))
    (sorted : list (Condition * Bid)) (init : outcome (list IrBranch)) :
  (forall r, init <> Ok r) -> forall r, emit_loop d sorted init <> Ok r.
Proof.
  revert init. induction sorted as [|[c b] sorted IH]; simpl; intros init H; [done|].
  apply IH. intros r. destruct init as [acc| |]; simpl; try done.
  by destruct (H acc).
Qed.

(** The nodes follow the sorted pairs one by one; each takes the children
    stored under its bid. *)
Lemma emit_loop_nodes (d : gmap (Z * Denomination) (list IrBranch))
    (sorted : list (Condition * Bid)) (acc nodes : list IrBranch) :
  emit_loop d sorted (Ok acc) = Ok nodes ->
  exists emitted,
    nodes = acc ++ emitted
    /\ Forall2 (fun '(condition, bid) node =>
                  exists children, d !! bid_key bid = Some children
                                   /\ node = new_branch condition bid children)
               sorted emitted.
Proof.
  revert acc. induction sorted as [|[c b] sorted IH]; simpl; intros acc.
  - intros [= <-]. exists []. by rewrite app_nil_r.
  - unfold dict_get. destruct (d !! bid_key b) as [ch|] eqn:E; simpl.
    + intros H. apply IH in H as (emitted & -> & HF).
      exists (new_branch c b ch :: emitted). rewrite <- app_assoc. split; [done|].
      constructor; eauto.
    + intros H. by apply emit_loop_failed in H.
Qed.

Lemma emit_loop_all_empty (d : gmap (Z * Denomination) (list IrBranch))
    (sorted : list (Condition * Bid)) (acc : list IrBranch) :
  (forall c b, In (c, b) sorted -> d !! bid_key b = Some []) ->
  emit_loop d sorted (Ok acc)
  = Ok (acc ++ map (fun '(condition, bid) => new_branch condition bid []) sorted).
Proof.
  revert acc. induction sorted as [|[c b] sorted IH]; simpl; intros acc H.
  - by rewrite app_nil_r.
  - unfold dict_get. rewrite (H c b) by auto. simpl.
    rewrite IH by (intros; eapply H; eauto). by rewrite <- app_assoc.
Qed.

Lemma Forall2_In_l {A B : Type} (R : A -> B -> Prop) (l : list A) (l' : list B) (x : A) :
  Forall2 R l l' -> In x l -> exists y, In y l' /\ R x y.
Proof.
  induction 1 as [|a b l l' Hab HF IH]; simpl; [done|].
  intros [<-|Hx]; [eauto|]. destruct (IH Hx) as (y & ? & ?). eauto.
Qed.

Lemma Forall2_In_r {A B : Type} (R : A -> B -> Prop) (l : list A) (l' : list B) (y : B) :
  Forall2 R l l' -> In y l' -> exists x, In x l /\ R x y.
Proof.
  induction 1 as [|a b l l' Hab HF IH]; simpl; [done|].
  intros [<-|Hy]; [eauto|]. destruct (IH Hy) as (x & ? & ?). eauto.
Qed.

Lemma empty_children_lookup (conts : list BidExpression)
    (d : gmap (Z * Denomination) (list IrBranch)) (key : Z * Denomination) :
  d !! key = Some [] \/ (exists c, In c conts /\ bid_key (prefix c) = key) ->
  fold_left (fun d c => <[bid_key (prefix c) := []]> d) conts d !! key = Some [].
Proof.
  revert d. induction conts as [|c0 conts IH]; simpl; intros d H.
  - destruct H as [H|(c & [] & _)]. done.
  - apply IH. destruct (decide (bid_key (prefix c0) = key)) as [<-|Hne].
    + left. apply lookup_insert_eq.
    + destruct H as [H|(c & Hc & Hk)].
      * left. by rewrite lookup_insert_ne.
      * destruct Hc as [->|Hc]; [done|]. right. eauto.
Qed.

Lemma condition_bid_pairs_In (conts : list BidExpression) (cond : Condition) (bid : Bid) :
  In (cond, bid) (condition_bid_pairs conts)
  <-> exists c, In c conts /\ In cond (conditions c) /\ bid = prefix c.
Proof.
  unfold condition_bid_pairs. rewrite in_flat_map. split.
  - intros (c & Hc & Hin). apply in_map_iff in Hin as (cond' & [= <- <-] & Hcond). eauto.
  - intros (c & Hc & Hcond & ->). exists c. split; [done|].
    apply in_map_iff. eauto.
Qed.

(** A branch none of whose continuations finds a rule group compiles to
    leaves: [build_branch] returns the sorted pairs as nodes without
    children and raises only what the sequencer raises. *)
Lemma build_branch_leaves (rnd : nat -> Z) (branch : Branch) (rest : list Branch)
    (fuel k : nat) :
  (forall c b, In c (continuations branch) -> In b rest -> continues branch c b = false) ->
  build_branch (S fuel) rnd k branch rest =
    ('(sorted, k') ← all_conditions_sorted rnd k branch;
     Ok (map (fun '(condition, bid) => new_branch condition bid []) sorted, k')).
Proof.
  intros Hmiss. rewrite build_branch_S, continuation_loop_all_miss by done. simpl.
  destruct (all_conditions_sorted rnd k branch) as [[sorted k']| |] eqn:E; simpl; try done.
  rewrite emit_loop_all_empty; [done|].
  intros c b Hin. apply all_conditions_sorted_perm in E as [Hperm _].
  apply (Permutation_in _ (Permutation_sym Hperm)) in Hin.
  apply condition_bid_pairs_In in Hin as (be & Hbe & _ & ->).
  apply empty_children_lookup. right. eauto.
Qed.

(** The first loop returns when the recursive calls it makes do, and then
    holds an entry for the bid of every continuation. *)
Lemma continuation_loop_returns
    (recur : nat -> Branch -> outcome (list IrBranch * nat))
    (branch : Branch) (rest : list Branch) (conts : list BidExpression)
    (d : gmap (Z * Denomination) (list IrBranch)) (k : nat) :
  (forall k c g, In c conts -> find_continuation branch rest c = Ok (inl g) ->
                 exists r, recur k g = Ok r) ->
  exists d' k',
    continuation_loop recur branch rest conts (Ok (d, k)) = Ok (d', k')
    /\ forall key, is_Some (d !! key)
                   \/ (exists c, In c conts /\ bid_key (prefix c) = key) ->
                   is_Some (d' !! key).
Proof.
  revert d k. induction conts as [|c conts IH]; simpl; intros d k Hrec.
  - exists d, k. split; [done|]. intros key [H|(c & [] & _)]. done.
  - assert (Hnext : forall v k1,
              exists d' k',
                continuation_loop recur branch rest conts
                  (Ok (<[bid_key (prefix c) := v]> d, k1)) = Ok (d', k')
                /\ forall key, is_Some (d !! key)
                               \/ (exists c0, (c = c0 \/ In c0 conts)
                                              /\ bid_key (prefix c0) = key) ->
                               is_Some (d' !! key)).
    { intros v k1.
      destruct (IH (<[bid_key (prefix c) := v]> d) k1) as (d' & k' & E & Hkeys).
      { intros k0 c0 g Hc0. apply Hrec. by right. }
      exists d', k'. split; [exact E|]. intros key Hkey. apply Hkeys.
      destruct (decide (bid_key (prefix c) = key)) as [<-|Hne].
      - left. rewrite lookup_insert_eq. eauto.
      - destruct Hkey as [H|(c0 & [<-|Hc0] & Hk)]; [|done|eauto].
        left. by rewrite lookup_insert_ne. }
    destruct (_find_default_returns rest (continues branch c) VNone) as [[g|v] E];
      unfold find_continuation in *; rewrite E; simpl.
    + destruct (Hrec k c g (or_introl eq_refl) E) as [[compiled k1] ->]. simpl.
      apply Hnext.
    + apply Hnext.
Qed.

Lemma emit_loop_returns (d : gmap (Z * Denomination) (list IrBranch))
    (sorted : list (Condition * Bid)) (acc : list IrBranch) :
  (forall c b, In (c, b) sorted -> is_Some (d !! bid_key b)) ->
  exists nodes, emit_loop d sorted (Ok acc) = Ok nodes.
Proof.
  revert acc. induction sorted as [|[c b] sorted IH]; simpl; intros acc H; [eauto|].
  unfold dict_get. destruct (H c b (or_introl eq_refl)) as [ch ->]. simpl.
  apply IH. intros c' b' Hin. eapply H. by right.
Qed.

(** [build_branch] raises nothing of its own: it returns whenever the
    recursive calls for the continuations that find a rule group return and
    the sequencer returns. *)
Lemma build_branch_returns (rnd : nat -> Z) (branch : Branch) (rest : list Branch)
    (fuel : nat) :
  (forall k c g, In c (continuations branch) ->
     find_continuation branch rest c = Ok (inl g) ->
     exists r, build_branch fuel rnd k g rest = Ok r) ->
  (forall k, exists r, all_conditions_sorted rnd k branch = Ok r) ->
  forall k, exists r, build_branch (S fuel) rnd k branch rest = Ok r.
Proof.
  intros Hrec Hsort k. rewrite build_branch_S.
  destruct (continuation_loop_returns (fun k b => build_branch fuel rnd k b rest)
              branch rest (continuations branch) ∅ k Hrec) as (d & k1 & -> & Hkeys).
  simpl. destruct (Hsort k1) as [[sorted k2] E]. rewrite E. simpl.
  destruct (emit_loop_returns d sorted []) as [nodes ->]; [|simpl; eauto].
  intros c b Hin. apply all_conditions_sorted_perm in E as [Hperm _].
  apply (Permutation_in _ (Permutation_sym Hperm)) in Hin.
  apply condition_bid_pairs_In in Hin as (be & Hbe & _ & ->).
  apply Hkeys. right. eauto.
Qed.

Lemma max_prefix_length_In (rest : list Branch) (b : Branch) :
  In b rest -> (length (sequence (branch_prefix b)) <= max_prefix_length rest)%nat.
Proof.
  induction rest as [|b0 rest IH]; simpl; [done|].
  intros [->|Hb]; [lia|]. specialize (IH Hb). lia.
Qed.

(** A rule group that continues a branch has a prefix one bid longer. *)
Lemma continues_length (branch : Branch) (c : BidExpression) (g : Branch) :
  continues branch c g = true ->
  length (sequence (branch_prefix g)) = S (length (sequence (branch_prefix branch))).
Proof.
  unfold continues, BidHistory_eqb. rewrite andb_true_iff. intros [H _].
  apply bids_eqb_length in H. rewrite H. simpl. rewrite length_app. simpl. lia.
Qed.

(** The recursion always ends: every recursive call is for a rule group
    with a longer prefix, so a budget beyond the longest prefix is enough,
    and [build_branch] returns whenever the sequencer returns on the branch
    and on the rule groups. *)
Lemma build_branch_total (rnd : nat -> Z) (rest : list Branch) (fuel : nat) :
  (forall k b, In b rest -> exists r, all_conditions_sorted rnd k b = Ok r) ->
  forall branch k,
    (forall k, exists r, all_conditions_sorted rnd k branch = Ok r) ->
    (max_prefix_length rest <= length (sequence (branch_prefix branch)) + fuel)%nat ->
    exists r, build_branch (S fuel) rnd k branch rest = Ok r.
Proof.
  intros Hrest. induction fuel as [|fuel IH]; intros branch k Hsort Hlen;
    apply build_branch_returns; try done;
    intros k0 c g Hc Hfind; apply _find_found in Hfind as [Hg Hcont];
    pose proof (continues_length _ _ _ Hcont) as Hgl;
    pose proof (max_prefix_length_In _ _ Hg) as Hmax.
  - lia.
  - apply IH; [intros; by apply Hrest|lia].
Qed.

(** Among rule groups whose prefixes hold lists, for a continuation whose
    next prefix matches no rule group the lookup returns its default;
    whenever [build_branch] returns, every condition of that continuation
    has its node and every node for that bid has no children; when no
    continuation of the branch finds a rule group, [build_branch] returns
    unless the sequencer raises; and in general, with a recursion budget
    beyond the longest prefix, it returns whenever the sequencer returns on
    the branch and on the rule groups. *)
Lemma build_branch_lookup_miss (rnd : nat -> Z) (branch : Branch) (rest : list Branch)
    (c : BidExpression) :
  In c (continuations branch) ->
  (forall b, In b rest ->
     BidHistory_eqb (branch_prefix b)
                    (history_append (branch_prefix branch) (prefix c)) = false) ->
  _find rest
    (fun b => BidHistory_eqb (branch_prefix b)
                (history_append (branch_prefix branch) (prefix c)))
    (Some VNone) = Ok (inr VNone)
  /\ (forall fuel k nodes k',
        build_branch fuel rnd k branch rest = Ok (nodes, k') ->
        (forall cond, In cond (conditions c) ->
                      In (new_branch cond (prefix c) []) nodes)
        /\ (forall node stmt,
              In node nodes -> ir_bids node = [stmt] ->
              (stmt_level stmt, suit_name (stmt_color stmt)) = bid_key (prefix c) ->
              ir_children node = []))
  /\ ((forall c' b, In c' (continuations branch) -> In b rest ->
         BidHistory_eqb (branch_prefix b)
                        (history_append (branch_prefix branch) (prefix c')) = false) ->
      forall fuel k,
        build_branch (S fuel) rnd k branch rest =
          ('(sorted, k') ← all_conditions_sorted rnd k branch;
           Ok (map (fun '(condition, bid) => new_branch condition bid []) sorted, k')))
  /\ ((forall k b, In b (branch :: rest) ->
         exists r, all_conditions_sorted rnd k b = Ok r) ->
      forall fuel k,
        (max_prefix_length rest < fuel)%nat ->
        exists r, build_branch fuel rnd k branch rest = Ok r).
Proof.
  intros Hc Hmiss. split; [|split; [|split]].
  4: { intros Hsort [|fuel] k Hfuel; [lia|].
       apply build_branch_total; [| |lia].
       - intros k0 b Hb. apply Hsort. by right.
       - intros k0. apply Hsort. by left. }
  - by rewrite _find_miss.
  - intros [|fuel] k nodes k'; [done|]. rewrite build_branch_S.
    destruct (continuation_loop _ _ _ _ _) as [[d k1]| |] eqn:Eloop; simpl; try done.
    destruct (all_conditions_sorted rnd k1 branch) as [[sorted k2]| |] eqn:Esort;
      simpl; try done.
    destruct (emit_loop d sorted (Ok [])) as [result| |] eqn:Eemit; simpl; try done.
    intros [= <- <-].
    apply continuation_loop_miss with (c := c) in Eloop; [|exact Hmiss|by right].
    apply all_conditions_sorted_perm in Esort as [Hperm _].
    apply emit_loop_nodes in Eemit as (emitted & -> & HF). simpl. split.
    + intros cond Hcond.
      assert (Hin : In (cond, prefix c) sorted).
      { apply (Permutation_in _ Hperm), condition_bid_pairs_In. eauto. }
      destruct (Forall2_In_l _ _ _ _ HF Hin) as (node & Hnode & ch & Hch & ->).
      rewrite Eloop in Hch. by injection Hch as <-.
    + intros node stmt Hnode Hbids Hkey.
      destruct (Forall2_In_r _ _ _ _ HF Hnode) as ([cond bid] & _ & ch & Hch & ->).
      simpl in *. injection Hbids as <-. simpl in Hkey.
      change (bid_key bid = bid_key (prefix c)) in Hkey.
      rewrite Hkey, Eloop in Hch. by injection Hch as <-.
  - intros Hall fuel k. by apply build_branch_leaves.
Qed.

(** *** The two-group convention of the specification *)

Lemma points_in_point_range (lo hi : Z) :
  EBinary <$> point_range (range (ENum lo) (ENum hi) None) None None
  = Ok (points_in lo hi).
Proof. reflexivity. Qed.

(** For group A (prefix [[]], continuation [1H] on points in [12,14],
    priority 1) and group B (prefix [[1H]], continuation [1S] on points in
    [15,17], priority 1), whose prefixes are lists and carry the same [meta]
    [m], [build_branch(A, [A, B])] returns one node, for the bid [1H], whose
    children are one node, for [1S]. *)
Lemma build_branch_two_groups (rnd : nat -> Z) (k fuel : nat) (m mb mb' : option Meta) :
  build_branch (S (S fuel)) rnd k (group_A m mb) [group_A m mb; group_B m mb']
  = Ok ([new_branch cond_A (bid_1H mb) [new_branch cond_B bid_1S []]], S (S k))
  /\ exists top child,
       fst <$> build_branch (S (S fuel)) rnd k (group_A m mb)
                 [group_A m mb; group_B m mb'] = Ok [top]
       /\ ir_bids top = [mkBidStatement mb 1 (mkSuit None Hearts)]
       /\ ir_test top = points_in 12 14
       /\ ir_children top = [child]
       /\ ir_bids child = [mkBidStatement None 1 (mkSuit None Spades)]
       /\ ir_test child = points_in 15 17
       /\ ir_children child = [].
Proof.
  assert (H : build_branch (S (S fuel)) rnd k (group_A m mb)
                [group_A m mb; group_B m mb']
              = Ok ([new_branch cond_A (bid_1H mb) [new_branch cond_B bid_1S []]],
                    S (S k))).
  { rewrite build_branch_S.
    unfold continuation_loop, find_continuation, continues. simpl.
    unfold BidHistory_eqb, history_append. simpl.
    rewrite ?meta_eqb_refl. reflexivity. }
  split; [exact H|].
  eexists _, _. rewrite H. repeat split.
Qed.

(** A branch with the single continuation [1H] and no other rule group:
    the node for [1H] is a leaf and nothing is raised. *)
Lemma build_branch_lookup_miss_example :
  let c := mkBidExpression (bid_1H None) [cond_A] None in
  let A := group_A None None in
  In c (continuations A)
  /\ (forall b, In b [A] ->
        BidHistory_eqb (branch_prefix b)
                       (history_append (branch_prefix A) (prefix c)) = false)
  /\ build_branch 1 (fun _ => 0) 0 A [A]
     = Ok ([new_branch cond_A (bid_1H None) []], 1%nat).
Proof.
  intros c A.
  assert (Hc : In c (continuations A)) by (left; reflexivity).
  assert (Hmiss : forall b, In b [A] ->
            BidHistory_eqb (branch_prefix b)
                           (history_append (branch_prefix A) (prefix c)) = false).
  { intros b [<-|[]]. reflexivity. }
  split; [exact Hc|]. split; [exact Hmiss|].
  destruct (build_branch_lookup_miss (fun _ => 0) A [A] c Hc Hmiss) as (_ & _ & Hleaf & _).
  assert (Hall : forall c' b, In c' (continuations A) -> In b [A] ->
            BidHistory_eqb (branch_prefix b)
                           (history_append (branch_prefix A) (prefix c')) = false).
  { intros c' b [<-|[]] Hb. by apply Hmiss. }
  rewrite (Hleaf Hall 0%nat 0%nat). reflexivity.
Defined.

(** * Further properties *)

(** ** Bids: equality and order *)

Lemma bid_eqb_sym (a b : Bid) : bid_eqb a b = bid_eqb b a.
Proof. unfold bid_eqb, suit_eqb. by rewrite (Z.eqb_sym (level a)), (Z.eqb_sym (suit_rank _)). Qed.

Lemma bid_eqb_trans (a b c : Bid) :
  bid_eqb a b = true -> bid_eqb b c = true -> bid_eqb a c = true.
Proof. rewrite !bid_eqb_key. congruence. Qed.

Lemma bids_eqb_sym (a b : list Bid) : bids_eqb a b = bids_eqb b a.
Proof.
  revert b. induction a as [|x a IH]; intros [|y b]; simpl; try done.
  by rewrite bid_eqb_sym, IH.
Qed.

Lemma bids_eqb_trans (a b c : list Bid) :
  bids_eqb a b = true -> bids_eqb b c = true -> bids_eqb a c = true.
Proof.
  revert b c. induction a as [|x a IH]; intros [|y b] [|z c]; simpl; try done.
  rewrite !andb_true_iff. intros [H1 H2] [H3 H4]. split.
  - by eapply bid_eqb_trans.
  - by eapply IH.
Qed.

Lemma bids_eqb_snoc (l1 l2 : list Bid) (a b : Bid) :
  bids_eqb (l1 ++ [a]) (l2 ++ [b]) = bids_eqb l1 l2 && bid_eqb a b.
Proof.
  revert l2. induction l1 as [|x l1 IH]; intros [|y l2]; simpl.
  - by rewrite andb_true_r.
  - destruct l2; simpl; by rewrite andb_false_r.
  - destruct l1; simpl; by rewrite andb_false_r.
  - by rewrite IH, andb_assoc.
Qed.


(** The generated equality of [BidHistory] is an equivalence relation. *)
Theorem BidHistory_eqb_equivalence (a b c : BidHistory) :
  BidHistory_eqb a a = true
  /\ BidHistory_eqb a b = BidHistory_eqb b a
  /\ (BidHistory_eqb a b = true -> BidHistory_eqb b c = true ->
      BidHistory_eqb a c = true).
Proof.
  unfold BidHistory_eqb. split; [|split].
  - by rewrite bids_eqb_refl, meta_eqb_refl.
  - rewrite bids_eqb_sym. f_equal.
    destruct (history_meta a), (history_meta b); simpl; try done. apply Nat.eqb_sym.
  - rewrite !andb_true_iff, !meta_eqb_eq. intros [H1 H2] [H3 H4]. split.
    + by eapply bids_eqb_trans.
    + congruence.
Qed.

(** Two extended histories are equal exactly when the histories and the
    appended bids are: the key [branch.prefix + bid] that [build_branch]
    looks up determines the prefix and the bid. *)
Theorem history_append_eqb (h1 h2 : BidHistory) (a b : Bid) :
  BidHistory_add h1 (VBid a) = Ok (history_append h1 a)
  /\ BidHistory_eqb (history_append h1 a) (history_append h2 b)
     = BidHistory_eqb h1 h2 && bid_eqb a b.
Proof.
  split; [done|]. unfold BidHistory_eqb, history_append. simpl.
  rewrite bids_eqb_snoc.
  destruct (bids_eqb _ _), (bid_eqb a b), (meta_eqb _ _); done.
Qed.

(** ** Prefix test *)

(** [_is_prefix] compares the two lists on their common length only. *)
Theorem _is_prefix_common_length (p l : list Bid) :
  let n := Nat.min (length p) (length l) in
  _is_prefix p l = bids_eqb (firstn n p) (firstn n l).
Proof.
  revert l. induction p as [|x p IH]; intros [|y l]; simpl; try done.
  rewrite IH. by destruct (bid_eqb x y).
Qed.

Lemma _is_prefix_sym (p l : list Bid) : _is_prefix p l = _is_prefix l p.
Proof.
  revert l. induction p as [|x p IH]; intros [|y l]; simpl; try done.
  by rewrite bid_eqb_sym, IH.
Qed.

(** Membership of histories is symmetric: [A in B] and [B in A] always
    agree, and a history or list of bids is "in" itself. *)
Theorem BidHistory_contains_sym (A B : BidHistory) :
  BidHistory_contains B (ItemHistory A) = BidHistory_contains A (ItemHistory B)
  /\ BidHistory_contains B (ItemBids (sequence A)) = BidHistory_contains B (ItemHistory A)
  /\ BidHistory_contains A (ItemHistory A) = true.
Proof.
  unfold BidHistory_contains. split; [apply _is_prefix_sym|]. split; [done|].
  rewrite <- (app_nil_r (sequence A)) at 2. apply _is_prefix_app.
Qed.

(** For an item that is not longer than the history, membership is the
    prefix relation: the item equals the first bids of the history. *)
Theorem BidHistory_contains_prefix (self item : BidHistory) :
  (length (sequence item) <= length (sequence self))%nat ->
  BidHistory_contains self (ItemHistory item)
  = bids_eqb (sequence item) (firstn (length (sequence item)) (sequence self)).
Proof.
  intros Hlen. unfold BidHistory_contains.
  generalize dependent (sequence self). induction (sequence item) as [|x p IH];
    intros [|y l] Hlen; simpl in *; try done; try lia.
  rewrite IH by lia. by destruct (bid_eqb x y).
Qed.

Lemma BidHistory_contains_prefix_example :
  let b1H := mkBid 1 (mkSuit None Hearts) None in
  let b1S := mkBid 1 (mkSuit None Spades) None in
  (length [b1S] <= length [b1H; b1S])%nat
  /\ BidHistory_contains (mkBidHistory [b1H; b1S] None) (ItemHistory (mkBidHistory [b1S] None))
     = false.
Proof.
  intros b1H b1S.
  assert (H : (length (sequence (mkBidHistory [b1S] None))
               <= length (sequence (mkBidHistory [b1H; b1S] None)))%nat) by (simpl; lia).
  split; [exact H|].
  rewrite (BidHistory_contains_prefix (mkBidHistory [b1H; b1S] None)
             (mkBidHistory [b1S] None) H).
  reflexivity.
Defined.

(** ** The condition sequencer *)

Lemma condition_bid_pairs_length (conts : list BidExpression) :
  length (condition_bid_pairs conts) = length (flat_map conditions conts).
Proof.
  unfold condition_bid_pairs. induction conts as [|c conts IH]; simpl; [done|].
  by rewrite !length_app, length_map, IH.
Qed.

(** Whenever the sequencer returns, it has emitted every [(condition, bid)]
    pair of the branch exactly once and has drawn one random number per
    pair. *)
Theorem sequencer_emits_every_pair (rnd : nat -> Z) (k k' : nat) (self : Branch)
    (out : list (Condition * Bid)) :
  all_conditions_sorted rnd k self = Ok (out, k') ->
  Permutation (condition_bid_pairs (continuations self)) out
  /\ length out = length (flat_map conditions (continuations self))
  /\ k' = (k + length out)%nat.
Proof.
  intros H. apply all_conditions_sorted_perm in H as [Hperm ->].
  split; [done|].
  rewrite <- (Permutation_length Hperm). by rewrite condition_bid_pairs_length.
Qed.

Lemma sequencer_emits_every_pair_example :
  let c1 := mkCondition (ENum 1) (Some 2) None in
  let c2 := mkCondition (ENum 2) (Some 1) None in
  let self := mkBranch (mkBidHistory [] None)
                [mkBidExpression (bid_1H None) [c1; c2] None] None in
  all_conditions_sorted (fun n => Z.of_nat n) 5 self
    = Ok ([(c2, bid_1H None); (c1, bid_1H None)], 7%nat)
  /\ Permutation (condition_bid_pairs (continuations self))
                 [(c2, bid_1H None); (c1, bid_1H None)].
Proof.
  intros c1 c2 self.
  assert (H : all_conditions_sorted (fun n => Z.of_nat n) 5 self
              = Ok ([(c2, bid_1H None); (c1, bid_1H None)], 7%nat)) by reflexivity.
  split; [exact H|].
  exact (proj1 (sequencer_emits_every_pair _ _ _ _ _ H)).
Defined.

(** As long as every priority of the branch is below 999999, the number
    that stands for "no priority", the sequencer's output is ordered by
    priority ascending with "no priority" last, and by bid descending among
    equal priorities, whatever is drawn. *)
Theorem sequencer_order_below_sentinel (rnd : nat -> Z) (k k' : nat) (self : Branch)
    (out : list (Condition * Bid)) :
  (forall cond bid p, In (cond, bid) (condition_bid_pairs (continuations self)) ->
                      priority cond = Some p -> p < 999999) ->
  all_conditions_sorted rnd k self = Ok (out, k') ->
  StronglySorted specified_before out.
Proof.
  intros Hbound Hout.
  exact (proj2 (all_conditions_sorted_specified rnd k k' self out Hbound Hout)).
Qed.

Lemma sequencer_order_below_sentinel_example :
  let c1 := mkCondition (ENum 1) None None in
  let c2 := mkCondition (ENum 2) (Some 1) None in
  let self := mkBranch (mkBidHistory [] None)
                [mkBidExpression (bid_1H None) [c1; c2] None] None in
  all_conditions_sorted (fun n => Z.of_nat n) 0 self
    = Ok ([(c2, bid_1H None); (c1, bid_1H None)], 2%nat)
  /\ StronglySorted specified_before [(c2, bid_1H None); (c1, bid_1H None)].
Proof.
  intros c1 c2 self.
  assert (H : all_conditions_sorted (fun n => Z.of_nat n) 0 self
              = Ok ([(c2, bid_1H None); (c1, bid_1H None)], 2%nat)) by reflexivity.
  split; [exact H|].
  apply (sequencer_order_below_sentinel (fun n => Z.of_nat n) 0 2 self); [|exact H].
  intros cond bid p [E|[E|[]]]; injection E as <- _; simpl; intros [= <-]. lia.
Defined.

(** The sequencer returns whenever the numbers it draws differ from each
    other. *)
Theorem sequencer_returns_on_distinct_draws (rnd : nat -> Z) (k : nat) (self : Branch) :
  (forall i j,
     (i < length (condition_bid_pairs (continuations self)))%nat ->
     (j < length (condition_bid_pairs (continuations self)))%nat ->
     randrange rnd (k + i) 999999999999 = randrange rnd (k + j) 999999999999 ->
     i = j) ->
  exists out,
    all_conditions_sorted rnd k self
    = Ok (out, (k + length (condition_bid_pairs (continuations self)))%nat).
Proof. apply all_conditions_sorted_returns. Qed.

Lemma sequencer_returns_on_distinct_draws_example :
  let c1 := mkCondition (ENum 1) (Some 1) None in
  let c2 := mkCondition (ENum 2) (Some 1) None in
  let self := mkBranch (mkBidHistory [] None)
                [mkBidExpression (bid_1H None) [c1; c2] None] None in
  exists out, all_conditions_sorted (fun n => Z.of_nat n) 0 self = Ok (out, 2%nat).
Proof.
  intros c1 c2 self.
  apply (sequencer_returns_on_distinct_draws (fun n => Z.of_nat n) 0 self).
  intros [|[|i]] [|[|j]] Hi Hj; simpl in *; try lia; try done.
Defined.

Lemma key_lt_raises (x y : SortKey) (e : PyError) : key_lt x y = Raise e -> e = TypeError.
Proof.
  unfold key_lt.
  repeat match goal with |- context [if ?b then _ else _] => destruct b end;
    by intros [= <-].
Qed.

Section SortRaises.
Context {A : Type} (lt : A -> A -> outcome bool) (P : PyError -> Prop).
Context (Hlt : forall x y e, lt x y = Raise e -> P e).

Lemma insert_sorted_raises (x : A) (l : list A) (e : PyError) :
  insert_sorted lt x l = Raise e -> P e.
Proof.
  induction l as [|y l IH]; simpl; [done|].
  destruct (lt x y) as [[]| |] eqn:E; simpl; try done.
  - destruct (insert_sorted lt x l); simpl; try done; intros [= <-]; by apply IH.
  - intros [= <-]. by eapply Hlt.
Qed.

Lemma sort_fold_raises (l : list A) (acc : outcome (list A)) (e : PyError) :
  (forall e', acc = Raise e' -> P e') ->
  fold_left (fun acc x => sorted ← acc; insert_sorted lt x sorted) l acc = Raise e ->
  P e.
Proof.
  revert acc. induction l as [|x l IH]; simpl; intros acc Hacc; [apply Hacc|].
  apply IH. intros e'. destruct acc as [s| |]; simpl; try done.
  - apply insert_sorted_raises.
  - intros [= <-]. by apply Hacc.
Qed.

Lemma sort_reverse_raises (l : list A) (e : PyError) :
  sort_reverse lt l = Raise e -> P e.
Proof.
  unfold sort_reverse, sort_ascending.
  destruct (fold_left _ (rev l) (Ok [])) as [s| |] eqn:E; simpl; try done.
  intros [= <-]. eapply sort_fold_raises; [|exact E]. done.
Qed.
End SortRaises.

Lemma all_conditions_sorted_raises (rnd : nat -> Z) (k : nat) (self : Branch)
    (e : PyError) :
  all_conditions_sorted rnd k self = Raise e -> e = TypeError.
Proof.
  rewrite all_conditions_sorted_eq.
  destruct (sort_reverse key_lt _) as [s| |] eqn:E; simpl; try done.
  intros [= <-]. eapply (sort_reverse_raises key_lt (fun e => e = TypeError)); [|exact E].
  apply key_lt_raises.
Qed.

Lemma meta_eqb_sym (a b : option Meta) : meta_eqb a b = meta_eqb b a.
Proof. destruct a, b; simpl; try done. apply Nat.eqb_sym. Qed.

Lemma expr_eqb_sym (a b : Expr) : expr_eqb a b = expr_eqb b a.
Proof.
  revert b. induction a using Expr_mut_ind
    with (P0 := fun x => forall y, binary_eqb x y = binary_eqb y x);
    intros []; simpl; try done;
    repeat match goal with
           | H : forall b, _ = _ |- _ => rewrite H; clear H
           end;
    rewrite ?(Z.eqb_sym n), ?(String.eqb_sym s), ?(String.eqb_sym type),
            ?(String.eqb_sym kind), ?(String.eqb_sym op), ?(meta_eqb_sym meta);
    try done.
  unfold suit_eqb. apply Z.eqb_sym.
Qed.

Lemma priority_eqb_sym (a b : option Z) : priority_eqb a b = priority_eqb b a.
Proof. destruct a, b; simpl; try done. apply Z.eqb_sym. Qed.

Lemma condition_eqb_sym (a b : Condition) : condition_eqb a b = condition_eqb b a.
Proof.
  unfold condition_eqb. by rewrite expr_eqb_sym, priority_eqb_sym, meta_eqb_sym.
Qed.

(** Two tuples cannot be ordered when they agree on the priority, the bid
    and the random number and hold different conditions. *)
Lemma key_lt_collision (x y : SortKey) :
  num_val x = num_val y ->
  bid_eqb (key_bid x) (key_bid y) = true ->
  uniquifier x = uniquifier y ->
  condition_eqb (key_cond x) (key_cond y) = false ->
  key_lt x y = Raise TypeError.
Proof.
  intros En Eb Eu Ec. unfold key_lt. by rewrite En, Eb, Eu, !Z.eqb_refl, Ec.
Qed.

Lemma key_lt_collision_inv (x y : SortKey) (e : PyError) :
  key_lt x y = Raise e ->
  num_val x = num_val y /\ bid_eqb (key_bid x) (key_bid y) = true
  /\ uniquifier x = uniquifier y /\ condition_eqb (key_cond x) (key_cond y) = false.
Proof.
  unfold key_lt.
  destruct (Z.eqb_spec (num_val x) (num_val y)); simpl; [|done].
  destruct (bid_eqb (key_bid x) (key_bid y)); simpl; [|done].
  destruct (Z.eqb_spec (uniquifier x) (uniquifier y)); simpl; [|done].
  destruct (condition_eqb (key_cond x) (key_cond y)); by simpl.
Qed.

Lemma key_lt_collision_sym (x y : SortKey) (e : PyError) :
  key_lt x y = Raise e -> key_lt y x = Raise TypeError.
Proof.
  intros H. apply key_lt_collision_inv in H as (En & Eb & Eu & Ec).
  apply key_lt_collision; [done| |done|].
  - by rewrite bid_eqb_sym.
  - by rewrite condition_eqb_sym.
Qed.

Lemma key_lt_never_out_of_fuel (x y : SortKey) : key_lt x y <> OutOfFuel.
Proof.
  unfold key_lt.
  repeat match goal with |- context [if ?b then _ else _] => destruct b end; done.
Qed.

(** A tuple that sorts strictly before [y0] cannot collide with a tuple
    that [y0] does not exceed. *)
Lemma key_lt_before_collision (x y0 y : SortKey) (e : PyError) :
  key_lt x y0 = Ok true -> key_le y0 y -> key_lt x y = Raise e -> False.
Proof.
  intros H1 H2 H3. apply key_lt_collision_inv in H3 as (En & Eb & Eu & _).
  apply bid_eqb_key in Eb. unfold bid_key in Eb. injection Eb as El Es.
  revert H1 H2. unfold key_le. rewrite <- Es, <- El, <- En, <- Eu. clear.
  key_lt_cases; intros [=]; lia.
Qed.

Lemma insert_sorted_collision (x y : SortKey) (l : list SortKey) (e : PyError) :
  StronglySorted key_le l -> In y l -> key_lt x y = Raise e ->
  forall r, insert_sorted key_lt x l <> Ok r.
Proof.
  induction 1 as [|y0 l Hs IH Hy0]; simpl; [done|].
  intros [->|Hy] Hxy r.
  - by rewrite Hxy.
  - destruct (key_lt x y0) as [[]| |] eqn:E; simpl; try done.
    + exfalso. rewrite Forall_forall in Hy0.
      eapply key_lt_before_collision; [exact E| |exact Hxy].
      by apply Hy0.
    + destruct (insert_sorted key_lt x l) as [r'| |] eqn:E'; simpl; try done.
      by destruct (IH Hy Hxy r').
Qed.

Lemma sort_fold_failed {A : Type} (lt : A -> A -> outcome bool) (l : list A)
    (init : outcome (list A)) :
  (forall r, init <> Ok r) ->
  forall r, fold_left (fun acc x => sorted ← acc; insert_sorted lt x sorted) l init <> Ok r.
Proof.
  revert init. induction l as [|x l IH]; simpl; intros init H; [done|].
  apply IH. intros r. destruct init as [acc| |]; simpl; try done. by destruct (H acc).
Qed.

(** The sort does not return when two of the tuples cannot be ordered:
    the later of the two is inserted into a sorted list that holds the
    other, and is compared with it. *)
Lemma sort_fold_collision (l acc r : list SortKey) :
  StronglySorted key_le acc ->
  fold_left (fun acc x => sorted ← acc; insert_sorted key_lt x sorted) l (Ok acc) = Ok r ->
  (forall x y e, In x l -> In y acc -> key_lt x y = Raise e -> False)
  /\ (forall l1 y l2 x l3 e, l = l1 ++ y :: l2 ++ x :: l3 -> key_lt x y = Raise e -> False).
Proof.
  revert acc. induction l as [|a l IH]; simpl; intros acc Hs H.
  - split; [by intros x y e []|]. intros l1 y l2 x l3 e E. by destruct l1.
  - destruct (insert_sorted key_lt a acc) as [acc'| |] eqn:E; simpl in H;
      [|by apply sort_fold_failed in H..].
    pose proof (insert_sorted_perm _ _ _ _ E) as Hperm.
    destruct (IH acc' (insert_sorted_sorted key_lt key_le key_le_trans key_lt_true
                         key_lt_false _ _ _ Hs E) H) as [IH1 IH2].
    split.
    + intros x y e [<-|Hx] Hy Hxy.
      * by eapply insert_sorted_collision in E.
      * eapply IH1; [exact Hx| |exact Hxy].
        apply (Permutation_in _ Hperm). by right.
    + intros [|b l1] y l2 x l3 e El Hxy; simpl in El; injection El as -> ->.
      * eapply IH1; [|apply (Permutation_in _ Hperm); by left|exact Hxy].
        apply in_or_app. right. by left.
      * by eapply IH2.
Qed.

Section SortFinishes.
Context {A : Type} (lt : A -> A -> outcome bool).
Context (Hlt : forall x y, lt x y <> OutOfFuel).

Lemma insert_sorted_finishes (x : A) (l : list A) : insert_sorted lt x l <> OutOfFuel.
Proof.
  induction l as [|y l IH]; simpl; [done|].
  destruct (lt x y) as [[]| |] eqn:E; simpl; try done.
  - by destruct (insert_sorted lt x l).
  - by apply Hlt in E.
Qed.

Lemma sort_fold_finishes (l : list A) (init : outcome (list A)) :
  init <> OutOfFuel ->
  fold_left (fun acc x => sorted ← acc; insert_sorted lt x sorted) l init <> OutOfFuel.
Proof.
  revert init. induction l as [|x l IH]; simpl; intros init H; [done|].
  apply IH. destruct init as [acc| |]; simpl; try done. apply insert_sorted_finishes.
Qed.

Lemma sort_reverse_finishes (l : list A) : sort_reverse lt l <> OutOfFuel.
Proof.
  unfold sort_reverse, sort_ascending.
  pose proof (sort_fold_finishes (rev l) (Ok []) ltac:(done)) as H.
  by destruct (fold_left _ (rev l) (Ok [])).
Qed.
End SortFinishes.

Lemma sort_reverse_collision (l1 l2 l3 : list SortKey) (x y : SortKey) (e : PyError) :
  key_lt x y = Raise e ->
  sort_reverse key_lt (l1 ++ x :: l2 ++ y :: l3) = Raise TypeError.
Proof.
  intros Hxy.
  destruct (sort_reverse key_lt (l1 ++ x :: l2 ++ y :: l3)) as [r|e'|] eqn:E.
  - exfalso. unfold sort_reverse, sort_ascending in E.
    destruct (fold_left _ _ (Ok [])) as [s| |] eqn:Es; simpl in E; try done.
    apply sort_fold_collision in Es as [_ Hs]; [|constructor].
    eapply (Hs (rev l3) y (rev l2) x (rev l1)); [|exact Hxy].
    rewrite rev_app_distr. simpl. rewrite rev_app_distr. simpl.
    by rewrite <- !app_assoc.
  - f_equal. eapply (sort_reverse_raises key_lt (fun e => e = TypeError)); [|exact E].
    apply key_lt_raises.
  - by apply (sort_reverse_finishes key_lt key_lt_never_out_of_fuel) in E.
Qed.

Lemma lookup_two_split {A : Type} (l : list A) (i j : nat) (x y : A) :
  (i < j)%nat -> l !! i = Some x -> l !! j = Some y ->
  exists l1 l2 l3, l = l1 ++ x :: l2 ++ y :: l3.
Proof.
  intros Hij Hi Hj.
  exists (take i l), (take (j - S i) (drop (S i) l)), (drop (S (j - S i)) (drop (S i) l)).
  rewrite (take_drop_middle (drop (S i) l) (j - S i) y).
  - by rewrite take_drop_middle.
  - rewrite lookup_drop. rewrite <- Hj. f_equal. lia.
Qed.

Lemma sort_keys_lookup (rnd : nat -> Z) (k : nat) (pairs : list (Condition * Bid))
    (i : nat) (c : Condition) (b : Bid) :
  pairs !! i = Some (c, b) ->
  sort_keys rnd k pairs !! i
  = Some (mkSortKey (cond_num_val c) b (randrange rnd (k + i) 999999999999) c).
Proof. intros H. unfold sort_keys. by rewrite list_lookup_imap, H. Qed.

Lemma all_conditions_sorted_collision (rnd : nat -> Z) (k : nat) (self : Branch)
    (i j : nat) (c1 c2 : Condition) (b1 b2 : Bid) :
  i <> j ->
  condition_bid_pairs (continuations self) !! i = Some (c1, b1) ->
  condition_bid_pairs (continuations self) !! j = Some (c2, b2) ->
  cond_num_val c1 = cond_num_val c2 ->
  bid_eqb b1 b2 = true ->
  condition_eqb c1 c2 = false ->
  randrange rnd (k + i) 999999999999 = randrange rnd (k + j) 999999999999 ->
  all_conditions_sorted rnd k self = Raise TypeError.
Proof.
  intros Hij Hi Hj En Eb Ec Eu. rewrite all_conditions_sorted_eq.
  apply (sort_keys_lookup rnd k) in Hi, Hj.
  set (x := mkSortKey (cond_num_val c1) b1 (randrange rnd (k + i) 999999999999) c1) in *.
  set (y := mkSortKey (cond_num_val c2) b2 (randrange rnd (k + j) 999999999999) c2) in *.
  assert (Hxy : key_lt x y = Raise TypeError) by by apply key_lt_collision.
  destruct (decide (i < j)%nat) as [Hlt|Hge].
  - destruct (lookup_two_split _ _ _ _ _ Hlt Hi Hj) as (l1 & l2 & l3 & ->).
    by rewrite (sort_reverse_collision l1 l2 l3 x y TypeError Hxy).
  - apply key_lt_collision_sym in Hxy.
    destruct (lookup_two_split _ j i _ _ ltac:(lia) Hj Hi) as (l1 & l2 & l3 & ->).
    by rewrite (sort_reverse_collision l1 l2 l3 y x TypeError Hxy).
Qed.

(** Two different conditions of a branch with the same [num_val] on equal
    bids that draw the same number cannot be ordered: wherever the two stand
    among the conditions of the branch, the sort compares two such
    conditions themselves and the sequencer raises [TypeError]. *)
Theorem sequencer_collision_raises (rnd : nat -> Z) (k : nat) (self : Branch)
    (i j : nat) (c1 c2 : Condition) (b1 b2 : Bid) :
  i <> j ->
  condition_bid_pairs (continuations self) !! i = Some (c1, b1) ->
  condition_bid_pairs (continuations self) !! j = Some (c2, b2) ->
  cond_num_val c1 = cond_num_val c2 ->
  bid_eqb b1 b2 = true ->
  condition_eqb c1 c2 = false ->
  randrange rnd (k + i) 999999999999 = randrange rnd (k + j) 999999999999 ->
  all_conditions_sorted rnd k self = Raise TypeError.
Proof. apply all_conditions_sorted_collision. Qed.

Lemma sequencer_collision_raises_example :
  let c1 := mkCondition (ENum 1) (Some 1) None in
  let c2 := mkCondition (ENum 2) (Some 1) None in
  let c3 := mkCondition (ENum 3) (Some 2) None in
  all_conditions_sorted (fun n => Z.of_nat (n mod 2)) 0
    (mkBranch (mkBidHistory [] None)
       [mkBidExpression (bid_1H None) [c1] None;
        mkBidExpression bid_1S [c3] None;
        mkBidExpression (bid_1H (Some 4%nat)) [c2] None] None)
  = Raise TypeError.
Proof.
  intros c1 c2 c3.
  apply (sequencer_collision_raises _ 0 _ 0 2 c1 c2 (bid_1H None) (bid_1H (Some 4%nat)));
    (reflexivity || lia).
Defined.

Lemma StronglySorted_app_order {A : Type} (R : A -> A -> Prop) (l1 l2 : list A) (x y : A) :
  StronglySorted R (l1 ++ l2) -> In x l1 -> In y l2 -> R x y.
Proof.
  induction l1 as [|a l1 IH]; simpl; [done|].
  intros Hs. apply StronglySorted_inv in Hs as [Hs Ha].
  intros [->|Hx] Hy; [|by apply IH].
  rewrite Forall_forall in Ha. apply Ha. apply in_or_app. by right.
Qed.

(** Among conditions with the same [num_val] on equal bids the order is
    decided by the draws alone: whenever the sequencer returns, the condition
    that drew the greater number is emitted before the other, wherever the
    two stand among the conditions of the branch, so the declaration order
    is kept or reversed at random. *)
Theorem sequencer_tie_follows_draws (rnd : nat -> Z) (k k' : nat) (self : Branch)
    (out : list (Condition * Bid)) (i j : nat) (c1 c2 : Condition) (b1 b2 : Bid) :
  all_conditions_sorted rnd k self = Ok (out, k') ->
  condition_bid_pairs (continuations self) !! i = Some (c1, b1) ->
  condition_bid_pairs (continuations self) !! j = Some (c2, b2) ->
  cond_num_val c1 = cond_num_val c2 ->
  bid_eqb b1 b2 = true ->
  randrange rnd (k + i) 999999999999 < randrange rnd (k + j) 999999999999 ->
  exists o1 o2 o3, out = o1 ++ (c2, b2) :: o2 ++ (c1, b1) :: o3.
Proof.
  rewrite all_conditions_sorted_eq. intros H Hi Hj En Eb Hu.
  destruct (sort_reverse key_lt _) as [s| |] eqn:E; simpl in H; try done.
  injection H as <- <-.
  pose proof (sort_reverse_perm _ _ _ E) as Hperm.
  apply (sort_reverse_sorted key_lt key_le key_le_trans key_lt_true key_lt_false) in E.
  apply (sort_keys_lookup rnd k) in Hi, Hj.
  set (x := mkSortKey (cond_num_val c1) b1 (randrange rnd (k + i) 999999999999) c1) in *.
  set (y := mkSortKey (cond_num_val c2) b2 (randrange rnd (k + j) 999999999999) c2) in *.
  assert (Hx : In x s).
  { apply (Permutation_in _ Hperm), list_elem_of_In. by eapply list_elem_of_lookup_2. }
  assert (Hy : In y s).
  { apply (Permutation_in _ Hperm), list_elem_of_In. by eapply list_elem_of_lookup_2. }
  assert (Hnle : ~ key_le y x).
  { apply bid_eqb_key in Eb. unfold bid_key in Eb. injection Eb as El Es.
    unfold key_le, x, y. simpl. rewrite El, Es, En. lia. }
  apply in_split in Hy as (s1 & s2 & ->).
  apply in_app_or in Hx as [Hx|[Hx|Hx]].
  - destruct Hnle. apply (StronglySorted_app_order _ _ _ x y E Hx). by left.
  - exfalso. assert (Eu : uniquifier y = uniquifier x) by by rewrite Hx.
    unfold x, y in Eu. simpl in Eu. lia.
  - apply in_split in Hx as (s3 & s4 & ->).
    exists (map (fun t => (key_cond t, key_bid t)) s1),
           (map (fun t => (key_cond t, key_bid t)) s3),
           (map (fun t => (key_cond t, key_bid t)) s4).
    by rewrite map_app, (map_cons _ y), map_app.
Qed.

Lemma sequencer_tie_follows_draws_example :
  let c1 := mkCondition (ENum 1) (Some 1) None in
  let c2 := mkCondition (ENum 2) (Some 1) None in
  let c3 := mkCondition (ENum 3) (Some 1) None in
  let self := mkBranch (mkBidHistory [] None)
                [mkBidExpression (bid_1H None) [c1; c2] None;
                 mkBidExpression bid_1S [c3] None] None in
  all_conditions_sorted (fun n => Z.of_nat n) 0 self
    = Ok ([(c3, bid_1S); (c2, bid_1H None); (c1, bid_1H None)], 3%nat)
  /\ exists o1 o2 o3,
       [(c3, bid_1S); (c2, bid_1H None); (c1, bid_1H None)]
       = o1 ++ (c2, bid_1H None) :: o2 ++ (c1, bid_1H None) :: o3.
Proof.
  intros c1 c2 c3 self.
  assert (H : all_conditions_sorted (fun n => Z.of_nat n) 0 self
              = Ok ([(c3, bid_1S); (c2, bid_1H None); (c1, bid_1H None)], 3%nat))
    by reflexivity.
  split; [exact H|].
  apply (sequencer_tie_follows_draws _ 0 3 self _ 0 1 c1 c2 (bid_1H None) (bid_1H None) H);
    (reflexivity || (vm_compute; reflexivity)).
Defined.

Lemma bid_ltb_neither (a b : Bid) :
  bid_ltb a b = false -> bid_ltb b a = false -> bid_eqb a b = true.
Proof.
  unfold bid_ltb, bid_eqb, suit_eqb, suit_ltb.
  repeat match goal with
         | |- context [Z.eqb ?x ?y] => destruct (Z.eqb_spec x y); simpl
         | |- context [Z.ltb ?x ?y] => destruct (Z.ltb_spec x y); simpl
         end; try done; lia.
Qed.

Lemma sorted_permutation_unique {A : Type} (R : A -> A -> Prop) (l1 l2 : list A) :
  StronglySorted R l1 -> StronglySorted R l2 -> Permutation l1 l2 ->
  (forall x y, In x l1 -> In y l1 -> R x y -> R y x -> x = y) ->
  l1 = l2.
Proof.
  intros H1. revert l2. induction H1 as [|x l1 Hs1 IH Hx]; intros l2 H2 Hperm Hanti.
  - by apply Permutation_nil in Hperm.
  - destruct H2 as [|y l2 Hs2 Hy].
    + apply Permutation_sym, Permutation_nil in Hperm. discriminate.
    + assert (Exy : x = y).
      { assert (Hxin : In x (y :: l2)) by (apply (Permutation_in _ Hperm); by left).
        assert (Hyin : In y (x :: l1))
          by (apply (Permutation_in _ (Permutation_sym Hperm)); by left).
        destruct Hxin as [->|Hxin]; [done|].
        destruct Hyin as [->|Hyin]; [done|].
        rewrite Forall_forall in Hx, Hy.
        apply Hanti; [by left|by right|by apply Hx|by apply Hy]. }
      subst y. f_equal. apply IH; [done| |].
      * by apply Permutation_cons_inv in Hperm.
      * intros a b Ha Hb. apply Hanti; by right.
Qed.

Lemma NoDup_map_In_inj {A B : Type} (f : A -> B) (l : list A) (x y : A) :
  List.NoDup (map f l) -> In x l -> In y l -> f x = f y -> x = y.
Proof.
  induction l as [|a l IH]; simpl; [done|].
  intros Hnd. apply List.NoDup_cons_iff in Hnd as [Ha Hnd].
  intros [->|Hx] [->|Hy] E; try done.
  - destruct Ha. rewrite E. by apply in_map.
  - destruct Ha. rewrite <- E. by apply in_map.
  - by apply IH.
Qed.

Lemma NoDup_map_lookup_inj {A B : Type} (f : A -> B) (l : list A) (i j : nat) (x y : A) :
  List.NoDup (map f l) -> l !! i = Some x -> l !! j = Some y -> f x = f y -> i = j.
Proof.
  intros Hnd Hi Hj E. apply NoDup_ListNoDup in Hnd.
  eapply (NoDup_lookup (map f l) i j (f x)); [done| |].
  - change (map f l) with (f <$> l). by rewrite list_lookup_fmap, Hi.
  - change (map f l) with (f <$> l). by rewrite list_lookup_fmap, Hj, E.
Qed.

(** The key the sort sees before the random number. *)
Lemma key_lt_decided (x y : SortKey) :
  (num_val x, bid_key (key_bid x)) <> (num_val y, bid_key (key_bid y)) ->
  exists b, key_lt x y = Ok b.
Proof.
  intros Hne. unfold key_lt.
  destruct (Z.eqb_spec (num_val x) (num_val y)) as [En|]; simpl; [|eauto].
  destruct (bid_eqb (key_bid x) (key_bid y)) eqn:Eb; simpl; [|eauto].
  apply bid_eqb_key in Eb. destruct Hne. by rewrite En, Eb.
Qed.

Lemma all_conditions_sorted_no_ties (self : Branch) :
  no_ties self ->
  exists out, forall rnd k,
    all_conditions_sorted rnd k self
    = Ok (out, (k + length (condition_bid_pairs (continuations self)))%nat).
Proof.
  unfold no_ties. intros Hnd.
  set (pairs := condition_bid_pairs (continuations self)) in *.
  assert (Hret : forall r n, exists out,
            all_conditions_sorted r n self = Ok (out, (n + length pairs)%nat)).
  { intros r n. rewrite all_conditions_sorted_eq. fold pairs.
    destruct (sort_reverse_returns key_lt (sort_keys r n pairs)) as [s ->];
      [|simpl; eauto].
    intros x y Hx Hy.
    apply list_elem_of_In, elem_of_lookup_imap in Hx as (i & [c b] & -> & Hi).
    apply list_elem_of_In, elem_of_lookup_imap in Hy as (j & [c' b'] & -> & Hj).
    destruct (decide ((cond_num_val c, bid_key b) = (cond_num_val c', bid_key b')))
      as [E|E].
    - assert (i = j) as <-
        by (eapply (NoDup_map_lookup_inj _ pairs i j (c, b) (c', b')); eauto).
      rewrite Hi in Hj. injection Hj as <- <-. exists false. apply key_lt_refl.
    - by apply key_lt_decided. }
  destruct (Hret (fun _ => 0) 0%nat) as [out1 H1].
  exists out1. intros rnd k. destruct (Hret rnd k) as [out2 H2].
  rewrite H2. do 2 f_equal.
  pose proof (all_conditions_sorted_perm _ _ _ _ _ H1) as [P1 _].
  pose proof (all_conditions_sorted_perm _ _ _ _ _ H2) as [P2 _].
  symmetry. eapply sorted_permutation_unique.
  - eapply all_conditions_sorted_sorted, H1.
  - eapply all_conditions_sorted_sorted, H2.
  - by rewrite <- P1, <- P2.
  - intros x y Hx Hy Hxy Hyx.
    apply (Permutation_in _ (Permutation_sym P1)) in Hx, Hy.
    eapply (NoDup_map_In_inj _ _ x y Hnd Hx Hy).
    unfold emitted_before in *.
    assert (En : cond_num_val (fst x) = cond_num_val (fst y)) by lia.
    assert (Eb : bid_eqb (snd x) (snd y) = true).
    { apply bid_ltb_neither; [destruct Hxy as [?|[_ ?]]|destruct Hyx as [?|[_ ?]]];
        (done || lia). }
    apply bid_eqb_key in Eb. by rewrite En, Eb.
Qed.

(** When no two pairs of the branch share both [num_val] and bid, the
    random numbers play no role: the sequencer returns, and returns the same
    list whatever is drawn. *)
Theorem sequencer_deterministic_without_ties (rnd rnd' : nat -> Z) (k k' : nat)
    (self : Branch) :
  no_ties self ->
  exists out,
    all_conditions_sorted rnd k self
      = Ok (out, (k + length (condition_bid_pairs (continuations self)))%nat)
    /\ all_conditions_sorted rnd' k' self
      = Ok (out, (k' + length (condition_bid_pairs (continuations self)))%nat).
Proof.
  intros Hnd. destruct (all_conditions_sorted_no_ties self Hnd) as [out H].
  exists out. by rewrite !H.
Qed.

Lemma sequencer_deterministic_without_ties_example :
  let c1 := mkCondition (ENum 1) (Some 2) None in
  let c2 := mkCondition (ENum 2) (Some 1) None in
  let self := mkBranch (mkBidHistory [] None)
                [mkBidExpression (bid_1H None) [c1; c2] None] None in
  exists out,
    all_conditions_sorted (fun _ => 0) 0 self = Ok (out, 2%nat)
    /\ all_conditions_sorted (fun n => Z.of_nat n) 3 self = Ok (out, 5%nat).
Proof.
  intros c1 c2 self.
  apply (sequencer_deterministic_without_ties (fun _ => 0) (fun n => Z.of_nat n) 0 3 self).
  unfold no_ties. simpl. repeat constructor; simpl; intuition discriminate.
Defined.

(** ** The logical-suit resolver and the count expressions *)

Lemma resolve_logical_suits_free (b : BinaryExpr) :
  binary_has_logic_suit b = false -> resolve_logical_suits b = Ok b.
Proof.
  induction b using BinaryExpr_mut_ind
    with (P := fun e => forall b', e = EBinary b' ->
                 binary_has_logic_suit b' = false -> resolve_logical_suits b' = Ok b');
    try discriminate.
  - intros b' [= <-]. assumption.
  - simpl. rewrite orb_false_iff. intros [Hl Hr].
    assert (El : match lhs with
                 | EBinary b0 => r ← resolve_logical_suits b0; Ok (EBinary r)
                 | _ => Ok lhs
                 end = Ok lhs).
    { destruct lhs; try done. simpl in Hl. by rewrite (IHb _ eq_refl Hl). }
    assert (Er : match rhs with
                 | EBinary b0 => r ← resolve_logical_suits b0; Ok (EBinary r)
                 | _ => Ok rhs
                 end = Ok rhs).
    { destruct rhs; try done. simpl in Hr. by rewrite (IHb0 _ eq_refl Hr). }
    rewrite El. simpl. rewrite Er. simpl.
    destruct lhs as [| | | |k m c|]; try done;
      destruct rhs as [| | | |k' m' c'|]; try done; simpl in *;
      try (destruct c; try done); try (destruct c'; try done).
Qed.

Lemma resolve_operand_free (e : Expr) :
  has_logic_suit e = false ->
  match e with
  | EBinary b => r ← resolve_logical_suits b; Ok (EBinary r)
  | _ => Ok e
  end = Ok e.
Proof.
  intros H. destruct e; try done. simpl in H. by rewrite resolve_logical_suits_free.
Qed.

(** An expression without any logical suit passes through the resolver
    unchanged; so do [binary] and [cmp] on operands without one. *)
Theorem resolver_keeps_resolved (b : BinaryExpr) :
  binary_has_logic_suit b = false ->
  resolve_logical_suits b = Ok b
  /\ binary (be_lhs b) (be_op b) (be_rhs b) (be_meta b) = Ok b
  /\ cmp (be_lhs b) (be_op b) (be_rhs b) (be_meta b) = Ok b.
Proof.
  intros H. pose proof (resolve_logical_suits_free b H) as E.
  destruct b as [m l o r]. unfold binary, cmp.
  cbn [be_lhs be_op be_rhs be_meta]. by rewrite E.
Qed.

Lemma resolver_keeps_resolved_example :
  let e := range (ENum 12) (ENum 14) None (whole_hand_points None) in
  binary_has_logic_suit e = false /\ resolve_logical_suits e = Ok e.
Proof.
  intros e.
  assert (H : binary_has_logic_suit e = false) by reflexivity.
  split; [exact H|]. exact (proj1 (resolver_keeps_resolved e H)).
Defined.

(** A count over a plain suit is the comparison the range generator builds
    on [SUIT_CARDS(suit)], for each of the four generators, as long as the
    bounds hold no logical suit. *)
Theorem count_expr_plain_suit (s : Suit) (lower upper : Expr) (m mc : option Meta) :
  has_logic_suit lower = false ->
  has_logic_suit upper = false ->
  let cards := EAtom "SUIT_CARDS" mc (ESuit s) in
  count_expr (or_more lower m) (ESuit s) mc = Ok (mkBinaryExpr m cards ">=" lower)
  /\ count_expr (or_fewer upper m) (ESuit s) mc = Ok (mkBinaryExpr m cards "<=" upper)
  /\ count_expr (exact lower m) (ESuit s) mc = Ok (mkBinaryExpr m cards "==" lower)
  /\ count_expr (range lower upper m) (ESuit s) mc
     = Ok (mkBinaryExpr m
             (EBinary (mkBinaryExpr m (whole_hand_points m) ">=" lower)) "and"
             (EBinary (mkBinaryExpr m cards "<=" upper))).
Proof.
  intros Hl Hu cards. unfold count_expr.
  repeat split; apply resolve_logical_suits_free; simpl; by rewrite ?Hl, ?Hu.
Qed.

Lemma count_expr_plain_suit_example :
  count_expr (range (ENum 5) (ENum 6) None) (ESuit (mkSuit None Hearts)) None
  = Ok (mkBinaryExpr None
          (EBinary (mkBinaryExpr None (whole_hand_points None) ">=" (ENum 5))) "and"
          (EBinary (mkBinaryExpr None
                      (EAtom "SUIT_CARDS" None (ESuit (mkSuit None Hearts)))
                      "<=" (ENum 6)))).
Proof.
  exact (proj2 (proj2 (proj2
    (count_expr_plain_suit (mkSuit None Hearts) (ENum 5) (ENum 6) None None
       eq_refl eq_refl)))).
Defined.

(** The expressions [count_expr] returns for a logical suit, with the meta
    of every copy written as the meta it was copied from. *)
Lemma count_expr_split (type : string) (l r lower upper : Expr)
    (ms m mc : option Meta) :
  has_logic_suit lower = false ->
  has_logic_suit upper = false ->
  let suit := ELogicSuit type l r ms in
  let split op bound :=
    mkBinaryExpr m (EBinary (mkBinaryExpr m l op bound)) type
                   (EBinary (mkBinaryExpr m r op bound)) in
  count_expr (or_more lower m) suit mc = Ok (split ">=" lower)
  /\ count_expr (or_fewer upper m) suit mc = Ok (split "<=" upper)
  /\ count_expr (exact lower m) suit mc = Ok (split "==" lower)
  /\ count_expr (range lower upper m) suit mc
     = Ok (mkBinaryExpr m
             (EBinary (mkBinaryExpr m (whole_hand_points m) ">=" lower)) "and"
             (EBinary (split "<=" upper))).
Proof.
  intros Hl Hu suit split.
  assert (Hone : forall op bound, has_logic_suit bound = false ->
            resolve_logical_suits (mkBinaryExpr m (EAtom "SUIT_CARDS" mc suit) op bound)
            = Ok (split op bound)).
  { intros op bound Hb. simpl. rewrite (resolve_operand_free bound Hb). simpl.
    destruct bound; try done. }
  unfold count_expr, or_more, or_fewer, exact, range.
  split; [by apply Hone|]. split; [by apply Hone|]. split; [by apply Hone|].
  assert (Hlow : resolve_logical_suits (mkBinaryExpr m (whole_hand_points m) ">=" lower)
                 = Ok (mkBinaryExpr m (whole_hand_points m) ">=" lower)).
  { apply resolve_logical_suits_free. simpl. by rewrite Hl. }
  change (resolve_logical_suits
            (mkBinaryExpr m (EBinary (mkBinaryExpr m (whole_hand_points m) ">=" lower))
               "and" (EBinary (mkBinaryExpr m (EAtom "SUIT_CARDS" mc suit) "<=" upper))))
    with (lhs ← (r0 ← resolve_logical_suits
                        (mkBinaryExpr m (whole_hand_points m) ">=" lower);
                 Ok (EBinary r0));
          rhs ← (r0 ← resolve_logical_suits
                        (mkBinaryExpr m (EAtom "SUIT_CARDS" mc suit) "<=" upper);
                 Ok (EBinary r0));
          if isinstance_LogicSuit rhs && isinstance_LogicSuit lhs
          then Raise NotImplementedError
          else
            match getattr_child lhs with
            | Some (ELogicSuit type0 ls_lhs ls_rhs _) =>
                Ok (mkBinaryExpr m
                      (EBinary (with_lhs (mkBinaryExpr m lhs "and" rhs) ls_lhs)) type0
                      (EBinary (with_lhs (mkBinaryExpr m lhs "and" rhs) ls_rhs)))
            | _ =>
                match getattr_child rhs with
                | Some (ELogicSuit _ _ _ _) =>
                    l1 ← attr_lhs (getattr_child lhs);
                    l2 ← attr_rhs (getattr_child lhs);
                    type0 ← attr_type (getattr_child lhs);
                    Ok (mkBinaryExpr m
                          (EBinary (with_lhs (mkBinaryExpr m lhs "and" rhs) l1)) type0
                          (EBinary (with_lhs (mkBinaryExpr m lhs "and" rhs) l2)))
                | _ => Ok (mkBinaryExpr m lhs "and" rhs)
                end
            end).
  rewrite Hlow, (Hone "<=" upper Hu). reflexivity.
Qed.

(** A count over a logical suit [l type r]: the comparison that holds the
    subject is replaced by two copies joined by [type], in which the bare
    operands [l] and [r] stand where [SUIT_CARDS(...)] stood.  For [range]
    the rewrite happens inside the upper comparison only; the lower
    comparison on the whole-hand points is kept once.  The copies are made
    by [deepcopy], so the result is stated up to the identity of the meta
    objects. *)
Theorem count_expr_logic_suit (type : string) (l r lower upper : Expr)
    (ms m mc : option Meta) :
  has_logic_suit lower = false ->
  has_logic_suit upper = false ->
  let suit := ELogicSuit type l r ms in
  let split op bound :=
    mkBinaryExpr None (EBinary (mkBinaryExpr None l op bound)) type
                      (EBinary (mkBinaryExpr None r op bound)) in
  same_up_to_meta (count_expr (or_more lower m) suit mc) (split ">=" lower)
  /\ same_up_to_meta (count_expr (or_fewer upper m) suit mc) (split "<=" upper)
  /\ same_up_to_meta (count_expr (exact lower m) suit mc) (split "==" lower)
  /\ same_up_to_meta (count_expr (range lower upper m) suit mc)
       (mkBinaryExpr None
          (EBinary (mkBinaryExpr None (whole_hand_points None) ">=" lower)) "and"
          (EBinary (split "<=" upper))).
Proof.
  intros Hl Hu suit split.
  destruct (count_expr_split type l r lower upper ms m mc Hl Hu) as (H1 & H2 & H3 & H4).
  unfold same_up_to_meta. fold suit in H1, H2, H3, H4.
  rewrite H1, H2, H3, H4. repeat split; eexists; (split; [reflexivity|reflexivity]).
Qed.

Lemma count_expr_logic_suit_example :
  let H := ESuit (mkSuit None Hearts) in
  let S := ESuit (mkSuit None Spades) in
  same_up_to_meta
    (count_expr (range (ENum 5) (ENum 6) (Some 1%nat)) (and_suit H S (Some 2%nat))
                (Some 3%nat))
    (mkBinaryExpr None
       (EBinary (mkBinaryExpr None (whole_hand_points None) ">=" (ENum 5))) "and"
       (EBinary (mkBinaryExpr None
                   (EBinary (mkBinaryExpr None H "<=" (ENum 6))) "and"
                   (EBinary (mkBinaryExpr None S "<=" (ENum 6)))))).
Proof.
  intros H S.
  exact (proj2 (proj2 (proj2
    (count_expr_logic_suit "and" H S (ENum 5) (ENum 6) (Some 2%nat) (Some 1%nat)
       (Some 3%nat) eq_refl eq_refl)))).
Defined.

Lemma attr_chain_raises (v : option Expr) (k : Expr -> Expr -> string -> outcome BinaryExpr) :
  (forall t a b x, v <> Some (ELogicSuit t a b x)) ->
  (l1 ← attr_lhs v; l2 ← attr_rhs v; type ← attr_type v; k l1 l2 type)
  = Raise AttributeError.
Proof.
  intros H. destruct v as [[| | |t a b x| |]|]; simpl; try done. by destruct (H t a b x).
Qed.

Lemma resolve_logical_suits_errors (b : BinaryExpr) (e : PyError) :
  resolve_logical_suits b = Raise e -> e = NotImplementedError \/ e = AttributeError.
Proof.
  revert e. induction b using BinaryExpr_mut_ind
    with (P := fun x => forall b' e, x = EBinary b' -> resolve_logical_suits b' = Raise e ->
                 e = NotImplementedError \/ e = AttributeError);
    try discriminate.
  - intros b' e [= <-]. apply IHb.
  - intros e. simpl.
    destruct (match lhs with
              | EBinary b0 => r ← resolve_logical_suits b0; Ok (EBinary r)
              | _ => Ok lhs
              end) as [lhs'| |] eqn:El; simpl; [| |done].
    2: { intros [= <-]. destruct lhs; try discriminate.
         destruct (resolve_logical_suits b) eqn:Eb; simpl in El; try discriminate.
         injection El as <-. by eapply IHb. }
    destruct (match rhs with
              | EBinary b0 => r ← resolve_logical_suits b0; Ok (EBinary r)
              | _ => Ok rhs
              end) as [rhs'| |] eqn:Er; simpl; [| |done].
    2: { intros [= <-]. destruct rhs; try discriminate.
         destruct (resolve_logical_suits b) eqn:Eb; simpl in Er; try discriminate.
         injection Er as <-. by eapply IHb0. }
    destruct (isinstance_LogicSuit rhs' && isinstance_LogicSuit lhs');
      [intros [= <-]; by left|].
    destruct (getattr_child lhs') as [c|] eqn:Ec.
    + destruct c; try done;
        (destruct (getattr_child rhs') as [[]|]; try done;
         rewrite attr_chain_raises by (intros; discriminate); intros [= <-]; by right).
    + destruct (getattr_child rhs') as [[]|]; try done.
      rewrite attr_chain_raises by (intros; discriminate). intros [= <-]. by right.
Qed.

(** The resolver raises nothing but [NotImplementedError] and
    [AttributeError], and it raises [NotImplementedError] when both operands
    are logical suits themselves. *)
Theorem resolver_error_kinds (b : BinaryExpr) (e : PyError) :
  resolve_logical_suits b = Raise e ->
  (e = NotImplementedError \/ e = AttributeError)
  /\ forall meta op t l r ms t' l' r' ms',
       resolve_logical_suits
         (mkBinaryExpr meta (ELogicSuit t l r ms) op (ELogicSuit t' l' r' ms'))
       = Raise NotImplementedError.
Proof. intros H. split; [by eapply resolve_logical_suits_errors|done]. Qed.

Lemma resolver_error_kinds_example :
  let H := ESuit (mkSuit None Hearts) in
  let S := ESuit (mkSuit None Spades) in
  resolve_logical_suits
    (mkBinaryExpr None (or_suit H S None) "==" (and_suit H S None))
  = Raise NotImplementedError
  /\ (NotImplementedError = NotImplementedError \/ NotImplementedError = AttributeError).
Proof.
  intros H S.
  assert (E : resolve_logical_suits
                (mkBinaryExpr None (or_suit H S None) "==" (and_suit H S None))
              = Raise NotImplementedError) by reflexivity.
  split; [exact E|]. exact (proj1 (resolver_error_kinds _ _ E)).
Defined.

(** ** Conditions *)

Lemma reduce_and_has_logic_suit (meta : option Meta) (tail : list Expr) (head : Expr) :
  has_logic_suit (reduce_and meta tail head)
  = has_logic_suit head || existsb has_logic_suit tail.
Proof.
  unfold reduce_and. revert head. induction tail as [|x tail IH]; intros head; simpl.
  - by rewrite orb_false_r.
  - rewrite IH. simpl. by rewrite orb_assoc.
Qed.

(** [prioritized] and [unprioritized] raise ([ValueError]) exactly when no
    condition is given; otherwise the condition they build carries the given
    priority and [meta], and holds a logical suit only if one of the given
    expressions does. *)
Theorem prioritized_result (conditions : list Expr) (p : Z) (meta : option Meta) :
  (prioritized conditions p meta = Raise ValueError <-> conditions = [])
  /\ (unprioritized conditions meta = Raise ValueError <-> conditions = [])
  /\ (forall cond, prioritized conditions p meta = Ok cond ->
        priority cond = Some p /\ cond_meta cond = meta
        /\ has_logic_suit (expr cond) = existsb has_logic_suit conditions)
  /\ (forall cond, unprioritized conditions meta = Ok cond ->
        priority cond = None /\ cond_meta cond = meta
        /\ has_logic_suit (expr cond) = existsb has_logic_suit conditions).
Proof.
  destruct conditions as [|head tail]; simpl.
  - split; [done|]. split; [done|]. split; intros cond; discriminate.
  - split; [done|]. split; [done|].
    split; intros cond [= <-]; simpl; (split; [done|]); (split; [done|]);
      apply reduce_and_has_logic_suit.
Qed.

(** ** [_find] *)

(** [_find] returns an element exactly when it is the first one of the
    list that satisfies the predicate. *)
Theorem _find_first_match {A D : Type} (iterable : list A) (predicate : A -> bool)
    (default : option D) (el : A) :
  _find iterable predicate default = Ok (inl el)
  <-> exists before after,
        iterable = before ++ el :: after
        /\ predicate el = true
        /\ forall x, In x before -> predicate x = false.
Proof.
  induction iterable as [|a l IH]; simpl.
  - split.
    + destruct default; discriminate.
    + intros ([|x before] & after & E & _); discriminate.
  - destruct (predicate a) eqn:Ea.
    + split.
      * intros [= <-]. exists [], l. repeat split; [done|]. intros x [].
      * intros ([|x before] & after & E & Hel & Hb); simpl in E.
        -- by injection E as <- _.
        -- injection E as <- _. rewrite (Hb a) in Ea; [done|by left].
    + rewrite IH. split.
      * intros (before & after & -> & Hel & Hb).
        exists (a :: before), after. repeat split; [done|].
        intros x [<-|Hx]; auto.
      * intros ([|x before] & after & E & Hel & Hb); simpl in E.
        -- injection E as <- _. congruence.
        -- injection E as <- ->. exists before, after. repeat split; [done|].
           intros y Hy. apply Hb. by right.
Qed.

(** [_find] raises, and then [ValueError], exactly when no default is
    supplied and no element satisfies the predicate; with no match and a
    default it returns the default. *)
Theorem _find_raises_iff {A D : Type} (iterable : list A) (predicate : A -> bool)
    (default : option D) (e : PyError) :
  (_find iterable predicate default = Raise e
   <-> e = ValueError /\ default = None
       /\ forall x, In x iterable -> predicate x = false)
  /\ (forall d, _find iterable predicate default = Ok (inr d)
                <-> default = Some d /\ forall x, In x iterable -> predicate x = false).
Proof.
  induction iterable as [|a l [IH1 IH2]]; simpl.
  - split.
    + destruct default; split; try discriminate.
      * intros (_ & [=] & _).
      * intros [= <-]. repeat split. intros x [].
      * by intros (-> & _).
    + intros d. destruct default; split; try discriminate.
      * intros [= <-]. split; [done|]. intros x [].
      * by intros ([= <-] & _).
      * intros ([=] & _).
  - destruct (predicate a) eqn:Ea.
    + split.
      * split; [discriminate|]. intros (_ & _ & H). rewrite (H a) in Ea; [done|by left].
      * intros d. split; [discriminate|].
        intros (_ & H). rewrite (H a) in Ea; [done|by left].
    + split.
      * rewrite IH1. split.
        -- intros (-> & -> & H). repeat split. intros x [<-|Hx]; auto.
        -- intros (-> & -> & H). repeat split. intros x Hx. apply H. by right.
      * intros d. rewrite IH2. split.
        -- intros (-> & H). split; [done|]. intros x [<-|Hx]; auto.
        -- intros (-> & H). split; [done|]. intros x Hx. apply H. by right.
Qed.

(** ** The tree assembler *)

Lemma _find_ext {A D : Type} (iterable : list A) (p q : A -> bool) (default : option D) :
  (forall x, p x = q x) -> _find iterable p default = _find iterable q default.
Proof.
  intros H. induction iterable as [|a l IH]; simpl; [done|]. by rewrite H, IH.
Qed.

Lemma find_continuation_key (branch : Branch) (rest : list Branch) (c c' : BidExpression) :
  bid_key (prefix c) = bid_key (prefix c') ->
  find_continuation branch rest c = find_continuation branch rest c'.
Proof. intros Hk. apply _find_ext. intros b. by apply continues_key. Qed.

Section LoopFacts.
Context (recur : nat -> Branch -> outcome (list IrBranch * nat)).
Context (branch : Branch) (rest : list Branch).

Lemma continuation_loop_raises (P : PyError -> Prop) (conts : list BidExpression)
    (init : outcome (gmap (Z * Denomination) (list IrBranch) * nat)) (e : PyError) :
  (forall k g e', recur k g = Raise e' -> P e') ->
  (forall e', init = Raise e' -> P e') ->
  continuation_loop recur branch rest conts init = Raise e -> P e.
Proof.
  intros Hrec. revert init. induction conts as [|c conts IH]; simpl; intros init Hinit.
  - apply Hinit.
  - apply IH. intros e'. destruct init as [[d k]| |]; simpl; try done.
    + destruct (_find_default_returns rest (continues branch c) VNone) as [[g|v] E];
        unfold find_continuation; rewrite E; simpl; [|done].
      destruct (recur k g) as [[compiled k1]| |] eqn:Er; simpl; try done.
      intros [= <-]. by eapply Hrec.
    + intros [= <-]. by apply Hinit.
Qed.

Lemma continuation_loop_keys (conts : list BidExpression)
    (d d' : gmap (Z * Denomination) (list IrBranch)) (k k' : nat) :
  continuation_loop recur branch rest conts (Ok (d, k)) = Ok (d', k') ->
  forall key, is_Some (d !! key) \/ (exists c, In c conts /\ bid_key (prefix c) = key) ->
              is_Some (d' !! key).
Proof.
  revert d k. induction conts as [|c conts IH]; simpl; intros d k.
  - intros [= <- <-] key [H|(c & [] & _)]. done.
  - assert (Hnext : forall v key,
              is_Some (d !! key)
              \/ (exists c0, (c = c0 \/ In c0 conts) /\ bid_key (prefix c0) = key) ->
              is_Some (<[bid_key (prefix c) := v]> d !! key)
              \/ (exists c0, In c0 conts /\ bid_key (prefix c0) = key)).
    { intros v key Hkey.
      destruct (decide (bid_key (prefix c) = key)) as [<-|Hne].
      - left. rewrite lookup_insert_eq. eauto.
      - destruct Hkey as [H|(c0 & [<-|Hc0] & Hk)]; [|done|eauto].
        left. by rewrite lookup_insert_ne. }
    destruct (find_continuation branch rest c) as [[g|v]| |] eqn:E; simpl.
    + destruct (recur k g) as [[compiled k1]| |] eqn:Er; simpl.
      * intros H key Hkey. eapply IH; [exact H|]. by apply Hnext.
      * intros H. by apply continuation_loop_failed in H.
      * intros H. by apply continuation_loop_failed in H.
    + intros H key Hkey. eapply IH; [exact H|]. by apply Hnext.
    + intros H. by apply continuation_loop_failed in H.
    + intros H. by apply continuation_loop_failed in H.
Qed.

(** A continuation that finds the rule group [g] leaves under its bid a
    list that the recursive call returned for [g]. *)
Lemma continuation_loop_hit (conts : list BidExpression) (c : BidExpression) (g : Branch)
    (d d' : gmap (Z * Denomination) (list IrBranch)) (k k' : nat) :
  find_continuation branch rest c = Ok (inl g) ->
  (exists compiled k1 k2, recur k1 g = Ok (compiled, k2)
                          /\ d !! bid_key (prefix c) = Some compiled)
  \/ In c conts ->
  continuation_loop recur branch rest conts (Ok (d, k)) = Ok (d', k') ->
  exists compiled k1 k2, recur k1 g = Ok (compiled, k2)
                         /\ d' !! bid_key (prefix c) = Some compiled.
Proof.
  intros Hfind. revert d k.
  induction conts as [|c0 conts IH]; simpl; intros d k Hin.
  - intros [= <- <-]. by destruct Hin.
  - destruct (decide (bid_key (prefix c0) = bid_key (prefix c))) as [Hk|Hk].
    + rewrite (find_continuation_key branch rest c0 c Hk), Hfind. simpl.
      destruct (recur k g) as [[compiled k1]| |] eqn:Er; simpl.
      * apply IH. left. exists compiled, k, k1. split; [done|].
        rewrite Hk. apply lookup_insert_eq.
      * intros H. by apply continuation_loop_failed in H.
      * intros H. by apply continuation_loop_failed in H.
    + assert (Hin' : forall v,
                (exists compiled k1 k2, recur k1 g = Ok (compiled, k2)
                   /\ <[bid_key (prefix c0) := v]> d !! bid_key (prefix c) = Some compiled)
                \/ In c conts).
      { intros v. destruct Hin as [(compiled & k1 & k2 & Hr & Hd)|[->|Hc]];
          [|done|by right].
        left. exists compiled, k1, k2. by rewrite lookup_insert_ne. }
      destruct (find_continuation branch rest c0) as [[b|v]| |] eqn:E; simpl.
      * destruct (recur k b) as [[compiled k1]| |] eqn:Er; simpl.
        -- apply IH, Hin'.
        -- intros H. by apply continuation_loop_failed in H.
        -- intros H. by apply continuation_loop_failed in H.
      * apply IH, Hin'.
      * intros H. by apply continuation_loop_failed in H.
      * intros H. by apply continuation_loop_failed in H.
Qed.
End LoopFacts.

Lemma build_branch_raises (fuel : nat) (rnd : nat -> Z) (k : nat) (branch : Branch)
    (rest : list Branch) (e : PyError) :
  build_branch fuel rnd k branch rest = Raise e -> e = TypeError.
Proof.
  revert k branch e. induction fuel as [|fuel IH]; intros k branch e; [done|].
  rewrite build_branch_S.
  destruct (continuation_loop _ _ _ _ _) as [[d k1]| |] eqn:Eloop; simpl; try done.
  - destruct (all_conditions_sorted rnd k1 branch) as [[sorted k2]| |] eqn:Esort;
      simpl; try done.
    + destruct (emit_loop_returns d sorted []) as [nodes ->]; [|done].
      intros c b Hin. apply all_conditions_sorted_perm in Esort as [Hperm _].
      apply (Permutation_in _ (Permutation_sym Hperm)) in Hin.
      apply condition_bid_pairs_In in Hin as (be & Hbe & _ & ->).
      eapply continuation_loop_keys; [exact Eloop|]. right. eauto.
    + intros [= <-]. by eapply all_conditions_sorted_raises.
  - intros [= <-].
    eapply (continuation_loop_raises _ _ _ (fun e => e = TypeError)); [| |exact Eloop].
    + intros k0 g e'. apply IH.
    + done.
Qed.



Lemma build_branch_children (fuel : nat) (rnd : nat -> Z) (k k' : nat)
    (branch : Branch) (rest : list Branch) (nodes : list IrBranch)
    (c : BidExpression) (g : Branch) :
  build_branch (S fuel) rnd k branch rest = Ok (nodes, k') ->
  In c (continuations branch) ->
  find_continuation branch rest c = Ok (inl g) ->
  exists compiled k1 k2,
    build_branch fuel rnd k1 g rest = Ok (compiled, k2)
    /\ (forall cond, In cond (conditions c) ->
                     In (new_branch cond (prefix c) compiled) nodes)
    /\ (forall node stmt,
          In node nodes -> ir_bids node = [stmt] ->
          (stmt_level stmt, suit_name (stmt_color stmt)) = bid_key (prefix c) ->
          ir_children node = compiled).
Proof.
  rewrite build_branch_S. intros H Hc Hfind.
  destruct (continuation_loop _ _ _ _ _) as [[d k1]| |] eqn:Eloop; simpl in H; try done.
  destruct (all_conditions_sorted rnd k1 branch) as [[sorted k2]| |] eqn:Esort;
    simpl in H; try done.
  destruct (emit_loop d sorted (Ok [])) as [result| |] eqn:Eemit; simpl in H; try done.
  injection H as <- <-.
  apply continuation_loop_hit with (c := c) (g := g) in Eloop
      as (compiled & n1 & n2 & Hrec & Hd); [|exact Hfind|by right].
  exists compiled, n1, n2. split; [exact Hrec|].
  apply all_conditions_sorted_perm in Esort as [Hperm _].
  apply emit_loop_nodes in Eemit as (emitted & -> & HF). simpl. split.
  - intros cond Hcond.
    assert (Hin : In (cond, prefix c) sorted).
    { apply (Permutation_in _ Hperm), condition_bid_pairs_In. eauto. }
    destruct (Forall2_In_l _ _ _ _ HF Hin) as (node & Hnode & ch & Hch & ->).
    rewrite Hd in Hch. by injection Hch as <-.
  - intros node stmt Hnode Hbids Hkey.
    destruct (Forall2_In_r _ _ _ _ HF Hnode) as ([cond bid] & _ & ch & Hch & ->).
    simpl in *. injection Hbids as <-. simpl in Hkey.
    change (bid_key bid = bid_key (prefix c)) in Hkey.
    rewrite Hkey, Hd in Hch. by injection Hch as <-.
Qed.



Lemma continuation_loop_deterministic
    (recur : (nat -> Z) -> nat -> Branch -> outcome (list IrBranch * nat))
    (branch : Branch) (rest : list Branch) (conts : list BidExpression) :
  (forall c g, In c conts -> find_continuation branch rest c = Ok (inl g) ->
     exists compiled, forall rnd k, exists k', recur rnd k g = Ok (compiled, k')) ->
  forall d0, exists d,
    (forall rnd k, exists k',
       continuation_loop (recur rnd) branch rest conts (Ok (d0, k)) = Ok (d, k'))
    /\ (forall key, is_Some (d0 !! key)
                    \/ (exists c, In c conts /\ bid_key (prefix c) = key) ->
                    is_Some (d !! key)).
Proof.
  induction conts as [|c conts IH]; intros Hrec d0.
  - exists d0. split; [intros; simpl; eauto|]. intros key [H|(c & [] & _)]. done.
  - assert (Hnext : forall v, exists d,
              (forall rnd k, exists k',
                 continuation_loop (recur rnd) branch rest conts
                   (Ok (<[bid_key (prefix c) := v]> d0, k)) = Ok (d, k'))
              /\ (forall key, is_Some (d0 !! key)
                              \/ (exists c0, In c0 (c :: conts)
                                             /\ bid_key (prefix c0) = key) ->
                              is_Some (d !! key))).
    { intros v.
      destruct (IH (fun c0 g Hc0 => Hrec c0 g (or_intror Hc0))
                   (<[bid_key (prefix c) := v]> d0)) as (d & Hd & Hkeys).
      exists d. split; [exact Hd|]. intros key Hkey. apply Hkeys.
      destruct (decide (bid_key (prefix c) = key)) as [<-|Hne].
      - left. rewrite lookup_insert_eq. eauto.
      - destruct Hkey as [H|(c0 & [<-|Hc0] & Hk)]; [|done|eauto].
        left. by rewrite lookup_insert_ne. }
    destruct (_find_default_returns rest (continues branch c) VNone) as [[g|v] E].
    + destruct (Hrec c g (or_introl eq_refl) E) as [compiled Hg].
      destruct (Hnext compiled) as (d & Hd & Hkeys).
      exists d. split; [|exact Hkeys]. intros rnd k. simpl.
      unfold find_continuation. rewrite E. simpl.
      destruct (Hg rnd k) as [k1 ->]. simpl. apply Hd.
    + destruct (Hnext []) as (d & Hd & Hkeys).
      exists d. split; [|exact Hkeys]. intros rnd k. simpl.
      unfold find_continuation. rewrite E. simpl. apply Hd.
Qed.

Lemma build_branch_no_ties_step (rest : list Branch) (fuel : nat) (branch : Branch) :
  no_ties branch ->
  (forall c g, In c (continuations branch) ->
     find_continuation branch rest c = Ok (inl g) ->
     exists compiled, forall rnd k, exists k',
       build_branch fuel rnd k g rest = Ok (compiled, k')) ->
  exists nodes, forall rnd k, exists k',
    build_branch (S fuel) rnd k branch rest = Ok (nodes, k').
Proof.
  intros Hbranch Hrec.
  destruct (continuation_loop_deterministic
              (fun rnd k b => build_branch fuel rnd k b rest)
              branch rest (continuations branch) Hrec ∅) as (d & Hd & Hkeys).
  destruct (all_conditions_sorted_no_ties branch Hbranch) as [sorted Hsorted].
  destruct (emit_loop_returns d sorted []) as [nodes Hnodes].
  { intros c b Hin.
    pose proof (Hsorted (fun _ => 0) 0%nat) as E.
    apply all_conditions_sorted_perm in E as [Hperm _].
    apply (Permutation_in _ (Permutation_sym Hperm)) in Hin.
    apply condition_bid_pairs_In in Hin as (be & Hbe & _ & ->).
    apply Hkeys. right. eauto. }
  exists nodes. intros rnd k. rewrite build_branch_S.
  destruct (Hd rnd k) as [k1 ->]. simpl. rewrite Hsorted. simpl.
  rewrite Hnodes. simpl. eauto.
Qed.

Lemma build_branch_no_ties (rest : list Branch) (fuel : nat) :
  (forall b, In b rest -> no_ties b) ->
  forall branch,
    no_ties branch ->
    (max_prefix_length rest <= length (sequence (branch_prefix branch)) + fuel)%nat ->
    exists nodes, forall rnd k, exists k',
      build_branch (S fuel) rnd k branch rest = Ok (nodes, k').
Proof.
  intros Hrest. induction fuel as [|fuel IH]; intros branch Hbranch Hlen;
    apply build_branch_no_ties_step; try done;
    intros c g Hc Hfind; apply _find_found in Hfind as [Hg Hcont];
    pose proof (continues_length _ _ _ Hcont) as Hgl;
    pose proof (max_prefix_length_In _ _ Hg) as Hmax.
  - lia.
  - apply IH; [by apply Hrest|lia].
Qed.

(** ** Histories as objects *)

Lemma history_add_store (h h' : gmap Store.loc (list Bid))
    (self new : Store.BidHistoryObj) (b : Bid) :
  Store.history_add h self (VBid b) = Ok (new, h') ->
  (Store.sequence_ref new ∉ dom h)
  /\ h' !!! Store.sequence_ref new = h !!! Store.sequence_ref self ++ [b]
  /\ (forall l, l ∈ dom h -> h' !!! l = h !!! l)
  /\ dom h' = {[Store.sequence_ref new]} ∪ dom h
  /\ Store.obj_meta new = Store.obj_meta self.
Proof.
  unfold Store.history_add, Store.list_copy, Store.list_append.
  set (l' := fresh (dom h)). intros [= <- <-]. simpl.
  assert (Hfresh : l' ∉ dom h) by apply is_fresh.
  split; [done|]. split; [|split; [|split; [|done]]].
  - rewrite lookup_total_insert_eq. by rewrite lookup_total_insert_eq.
  - intros l Hl. assert (l' <> l) by (intros E; by rewrite E in Hfresh).
    by rewrite !lookup_total_insert_ne.
  - rewrite !dom_insert_L. apply set_eq. intros x.
    rewrite !elem_of_union, !elem_of_singleton. tauto.
Qed.

(** Histories built by [+] never share their list: two extensions of one
    history refer to different lists, an extension of an extension leaves
    the intermediate list as it was, and the list of the history they all
    start from is never changed. *)
Theorem history_add_never_aliases (h : gmap Store.loc (list Bid))
    (self : Store.BidHistoryObj) (a b : Bid) :
  Store.sequence_ref self ∈ dom h ->
  exists n1 h1 n2 h2 n3 h3,
    Store.history_add h self (VBid a) = Ok (n1, h1)
    /\ Store.history_add h1 self (VBid b) = Ok (n2, h2)
    /\ Store.history_add h2 n1 (VBid b) = Ok (n3, h3)
    /\ Store.sequence_ref n1 <> Store.sequence_ref n2
    /\ Store.sequence_ref n3 <> Store.sequence_ref n1
    /\ Store.sequence_ref n3 <> Store.sequence_ref n2
    /\ h3 !!! Store.sequence_ref self = h !!! Store.sequence_ref self
    /\ h3 !!! Store.sequence_ref n1 = h !!! Store.sequence_ref self ++ [a]
    /\ h3 !!! Store.sequence_ref n2 = h !!! Store.sequence_ref self ++ [b]
    /\ h3 !!! Store.sequence_ref n3 = h !!! Store.sequence_ref self ++ [a; b].
Proof.
  intros Hself.
  destruct (Store.history_add h self (VBid a)) as [[n1 h1]| |] eqn:E1; try done.
  destruct (Store.history_add h1 self (VBid b)) as [[n2 h2]| |] eqn:E2; try done.
  destruct (Store.history_add h2 n1 (VBid b)) as [[n3 h3]| |] eqn:E3; try done.
  destruct (history_add_store _ _ _ _ _ E1) as (F1 & V1 & O1 & D1 & _).
  destruct (history_add_store _ _ _ _ _ E2) as (F2 & V2 & O2 & D2 & _).
  destruct (history_add_store _ _ _ _ _ E3) as (F3 & V3 & O3 & D3 & _).
  exists n1, h1, n2, h2, n3, h3.
  assert (In1 : Store.sequence_ref n1 ∈ dom h1)
    by (rewrite D1; apply elem_of_union_l, elem_of_singleton; reflexivity).
  assert (Is1 : Store.sequence_ref self ∈ dom h1)
    by (rewrite D1; apply elem_of_union_r; exact Hself).
  assert (In2 : Store.sequence_ref n2 ∈ dom h2)
    by (rewrite D2; apply elem_of_union_l, elem_of_singleton; reflexivity).
  assert (In12 : Store.sequence_ref n1 ∈ dom h2)
    by (rewrite D2; apply elem_of_union_r; exact In1).
  assert (Is2 : Store.sequence_ref self ∈ dom h2)
    by (rewrite D2; apply elem_of_union_r; exact Is1).
  split; [done|]. split; [done|]. split; [done|].
  split; [intros E; by rewrite E in In1|].
  split; [intros E; by rewrite E in F3|].
  split; [intros E; by rewrite E in F3|].
  split; [by rewrite (O3 _ Is2), (O2 _ Is1), (O1 _ Hself)|].
  split; [by rewrite (O3 _ In12), (O2 _ In1), V1|].
  split; [by rewrite (O3 _ In2), V2, (O1 _ Hself)|].
  rewrite V3, (O2 _ In1), V1, <- app_assoc. done.
Qed.

Lemma history_add_never_aliases_example :
  let h : gmap Store.loc (list Bid) := {[ 0%nat := [bid_1H None] ]} in
  let self := Store.mkBidHistoryObj 0%nat None in
  exists n1 h1 n2 h2,
    Store.history_add h self (VBid bid_1S) = Ok (n1, h1)
    /\ Store.history_add h1 self (VBid (bid_1H None)) = Ok (n2, h2)
    /\ Store.sequence_ref n1 <> Store.sequence_ref n2.
Proof.
  intros h self.
  assert (Hdom : Store.sequence_ref self ∈ dom h).
  { apply elem_of_dom. exists [bid_1H None]. reflexivity. }
  destruct (history_add_never_aliases h self bid_1S (bid_1H None) Hdom)
    as (n1 & h1 & n2 & h2 & _ & _ & E1 & E2 & _ & Hne & _).
  exists n1, h1, n2, h2. auto.
Defined.

(** * Rule groups as the transformer builds them

    [build_branch_objects] is [build_branch] on rule groups whose prefix
    records the container of its [sequence].  From a prefix that holds a
    list it behaves as [build_branch] does on the rule groups whose prefixes
    hold lists; from a prefix that holds a tuple the first search raises. *)

Lemma build_branch_objects_S (fuel : nat) (rnd : nat -> Z) (k : nat)
    (branch : BranchObject) (rest : list BranchObject) :
  build_branch_objects (S fuel) rnd k branch rest =
    ('(continuation_dict, k) ←
        children_loop (find_object branch rest)
                      (fun k b => build_branch_objects fuel rnd k b rest)
                      (object_continuations branch) (Ok (∅, k));
     '(sorted, k) ← all_conditions_sorted rnd k (branch_of branch);
     result ← emit_loop continuation_dict sorted (Ok []);
     Ok (result, k)).
Proof. reflexivity. Qed.

Lemma continuation_loop_children
    (recur : nat -> Branch -> outcome (list IrBranch * nat))
    (branch : Branch) (rest : list Branch) (conts : list BidExpression)
    (init : outcome (gmap (Z * Denomination) (list IrBranch) * nat)) :
  continuation_loop recur branch rest conts init
  = children_loop (find_continuation branch rest) recur conts init.
Proof. reflexivity. Qed.

(** The two loops do the same when the searches find corresponding rule
    groups and the recursive calls agree on them. *)
Lemma children_loop_sim {G H : Type}
    (find_w : BidExpression -> outcome (G + PyValue))
    (recur_w : nat -> G -> outcome (list IrBranch * nat))
    (find_n : BidExpression -> outcome (H + PyValue))
    (recur_n : nat -> H -> outcome (list IrBranch * nat))
    (conts : list BidExpression)
    (init : outcome (gmap (Z * Denomination) (list IrBranch) * nat)) :
  (forall c, In c conts ->
     match find_w c with
     | Ok (inl g) => exists h, find_n c = Ok (inl h) /\ forall k, recur_w k g = recur_n k h
     | Ok (inr v) => exists v', find_n c = Ok (inr v')
     | Raise e => find_n c = Raise e
     | OutOfFuel => find_n c = OutOfFuel
     end) ->
  children_loop find_w recur_w conts init = children_loop find_n recur_n conts init.
Proof.
  revert init. induction conts as [|c conts IH]; simpl; intros init Hsim; [done|].
  unfold children_loop in *. simpl.
  rewrite IH by (intros c' Hc'; apply Hsim; by right). f_equal.
  destruct init as [[d k]| |]; simpl; try done.
  specialize (Hsim c (or_introl eq_refl)).
  destruct (find_w c) as [[g|v]| |]; simpl.
  - destruct Hsim as (h & -> & Hrec). simpl. by rewrite Hrec.
  - by destruct Hsim as (v' & ->).
  - by rewrite Hsim.
  - by rewrite Hsim.
Qed.

Lemma children_loop_raise {G : Type}
    (find : BidExpression -> outcome (G + PyValue))
    (recur : nat -> G -> outcome (list IrBranch * nat))
    (conts : list BidExpression) (e : PyError) :
  children_loop find recur conts (Raise e) = Raise e.
Proof. unfold children_loop. induction conts as [|c conts IH]; simpl; done. Qed.

Lemma children_loop_find_raises {G : Type}
    (find : BidExpression -> outcome (G + PyValue))
    (recur : nat -> G -> outcome (list IrBranch * nat))
    (c : BidExpression) (conts : list BidExpression)
    (d : gmap (Z * Denomination) (list IrBranch)) (k : nat) (e : PyError) :
  find c = Raise e -> children_loop find recur (c :: conts) (Ok (d, k)) = Raise e.
Proof.
  intros H. unfold children_loop. simpl. rewrite H. simpl.
  apply (children_loop_raise find recur).
Qed.

Lemma HistoryObject_add_list (self : HistoryObject) (b : Bid) :
  container self = ListContainer ->
  HistoryObject_add self (VBid b)
  = Ok (mkHistoryObject ListContainer (history_append (history self) b)).
Proof. intros H. unfold HistoryObject_add. by rewrite H. Qed.

Lemma HistoryObject_add_tuple (self : HistoryObject) (b : Bid) :
  container self = TupleContainer ->
  HistoryObject_add self (VBid b) = Raise AttributeError.
Proof. intros H. unfold HistoryObject_add. by rewrite H. Qed.

Lemma is_list_prefixed_true (o : BranchObject) :
  is_list_prefixed o = true <-> container (object_prefix o) = ListContainer.
Proof. unfold is_list_prefixed. by destruct (container (object_prefix o)). Qed.

Lemma _find_raising_pure {A D : Type} (iterable : list A) (predicate : A -> outcome bool)
    (q : A -> bool) (default : option D) :
  (forall el, predicate el = Ok (q el)) ->
  _find_raising iterable predicate default = _find iterable q default.
Proof.
  intros H. induction iterable as [|el l IH]; simpl; [done|].
  rewrite H. simpl. by rewrite IH.
Qed.

(** From a branch whose prefix holds a list the search returns what
    [_find] returns for the equality with the extended prefix. *)
Lemma find_object_eq (o : BranchObject) (rest : list BranchObject) (c : BidExpression) :
  container (object_prefix o) = ListContainer ->
  find_object o rest c
  = _find rest
      (fun b => HistoryObject_eqb (object_prefix b)
                  (mkHistoryObject ListContainer
                     (history_append (history (object_prefix o)) (prefix c))))
      (Some VNone).
Proof.
  intros Ho. unfold find_object. apply _find_raising_pure. intros b.
  by rewrite (HistoryObject_add_list _ _ Ho).
Qed.

(** From a branch whose prefix holds a list the search only ever finds
    rule groups whose prefix holds a list, and finds them by the equality of
    the sequences and the metas. *)
Lemma find_object_list (o : BranchObject) (rest : list BranchObject) (c : BidExpression) :
  container (object_prefix o) = ListContainer ->
  match find_object o rest c with
  | Ok (inl g) =>
      is_list_prefixed g = true
      /\ find_continuation (branch_of o) (list_groups rest) c = Ok (inl (branch_of g))
  | Ok (inr v) => find_continuation (branch_of o) (list_groups rest) c = Ok (inr v)
  | _ => False
  end.
Proof.
  intros Ho. rewrite (find_object_eq _ _ _ Ho).
  unfold find_continuation, list_groups.
  induction rest as [|g rest IH]; simpl; [done|].
  assert (Eg : HistoryObject_eqb (object_prefix g)
                 (mkHistoryObject ListContainer
                    (history_append (history (object_prefix o)) (prefix c)))
               = is_list_prefixed g && continues (branch_of o) c (branch_of g)).
  { unfold HistoryObject_eqb, is_list_prefixed. simpl.
    by destruct (container (object_prefix g)). }
  rewrite Eg. destruct (is_list_prefixed g) eqn:El; simpl; [|exact IH].
  destruct (continues (branch_of o) c (branch_of g)); [done|exact IH].
Qed.

Lemma build_branch_objects_list (fuel : nat) (rnd : nat -> Z) (rest : list BranchObject) :
  forall (k : nat) (o : BranchObject),
    container (object_prefix o) = ListContainer ->
    build_branch_objects fuel rnd k o rest
    = build_branch fuel rnd k (branch_of o) (list_groups rest).
Proof.
  induction fuel as [|fuel IH]; intros k o Ho; [done|].
  rewrite build_branch_objects_S, build_branch_S, continuation_loop_children.
  rewrite (children_loop_sim (find_object o rest) _
             (find_continuation (branch_of o) (list_groups rest))
             (fun k b => build_branch fuel rnd k b (list_groups rest))); [done|].
  intros c _. pose proof (find_object_list o rest c Ho) as H.
  destruct (find_object o rest c) as [[g|v]| |]; try done.
  - destruct H as [Hg H]. exists (branch_of g). split; [done|].
    intros k0. apply IH. by apply is_list_prefixed_true.
  - eauto.
Qed.

Lemma build_branch_objects_tuple (fuel : nat) (rnd : nat -> Z) (k : nat)
    (o : BranchObject) (rest : list BranchObject) :
  container (object_prefix o) = TupleContainer ->
  rest <> [] -> object_continuations o <> [] ->
  build_branch_objects (S fuel) rnd k o rest = Raise AttributeError.
Proof.
  intros Ho Hrest Hconts. rewrite build_branch_objects_S.
  destruct rest as [|g rest]; [done|].
  destruct (object_continuations o) as [|c conts]; [done|].
  assert (Hfind : find_object o (g :: rest) c = Raise AttributeError).
  { unfold find_object. cbn [_find_raising].
    by rewrite (HistoryObject_add_tuple _ _ Ho). }
  by rewrite (children_loop_find_raises _ _ _ _ _ _ _ Hfind).
Qed.

Lemma build_branch_objects_no_search (fuel : nat) (rnd : nat -> Z) (k : nat)
    (o : BranchObject) (rest : list BranchObject) :
  rest = [] \/ object_continuations o = [] ->
  build_branch_objects fuel rnd k o rest = build_branch fuel rnd k (branch_of o) [].
Proof.
  intros H. destruct fuel as [|fuel]; [done|].
  rewrite build_branch_objects_S, build_branch_S, continuation_loop_children.
  rewrite (children_loop_sim (find_object o rest) _
             (find_continuation (branch_of o) [])
             (fun k b => build_branch fuel rnd k b [])); [done|].
  intros c Hc. destruct H as [->|H]; [simpl; eauto|].
  rewrite H in Hc. destruct Hc.
Qed.

(** ** Concatenation *)

(** C9 (code defect): [h + x] raises [ValueError] exactly when [x] is not a
    [Bid], but for a [Bid] it returns the longer history only when the
    [sequence] of [h] is a list.  On a history whose [sequence] is a tuple,
    as [continuation] builds every one of them, [self.sequence.copy()] raises
    [AttributeError] and no history is returned. *)
Theorem HistoryObject_add_spec :
  (forall self x, HistoryObject_add self x = Raise ValueError <-> isinstance_Bid x = false)
  /\ (forall self b,
        container self = TupleContainer ->
        HistoryObject_add self (VBid b) = Raise AttributeError)
  /\ (forall self b,
        container self = ListContainer ->
        HistoryObject_add self (VBid b)
        = Ok (mkHistoryObject ListContainer
                (mkBidHistory (sequence (history self) ++ [b])
                              (history_meta (history self)))))
  /\ (forall children meta b,
        HistoryObject_add (continuation children meta) (VBid b) = Raise AttributeError)
  /\ (forall meta b,
        HistoryObject_add (opening meta) (VBid b)
        = Ok (mkHistoryObject ListContainer (mkBidHistory [b] meta))).
Proof.
  split; [|split; [|split; [|split]]].
  - intros self x. unfold HistoryObject_add.
    destruct x; simpl; try done. by destruct (container self).
  - intros self b. apply HistoryObject_add_tuple.
  - intros self b. apply HistoryObject_add_list.
  - done.
  - done.
Qed.

Lemma HistoryObject_add_spec_example :
  container (continuation [bid_1H None] None) = TupleContainer
  /\ HistoryObject_add (continuation [bid_1H None] None) (VBid bid_1S)
     = Raise AttributeError.
Proof.
  assert (H : container (continuation [bid_1H None] None) = TupleContainer)
    by reflexivity.
  split; [exact H|].
  exact (proj1 (proj2 HistoryObject_add_spec) (continuation [bid_1H None] None) bid_1S H).
Defined.

(** ** The two-group convention *)

(** C1 (code defect): for group A (prefix [[]], continuation [1H] on points
    in [12,14], priority 1) and group B (prefix [[1H]], continuation [1S] on
    points in [15,17], priority 1) as the transformer builds them,
    [build_branch(A, [A, B])] returns one node for [1H] without children,
    whatever the metas, and [build_branch(B, [A, B])] raises
    [AttributeError].  Only when the prefix of B is a list does the node for
    [1H] get the node for [1S] as its child, and then only when the two
    prefixes carry the same [meta]. *)
Theorem build_branch_two_groups_as_built (rnd : nat -> Z) (k fuel : nat)
    (m m' mb mb' : option Meta) :
  let node_1S :=
    mkIrBranch None (points_in 15 17) [mkBidStatement None 1 (mkSuit None Spades)]
               [] None in
  let node_1H children :=
    mkIrBranch None (points_in 12 14) [mkBidStatement mb 1 (mkSuit None Hearts)]
               children None in
  build_branch_objects (S fuel) rnd k (object_A m mb) [object_A m mb; object_B m' mb']
  = Ok ([node_1H []], S k)
  /\ build_branch_objects (S fuel) rnd k (object_B m' mb')
       [object_A m mb; object_B m' mb']
     = Raise AttributeError
  /\ build_branch_objects (S (S fuel)) rnd k (object_A m mb)
       [object_A m mb; object_B_list m' mb']
     = if meta_eqb m' m then Ok ([node_1H [node_1S]], S (S k))
       else Ok ([node_1H []], S k).
Proof.
  intros node_1S node_1H. split; [|split].
  - rewrite build_branch_objects_list by done.
    change (list_groups [object_A m mb; object_B m' mb']) with [group_A m mb].
    change (branch_of (object_A m mb)) with (group_A m mb).
    rewrite build_branch_leaves; [done|].
    intros c b [<-|[]] [<-|[]]. reflexivity.
  - by apply build_branch_objects_tuple.
  - rewrite build_branch_objects_list by done.
    change (list_groups [object_A m mb; object_B_list m' mb'])
      with [group_A m mb; group_B m' mb'].
    change (branch_of (object_A m mb)) with (group_A m mb).
    rewrite build_branch_S.
    unfold continuation_loop, find_continuation, continues. simpl.
    unfold BidHistory_eqb, history_append. simpl.
    destruct (meta_eqb m' m); reflexivity.
Qed.

(** ** Errors and termination *)

Lemma all_conditions_sorted_finishes (rnd : nat -> Z) (k : nat) (self : Branch) :
  all_conditions_sorted rnd k self <> OutOfFuel.
Proof.
  rewrite all_conditions_sorted_eq.
  pose proof (sort_reverse_finishes key_lt key_lt_never_out_of_fuel
                (sort_keys rnd k (condition_bid_pairs (continuations self)))) as H.
  by destruct (sort_reverse key_lt _).
Qed.

Lemma emit_loop_finishes (d : gmap (Z * Denomination) (list IrBranch))
    (sorted : list (Condition * Bid)) (init : outcome (list IrBranch)) :
  init <> OutOfFuel -> emit_loop d sorted init <> OutOfFuel.
Proof.
  revert init. induction sorted as [|[c b] sorted IH]; simpl; intros init H; [done|].
  apply IH. destruct init as [acc| |]; simpl; try done.
  unfold dict_get. by destruct (d !! bid_key b).
Qed.

Lemma continuation_loop_finishes
    (recur : nat -> Branch -> outcome (list IrBranch * nat))
    (branch : Branch) (rest : list Branch) (conts : list BidExpression)
    (init : outcome (gmap (Z * Denomination) (list IrBranch) * nat)) :
  (forall k c g, In c conts -> find_continuation branch rest c = Ok (inl g) ->
                 recur k g <> OutOfFuel) ->
  init <> OutOfFuel ->
  continuation_loop recur branch rest conts init <> OutOfFuel.
Proof.
  revert init. induction conts as [|c conts IH]; simpl; intros init Hrec Hinit; [done|].
  apply IH; [intros k c0 g Hc0; apply Hrec; by right|].
  destruct init as [[d k]| |]; simpl; try done.
  destruct (_find_default_returns rest (continues branch c) VNone) as [[g|v] E];
    unfold find_continuation in *; rewrite E; simpl; [|done].
  pose proof (Hrec k c g (or_introl eq_refl) E) as Hg.
  by destruct (recur k g) as [[compiled k1]| |].
Qed.

Lemma build_branch_finishes_step (rnd : nat -> Z) (rest : list Branch) (fuel : nat)
    (branch : Branch) (k : nat) :
  (forall k c g, In c (continuations branch) ->
     find_continuation branch rest c = Ok (inl g) ->
     build_branch fuel rnd k g rest <> OutOfFuel) ->
  build_branch (S fuel) rnd k branch rest <> OutOfFuel.
Proof.
  intros Hrec. rewrite build_branch_S.
  pose proof (continuation_loop_finishes (fun k b => build_branch fuel rnd k b rest)
                branch rest (continuations branch) (Ok (∅, k)) Hrec ltac:(done)) as Hloop.
  destruct (continuation_loop _ _ _ _ _) as [[d k1]| |]; simpl; try done.
  pose proof (all_conditions_sorted_finishes rnd k1 branch) as Hsort.
  destruct (all_conditions_sorted rnd k1 branch) as [[sorted k2]| |]; simpl; try done.
  pose proof (emit_loop_finishes d sorted (Ok []) ltac:(done)) as Hemit.
  by destruct (emit_loop d sorted (Ok [])).
Qed.

(** The recursion of [build_branch] always ends: every recursive call is
    for a rule group with a longer prefix. *)
Lemma build_branch_finishes (rnd : nat -> Z) (rest : list Branch) (fuel : nat) :
  forall branch k,
    (max_prefix_length rest <= length (sequence (branch_prefix branch)) + fuel)%nat ->
    build_branch (S fuel) rnd k branch rest <> OutOfFuel.
Proof.
  induction fuel as [|fuel IH]; intros branch k Hlen;
    apply build_branch_finishes_step;
    intros k0 c g Hc Hfind; apply _find_found in Hfind as [Hg Hcont];
    pose proof (continues_length _ _ _ Hcont) as Hgl;
    pose proof (max_prefix_length_In _ _ Hg) as Hmax.
  - lia.
  - apply IH. lia.
Qed.

Lemma max_prefix_length_list_groups (rest : list BranchObject) :
  (max_prefix_length (list_groups rest) <= max_prefix_length (map branch_of rest))%nat.
Proof.
  unfold list_groups. induction rest as [|g rest IH]; simpl; [done|].
  destruct (is_list_prefixed g); simpl; lia.
Qed.

Lemma list_groups_In (rest : list BranchObject) (b : Branch) :
  In b (list_groups rest) ->
  exists g, In g rest /\ container (object_prefix g) = ListContainer /\ b = branch_of g.
Proof.
  unfold list_groups. intros H. apply in_map_iff in H as (g & <- & Hg).
  apply filter_In in Hg as [Hg Hl]. apply is_list_prefixed_true in Hl. eauto.
Qed.

(** [build_branch] raises nothing but the [TypeError] of the sort and the
    [AttributeError] of [+] on a prefix that holds a tuple, which it meets
    only when the branch it is called for has such a prefix, continuations
    and a non-empty list of rule groups to search: neither [_find] nor the
    lookup of a bid in the dictionary of children can fail. *)
Theorem build_branch_error_kinds (fuel : nat) (rnd : nat -> Z) (k : nat)
    (branch : BranchObject) (rest : list BranchObject) (e : PyError) :
  build_branch_objects fuel rnd k branch rest = Raise e ->
  e = TypeError
  \/ (e = AttributeError
      /\ container (object_prefix branch) = TupleContainer
      /\ rest <> [] /\ object_continuations branch <> []).
Proof.
  destruct (container (object_prefix branch)) eqn:Ho.
  - rewrite build_branch_objects_list by done. intros H. left.
    by eapply build_branch_raises.
  - destruct rest as [|g rest].
    { rewrite build_branch_objects_no_search by auto. intros H. left.
      by eapply build_branch_raises. }
    destruct (object_continuations branch) as [|c conts] eqn:Ec.
    { rewrite build_branch_objects_no_search by auto. intros H. left.
      by eapply build_branch_raises. }
    destruct fuel as [|fuel]; [done|].
    rewrite build_branch_objects_tuple; [|done|done|by rewrite Ec].
    intros [= <-]. right. by repeat split.
Qed.

Lemma build_branch_error_kinds_example :
  let c1 := mkCondition (ENum 1) (Some 1) None in
  let c2 := mkCondition (ENum 2) (Some 1) None in
  let A := mkBranchObject (opening None)
             [mkBidExpression (bid_1H None) [c1; c2] None] None in
  build_branch_objects 1 (fun _ => 7) 0 A [A] = Raise TypeError
  /\ build_branch_objects 1 (fun _ => 7) 0 (object_B None None) [A] = Raise AttributeError
  /\ (TypeError = TypeError
      \/ (TypeError = AttributeError
          /\ container (object_prefix A) = TupleContainer
          /\ [A] <> [] /\ object_continuations A <> [])).
Proof.
  intros c1 c2 A.
  assert (E : build_branch_objects 1 (fun _ => 7) 0 A [A] = Raise TypeError)
    by reflexivity.
  split; [exact E|]. split; [reflexivity|].
  exact (build_branch_error_kinds 1 (fun _ => 7) 0 A [A] TypeError E).
Defined.

(** The recursion of [build_branch] always ends, since every recursive call
    is for a rule group with a longer prefix: with a recursion budget beyond
    the longest prefix it returns or raises, whatever the rule groups and the
    draws.  When the prefix of the branch holds a list and no rule group has
    two conditions with the same [num_val] on the same bid, it returns, and
    returns the same decision list whatever is drawn. *)
Theorem build_branch_terminates (branch : BranchObject) (rest : list BranchObject)
    (fuel : nat) :
  (max_prefix_length (map branch_of rest) < fuel)%nat ->
  (forall rnd k, build_branch_objects fuel rnd k branch rest <> OutOfFuel)
  /\ (container (object_prefix branch) = ListContainer ->
      (forall b, In b (branch :: rest) -> no_ties (branch_of b)) ->
      exists nodes, forall rnd k, exists k',
        build_branch_objects fuel rnd k branch rest = Ok (nodes, k')).
Proof.
  intros Hfuel. destruct fuel as [|fuel]; [lia|].
  pose proof (max_prefix_length_list_groups rest) as Hmax. split.
  - intros rnd k. destruct (container (object_prefix branch)) eqn:Ho.
    + rewrite build_branch_objects_list by done. apply build_branch_finishes. lia.
    + destruct rest as [|g rest].
      { rewrite build_branch_objects_no_search by auto.
        apply build_branch_finishes. simpl. lia. }
      destruct (object_continuations branch) as [|c conts] eqn:Ec.
      { rewrite build_branch_objects_no_search by auto.
        apply build_branch_finishes. simpl. lia. }
      rewrite build_branch_objects_tuple; [done|done|done|by rewrite Ec].
  - intros Ho Hties.
    destruct (build_branch_no_ties (list_groups rest) fuel) with (branch := branch_of branch)
      as [nodes Hnodes].
    + intros b Hb. apply list_groups_In in Hb as (g & Hg & _ & ->).
      apply Hties. by right.
    + apply Hties. by left.
    + lia.
    + exists nodes. intros rnd k. rewrite build_branch_objects_list by done.
      apply Hnodes.
Qed.

Lemma build_branch_terminates_example :
  exists nodes, forall rnd k, exists k',
    build_branch_objects 2 rnd k (object_A None None)
      [object_A None None; object_B_list None None] = Ok (nodes, k').
Proof.
  apply (build_branch_terminates (object_A None None)
           [object_A None None; object_B_list None None] 2).
  - simpl. lia.
  - reflexivity.
  - intros b [<-|[<-|[<-|[]]]]; unfold no_ties; simpl; repeat constructor;
      simpl; intuition.
Defined.

(** ** The search for the rule group of a continuation *)

Lemma _find_app_first {A D : Type} (before after : list A) (g : A) (predicate : A -> bool)
    (default : option D) :
  (forall b, In b before -> predicate b = false) ->
  predicate g = true ->
  _find (before ++ g :: after) predicate default = Ok (inl g).
Proof.
  intros Hb Hg. induction before as [|b before IH]; simpl.
  - by rewrite Hg.
  - rewrite (Hb b) by by left. apply IH. intros b' Hb'. apply Hb. by right.
Qed.

Lemma bids_eqb_keys (a b : list Bid) :
  bids_eqb a b = true <-> map bid_key a = map bid_key b.
Proof.
  revert b. induction a as [|x a IH]; intros [|y b]; simpl; try done.
  rewrite andb_true_iff, IH, bid_eqb_key. split.
  - intros [E1 E2]. congruence.
  - intros H. split; congruence.
Qed.

Lemma HistoryObject_eqb_true (a b : HistoryObject) :
  HistoryObject_eqb a b = true
  <-> container a = container b
      /\ map bid_key (sequence (history a)) = map bid_key (sequence (history b))
      /\ history_meta (history a) = history_meta (history b).
Proof.
  unfold HistoryObject_eqb, BidHistory_eqb.
  rewrite !andb_true_iff, bids_eqb_keys, meta_eqb_eq.
  destruct (container a), (container b); simpl; intuition congruence.
Qed.

Lemma HistoryObject_eqb_list (a : HistoryObject) (h : BidHistory) :
  HistoryObject_eqb a (mkHistoryObject ListContainer h)
  = container_eqb (container a) ListContainer && BidHistory_eqb (history a) h.
Proof. reflexivity. Qed.

(** C7 (code defect): a continuation whose next prefix matches no rule
    group gets nodes without children whenever [build_branch] returns, but
    [build_branch] does not always return.  From a branch whose prefix holds
    a tuple, as [continuation] builds it, the next prefix cannot be computed
    and the first search raises [AttributeError].  From a branch whose
    prefix holds a list and none of whose continuations finds a rule group
    the result is the list of leaves for the pairs of the sequencer, and
    [TypeError] when two conditions collide in the sort. *)
Theorem build_branch_lookup_miss_raises (rnd : nat -> Z) (branch : BranchObject)
    (rest : list BranchObject) :
  let leaf (condition : Condition) (bid : Bid) :=
    mkIrBranch (cond_meta condition) (expr condition)
               [mkBidStatement (bid_meta bid) (level bid) (color bid)] [] None in
  (container (object_prefix branch) = TupleContainer ->
   (forall b, HistoryObject_add (object_prefix branch) (VBid b) = Raise AttributeError)
   /\ (rest <> [] -> object_continuations branch <> [] ->
       forall fuel k,
         build_branch_objects (S fuel) rnd k branch rest = Raise AttributeError))
  /\ ((forall c b candidate,
         In c (object_continuations branch) -> In b rest ->
         HistoryObject_add (object_prefix branch) (VBid (prefix c)) = Ok candidate ->
         HistoryObject_eqb (object_prefix b) candidate = false) ->
      container (object_prefix branch) = ListContainer ->
      forall fuel k,
        build_branch_objects (S fuel) rnd k branch rest
        = ('(sorted, k') ← all_conditions_sorted rnd k (branch_of branch);
           Ok (map (fun '(condition, bid) => leaf condition bid) sorted, k'))
        /\ forall i j c1 c2 b1 b2,
             i <> j ->
             condition_bid_pairs (object_continuations branch) !! i = Some (c1, b1) ->
             condition_bid_pairs (object_continuations branch) !! j = Some (c2, b2) ->
             cond_num_val c1 = cond_num_val c2 ->
             bid_eqb b1 b2 = true ->
             condition_eqb c1 c2 = false ->
             randrange rnd (k + i) 999999999999 = randrange rnd (k + j) 999999999999 ->
             build_branch_objects (S fuel) rnd k branch rest = Raise TypeError)
  /\ (forall c candidate,
        In c (object_continuations branch) ->
        HistoryObject_add (object_prefix branch) (VBid (prefix c)) = Ok candidate ->
        (forall b, In b rest -> HistoryObject_eqb (object_prefix b) candidate = false) ->
        forall fuel k nodes k',
          build_branch_objects fuel rnd k branch rest = Ok (nodes, k') ->
          (forall cond, In cond (conditions c) -> In (leaf cond (prefix c)) nodes)
          /\ (forall node stmt,
                In node nodes -> ir_bids node = [stmt] ->
                (stmt_level stmt, suit_name (stmt_color stmt)) = bid_key (prefix c) ->
                ir_children node = [])).
Proof.
  intros leaf. split; [|split].
  - intros Ho. split.
    + intros b. by apply HistoryObject_add_tuple.
    + intros Hrest Hconts fuel k. by apply build_branch_objects_tuple.
  - intros Hmiss Ho fuel k.
    assert (E : build_branch_objects (S fuel) rnd k branch rest
                = ('(sorted, k') ← all_conditions_sorted rnd k (branch_of branch);
                   Ok (map (fun '(condition, bid) => leaf condition bid) sorted, k'))).
    { rewrite build_branch_objects_list by done. apply build_branch_leaves.
      intros c b Hc Hb. apply list_groups_In in Hb as (g & Hg & Hl & ->).
      pose proof (Hmiss c g _ Hc Hg (HistoryObject_add_list _ _ Ho)) as H.
      rewrite HistoryObject_eqb_list, Hl in H. exact H. }
    split; [exact E|].
    intros i j c1 c2 b1 b2 Hij Hi Hj En Eb Ec Eu. rewrite E.
    by rewrite (all_conditions_sorted_collision rnd k (branch_of branch) i j c1 c2 b1 b2).
  - intros c candidate Hc Hadd Hmiss fuel k nodes k' Hbuild.
    assert (Ho : container (object_prefix branch) = ListContainer).
    { unfold HistoryObject_add in Hadd. by destruct (container (object_prefix branch)). }
    rewrite (HistoryObject_add_list _ _ Ho) in Hadd. injection Hadd as <-.
    rewrite build_branch_objects_list in Hbuild by done.
    destruct (build_branch_lookup_miss rnd (branch_of branch) (list_groups rest) c Hc)
      as (_ & Hnodes & _); [|exact (Hnodes _ _ _ _ Hbuild)].
    intros b Hb. apply list_groups_In in Hb as (g & Hg & Hl & ->).
    specialize (Hmiss g Hg). rewrite HistoryObject_eqb_list, Hl in Hmiss. exact Hmiss.
Qed.

Lemma build_branch_lookup_miss_raises_example :
  let c1 := mkCondition (ENum 1) (Some 1) None in
  let c2 := mkCondition (ENum 2) (Some 1) None in
  let A := mkBranchObject (opening None)
             [mkBidExpression (bid_1H None) [c1; c2] None] None in
  let B := object_B None None in
  container (object_prefix B) = TupleContainer
  /\ (forall b, In b [B] ->
        HistoryObject_eqb (object_prefix b)
          (mkHistoryObject ListContainer (mkBidHistory [bid_1H None; bid_1S] None)) = false)
  /\ build_branch_objects 1 (fun _ => 0) 0 B [B] = Raise AttributeError
  /\ container (object_prefix A) = ListContainer
  /\ build_branch_objects 1 (fun _ => 7) 0 A [A] = Raise TypeError.
Proof.
  intros c1 c2 A B.
  assert (HB : container (object_prefix B) = TupleContainer) by reflexivity.
  assert (HA : container (object_prefix A) = ListContainer) by reflexivity.
  split; [exact HB|]. split; [intros b [<-|[]]; reflexivity|]. split.
  - apply (proj2 (proj1 (build_branch_lookup_miss_raises (fun _ => 0) B [B]) HB));
      discriminate.
  - split; [exact HA|].
    destruct (build_branch_lookup_miss_raises (fun _ => 7) A [A]) as (_ & Hmiss & _).
    destruct (Hmiss) with (fuel := 0%nat) (k := 0%nat) as [_ Hcollide]; [|exact HA|].
    + intros c b candidate [<-|[]] [<-|[]] [= <-]. reflexivity.
    + apply (Hcollide 0%nat 1%nat c1 c2 (bid_1H None) (bid_1H None));
        (reflexivity || lia).
Defined.

(** C10: the equality of [BidHistory] compares the container of the
    sequence, the bids by level and denomination, and the [meta]: two
    histories are equal exactly when all three agree, so histories with the
    same bids and different [meta] are unequal, while the equality of [Bid]
    ignores [meta].  [build_branch] searches with this equality: whenever it
    returns, the nodes of a continuation whose extended prefix equals the
    prefix of no rule group have no children, and the nodes of a continuation
    whose extended prefix equals the prefix of a rule group have as children
    a decision list compiled for the first such rule group of the list. *)
Theorem BidHistory_eqb_compares_meta :
  (forall a b : HistoryObject,
     HistoryObject_eqb a b = true
     <-> container a = container b
         /\ map bid_key (sequence (history a)) = map bid_key (sequence (history b))
         /\ history_meta (history a) = history_meta (history b))
  /\ (forall a b : BidHistory,
        BidHistory_eqb a b = true
        <-> map bid_key (sequence a) = map bid_key (sequence b)
            /\ history_meta a = history_meta b)
  /\ (forall c s m1 m2,
        m1 <> m2 ->
        BidHistory_eqb (mkBidHistory s m1) (mkBidHistory s m2) = false
        /\ HistoryObject_eqb (mkHistoryObject c (mkBidHistory s m1))
                             (mkHistoryObject c (mkBidHistory s m2)) = false)
  /\ (forall l c mb mb', bid_eqb (mkBid l c mb) (mkBid l c mb') = true)
  /\ (forall fuel rnd k branch rest nodes k' c candidate,
        build_branch_objects (S fuel) rnd k branch rest = Ok (nodes, k') ->
        In c (object_continuations branch) ->
        HistoryObject_add (object_prefix branch) (VBid (prefix c)) = Ok candidate ->
        let node cond children :=
          mkIrBranch (cond_meta cond) (expr cond)
                     [mkBidStatement (bid_meta (prefix c)) (level (prefix c))
                                     (color (prefix c))]
                     children None in
        ((forall b, In b rest -> HistoryObject_eqb (object_prefix b) candidate = false) ->
         forall cond, In cond (conditions c) -> In (node cond []) nodes)
        /\ (forall before g after,
              rest = before ++ g :: after ->
              (forall b, In b before ->
                         HistoryObject_eqb (object_prefix b) candidate = false) ->
              HistoryObject_eqb (object_prefix g) candidate = true ->
              exists compiled k1 k2,
                build_branch_objects fuel rnd k1 g rest = Ok (compiled, k2)
                /\ forall cond, In cond (conditions c) -> In (node cond compiled) nodes)).
Proof.
  split; [exact HistoryObject_eqb_true|]. split; [|split; [|split]].
  - intros a b. unfold BidHistory_eqb.
    by rewrite andb_true_iff, bids_eqb_keys, meta_eqb_eq.
  - intros c s m1 m2 Hne.
    assert (E : BidHistory_eqb (mkBidHistory s m1) (mkBidHistory s m2) = false).
    { unfold BidHistory_eqb. simpl. rewrite (meta_eqb_neq m1 m2 Hne). apply andb_false_r. }
    split; [exact E|]. unfold HistoryObject_eqb. simpl. rewrite E. apply andb_false_r.
  - intros l c mb mb'. by apply bid_eqb_key.
  - intros fuel rnd k branch rest nodes k' c candidate Hbuild Hc Hadd node.
    assert (Ho : container (object_prefix branch) = ListContainer).
    { unfold HistoryObject_add in Hadd. by destruct (container (object_prefix branch)). }
    rewrite (HistoryObject_add_list _ _ Ho) in Hadd. injection Hadd as <-.
    rewrite build_branch_objects_list in Hbuild by done.
    split.
    + intros Hmiss cond Hcond.
      destruct (build_branch_lookup_miss rnd (branch_of branch) (list_groups rest) c Hc)
        as (_ & Hnodes & _).
      { intros b Hb. apply list_groups_In in Hb as (g & Hg & Hl & ->).
        specialize (Hmiss g Hg). rewrite HistoryObject_eqb_list, Hl in Hmiss.
        exact Hmiss. }
      destruct (Hnodes _ _ _ _ Hbuild) as [Hin _]. exact (Hin cond Hcond).
    + intros before g after -> Hbefore Hg.
      rewrite HistoryObject_eqb_list in Hg. apply andb_true_iff in Hg as [Hl Hg].
      assert (Hfind : find_continuation (branch_of branch)
                        (list_groups (before ++ g :: after)) c
                      = Ok (inl (branch_of g))).
      { unfold find_continuation, list_groups.
        rewrite List.filter_app. simpl. unfold is_list_prefixed at 2. rewrite Hl.
        rewrite map_app. simpl. apply _find_app_first; [|exact Hg].
        intros b Hb. apply in_map_iff in Hb as (b' & <- & Hb').
        apply filter_In in Hb' as [Hb' Hl']. specialize (Hbefore b' Hb').
        rewrite HistoryObject_eqb_list in Hbefore.
        unfold is_list_prefixed in Hl'. rewrite Hl' in Hbefore. exact Hbefore. }
      destruct (build_branch_children _ _ _ _ _ _ _ _ _ Hbuild Hc Hfind)
        as (compiled & k1 & k2 & Hrec & Hin & _).
      exists compiled, k1, k2. split; [|exact Hin].
      rewrite build_branch_objects_list; [exact Hrec|].
      by destruct (container (object_prefix g)).
Qed.

Lemma BidHistory_eqb_compares_meta_example :
  Some 0%nat <> (None : option Meta)
  /\ BidHistory_eqb (mkBidHistory [bid_1H None] (Some 0%nat))
                    (mkBidHistory [bid_1H None] None) = false
  /\ build_branch_objects 2 (fun _ => 0) 0 (object_A None None)
       [object_A None None; object_B_list None None]
     = Ok ([new_branch cond_A (bid_1H None) [new_branch cond_B bid_1S []]], 2%nat)
  /\ (exists compiled k1 k2,
        build_branch_objects 1 (fun _ => 0) k1 (object_B_list None None)
          [object_A None None; object_B_list None None] = Ok (compiled, k2)
        /\ In (mkIrBranch None (points_in 12 14)
                 [mkBidStatement None 1 (mkSuit None Hearts)] compiled None)
              [new_branch cond_A (bid_1H None) [new_branch cond_B bid_1S []]])
  /\ build_branch_objects 2 (fun _ => 0) 0 (object_A (Some 0%nat) None)
       [object_A (Some 0%nat) None; object_B_list None None]
     = Ok ([new_branch cond_A (bid_1H None) []], 1%nat).
Proof.
  assert (Hne : Some 0%nat <> (None : option Meta)) by discriminate.
  split; [exact Hne|].
  destruct BidHistory_eqb_compares_meta as (_ & _ & Hmeta & _ & Hsearch).
  split; [exact (proj1 (Hmeta ListContainer [bid_1H None] (Some 0%nat) None Hne))|].
  assert (E : build_branch_objects 2 (fun _ => 0) 0 (object_A None None)
                [object_A None None; object_B_list None None]
              = Ok ([new_branch cond_A (bid_1H None) [new_branch cond_B bid_1S []]],
                    2%nat)) by reflexivity.
  split; [exact E|]. split; [|reflexivity].
  destruct (Hsearch 1%nat (fun _ => 0) 0%nat (object_A None None)
              [object_A None None; object_B_list None None] _ _
              (mkBidExpression (bid_1H None) [cond_A] None) _ E
              (or_introl eq_refl) eq_refl) as [_ Hhit].
  destruct (Hhit [object_A None None] (object_B_list None None) [] eq_refl)
    as (compiled & k1 & k2 & Hrec & Hin).
  - intros b [<-|[]]. reflexivity.
  - reflexivity.
  - exists compiled, k1, k2. split; [exact Hrec|]. apply (Hin cond_A). by left.
Defined.
